(** * btcutil: the GCS query optimizer and the BIP 69 transaction sort

    A shallow embedding of [gcs/query_optimizer.go] (the cost model and
    [Optimize]), of two loops of its benchmarks and of [txsort/txsort.go],
    with the properties stated about them.

    Go's [float64] is IEEE 754 binary64 with round-to-nearest-even, which is
    what Rocq's primitive [float] implements, so the float code is embedded
    operation by operation.  Products and sums are rounded separately (no
    fused multiply-add), as the Go compiler does on amd64. *)

From Stdlib Require Import ZArith Uint63 Floats Lia Bool List String.
From stdpp Require Import base option list gmap sorting.

#[local] Open Scope Z_scope.
#[local] Open Scope bool_scope.

(* ===================================================================== *)
(** ** Go's float64 conversions *)

Module Float64.

#[local] Open Scope float_scope.

(** [float64(z)] for a Go [int] (64 bits): the nearest binary64 value. *)
Definition of_int (z : Z) : float :=
  if (0 <=? z)%Z then of_uint63 (Uint63.of_Z z)
  else if (z =? - 2 ^ 63)%Z then - 0x1p63
  else - of_uint63 (Uint63.of_Z (- z)).

(** [int(f)] for a finite [f]: truncation towards zero. *)
Definition to_int (f : float) : Z :=
  match Prim2SF f with
  | S754_finite s m e => cond_Zopp s (Z.shiftl (Zpos m) e)
  | _ => 0%Z
  end.

(** The range of a non-negative Go [int]. *)
Definition nonneg_int (z : Z) : Prop := (0 <= z < 2 ^ 63)%Z.

End Float64.

(* ===================================================================== *)
(** ** Package math of the Go standard library

    [math.Exp] and [math.Log2] are not code of this repository.  The cost
    model below takes them as parameters; this module gives the reference
    instance used to evaluate [Optimize] on concrete inputs: the portable
    implementations of the Go distribution (math/exp.go, math/log.go,
    math/log10.go, math/frexp.go, math/ldexp.go). *)

Module GoMath.

#[local] Open Scope float_scope.

Definition Ln2Hi : float := 0x1.62e42fee00000p-1.
Definition Ln2Lo : float := 0x1.a39ef35793c76p-33.
Definition Log2e : float := 0x1.71547652b82fep+0.
Definition Sqrt2_half : float := 0x1.6a09e667f3bcdp-1.
Definition inv_Ln2 : float := 0x1.71547652b82fep+0.

(** [math.Frexp]: [f = frac * 2^exp] with [frac] in [[0.5, 1)]; zero,
    infinities and NaN are returned unchanged with exponent 0. *)
Definition Frexp (f : float) : float * Z :=
  if is_zero f || is_infinity f || is_nan f then (f, 0%Z)
  else Z.frexp f.

(** [math.Ldexp]: [frac * 2^exp], correctly rounded. *)
Definition Ldexp (frac : float) (exp : Z) : float := Z.ldexp frac exp.

(** [expmulti]: [e^r * 2^k] where [r = hi - lo] and [|r| <= ln 2 / 2]. *)
Definition expmulti (hi lo : float) (k : Z) : float :=
  let P1 := 0x1.5555555555555p-3 in
  let P2 := - 0x1.6c16c16bebd93p-9 in
  let P3 := 0x1.1566aaf25de2cp-14 in
  let P4 := - 0x1.bbd41c5d26bf1p-20 in
  let P5 := 0x1.6376972bea4d0p-25 in
  let r := hi - lo in
  let t := r * r in
  let c := r - t * (P1 + t * (P2 + t * (P3 + t * (P4 + t * P5)))) in
  let y := 1 - ((lo - (r * c) / (2 - c)) - hi) in
  Ldexp y k.

(** [math.Exp]. *)
Definition Exp (x : float) : float :=
  let Overflow := 0x1.62e42fefa39efp+9 in
  let Underflow := - 0x1.74910d52d3051p+9 in
  let NearZero := 0x1p-28 in
  if is_nan x || (x =? infinity) then x
  else if x =? neg_infinity then 0
  else if Overflow <? x then infinity
  else if x <? Underflow then 0
  else if (- NearZero <? x) && (x <? NearZero) then 1 + x
  else
    let k :=
      if x <? 0 then Float64.to_int (Log2e * x - 0.5)
      else if 0 <? x then Float64.to_int (Log2e * x + 0.5)
      else 0%Z in
    let hi := x - Float64.of_int k * Ln2Hi in
    let lo := Float64.of_int k * Ln2Lo in
    expmulti hi lo k.

(** [math.Log]. *)
Definition Log (x : float) : float :=
  let L1 := 0x1.5555555555593p-1 in
  let L2 := 0x1.999999997fa04p-2 in
  let L3 := 0x1.2492494229359p-2 in
  let L4 := 0x1.c71c51d8e78afp-3 in
  let L5 := 0x1.7466496cb03dep-3 in
  let L6 := 0x1.39a09d078c69fp-3 in
  let L7 := 0x1.2f112df3e5244p-3 in
  if is_nan x || (x =? infinity) then x
  else if x <? 0 then nan
  else if x =? 0 then neg_infinity
  else
    let '(f1, ki) := Frexp x in
    let '(f1, ki) :=
      if f1 <? Sqrt2_half then (f1 * 2, (ki - 1)%Z) else (f1, ki) in
    let f := f1 - 1 in
    let k := Float64.of_int ki in
    let s := f / (2 + f) in
    let s2 := s * s in
    let s4 := s2 * s2 in
    let t1 := s2 * (L1 + s4 * (L3 + s4 * (L5 + s4 * L7))) in
    let t2 := s4 * (L2 + s4 * (L4 + s4 * L6)) in
    let R := t1 + t2 in
    let hfsq := 0.5 * f * f in
    k * Ln2Hi - ((hfsq - (s * (hfsq + R) + k * Ln2Lo)) - f).

(** [math.Log2]: exact on powers of two. *)
Definition Log2 (x : float) : float :=
  let '(frac, exp) := Frexp x in
  if frac =? 0.5 then Float64.of_int (exp - 1)
  else Log frac * inv_Ln2 + Float64.of_int exp.

End GoMath.

(* ===================================================================== *)
(** ** Package gcs: the query optimizer *)

Module gcs.

#[local] Open Scope float_scope.

Definition M : float := 784931.

Inductive MatchType : Set :=
| MatchBlock
| MatchZip
| MatchHash.

(** The numeric value of a tag ([iota] numbering). *)
Definition MatchType_value (m : MatchType) : Z :=
  match m with
  | MatchBlock => 0
  | MatchZip => 1
  | MatchHash => 2
  end.

(** [MatchType.String], on the numeric value of the tag (a [uint8]). *)
Definition MatchType_String (m : Z) : string :=
  if (m =? MatchType_value MatchBlock)%Z then "Block"
  else if (m =? MatchType_value MatchZip)%Z then "Zip"
  else if (m =? MatchType_value MatchHash)%Z then "Hash"
  else "Unknown".

Definition CostSort : float := 130.
Definition CostRead : float := 30.
Definition CostInsert : float := 45.
Definition CostLookup : float := 30.
Definition CostComp : float := 1.
Definition CostKey : float := 3.

Section CostModel.

(** The two functions of package math the model calls. *)
Variable math_Exp : float -> float.
Variable math_Log2 : float -> float.

Definition expQueries (q : float) : float :=
  M * (1 - math_Exp (- q / M)).


Definition expReads (q n expQ : float) : float :=
  ((n + 1) / (q + 1)) * expQ.

Definition costZip (q expQ expN : float) : float :=
  q * CostKey +
  q * math_Log2 q * CostSort +
  (expQ + expN) * CostComp +
  expN * CostRead.

Definition costHash (q n expQ : float) : float :=
  n * (CostInsert + CostRead) +
  expQ * CostKey +
  expQ * CostLookup.

(** The two cost estimates [Optimize] compares, for its integer
    arguments. *)
Definition zipCost (querySize filterSize : Z) : float :=
  let Q := Float64.of_int querySize in
  let N := Float64.of_int filterSize in
  let expQ := expQueries Q in
  let expN := expReads Q N expQ in
  costZip Q expQ expN.

Definition hashCost (querySize filterSize : Z) : float :=
  let Q := Float64.of_int querySize in
  let N := Float64.of_int filterSize in
  let expQ := expQueries Q in
  costHash Q N expQ.

Definition Optimize (querySize filterSize : Z) : MatchType * float :=
  let Q := Float64.of_int querySize in
  let N := Float64.of_int filterSize in
  let expQ := expQueries Q in
  let expN := expReads Q N expQ in
  let cZip := costZip Q expQ expN in
  let cHash := costHash Q N expQ in
  if cZip <? cHash then (MatchZip, cZip / cHash)
  else (MatchHash, cHash / cZip).

End CostModel.

End gcs.

(* ===================================================================== *)
(** ** The benchmarks of the cost weights

    The loops of [BenchmarkCostComp] and [BenchmarkCostLookup]
    ([gcs/query_optimizer_bench_test.go]), over the slices the benchmark
    fills with random values. *)

Module gcs_bench.

(** How the loop of [BenchmarkCostComp] ends: it returns with the two
    indices, or an index is out of range (a runtime panic); [Running]
    stands for a loop that has not ended within the given number of
    iterations. *)
Inductive walk : Type :=
| Returned (idx1 idx2 : nat)
| IndexOutOfRange
| Running.

(** The loop of [BenchmarkCostComp], from the indices [idx1] and [idx2]:
    each iteration returns at the end of either slice, or advances the
    index at the smaller element. *)
Fixpoint compareWalk (iterations : nat) (s1 s2 : list Z) (idx1 idx2 : nat)
  : walk :=
  match iterations with
  | O => Running
  | S n =>
      if (idx1 =? length s1)%nat then Returned idx1 idx2
      else if (idx2 =? length s2)%nat then Returned idx1 idx2
      else
        match s1 !! idx1, s2 !! idx2 with
        | Some a, Some b =>
            if a <? b then compareWalk n s1 s2 (S idx1) idx2
            else compareWalk n s1 s2 idx1 (S idx2)
        | _, _ => IndexOutOfRange
        end
  end.

(** The insert loop and the lookup loop of [BenchmarkCostLookup]: every
    value of [s] is inserted into a map, then every value is looked up and
    the package variable [ok] takes the result.  The function maps the
    value [ok] has before to the value it has after. *)
Definition BenchmarkCostLookup (s : list Z) (ok : bool) : bool :=
  let m := fold_left (fun (m : gset Z) v => {[ v ]} ∪ m) s ∅ in
  fold_left (fun _ v => bool_decide (v ∈ m)) s ok.

End gcs_bench.

(* ===================================================================== *)
(** ** Package sort of the Go standard library

    [sort.Sort] and [sort.IsSorted] are not code of this repository.  The
    transaction sort below takes [sort.Sort] as a parameter; the reference
    instance is [insertionSort], which is what [sort.Sort] runs on a slice
    of at most twelve elements. *)

Module GoSort.

(** One pass of the inner loop of [insertionSort]: the element [x] at the
    end of the sorted prefix moves left while it is less than its
    predecessor.  The prefix is held reversed (last element first). *)
Fixpoint insert_back {A : Type} (less : A -> A -> bool) (x : A)
  (rp : list A) : list A :=
  match rp with
  | [] => [x]
  | y :: rp' => if less x y then y :: insert_back less x rp' else x :: rp
  end.

Definition insertionSort {A : Type} (less : A -> A -> bool)
  (l : list A) : list A :=
  rev (fold_left (fun rp x => insert_back less x rp) l []).

(** [sort.IsSorted]: no element is less than its predecessor. *)
Fixpoint IsSorted {A : Type} (less : A -> A -> bool) (l : list A) : bool :=
  match l with
  | a :: (b :: _) as t => negb (less b a) && IsSorted less t
  | _ => true
  end.

End GoSort.

(* ===================================================================== *)
(** ** Package wire of btcd: the transaction types *)

Module wire.

Record OutPoint : Type := {
  Hash : list Byte.byte;
  Index : Z
}.

Record TxIn : Type := {
  PreviousOutPoint : OutPoint;
  SignatureScript : list Byte.byte;
  Witness : list (list Byte.byte);
  Sequence : Z
}.

Record TxOut : Type := {
  Value : Z;
  PkScript : list Byte.byte
}.

End wire.

(* ===================================================================== *)
(** ** Package txsort

    Slices are references into a store of backing arrays, so that sorting
    a slice in place is visible through every slice header that shares the
    array.  The [*wire.TxIn] and [*wire.TxOut] elements are never written
    by this package and are held by value.  A panic is an error result. *)

Module txsort.

Definition loc := positive.

#[global] Instance byte_eq_dec : EqDecision Byte.byte := Byte.byte_eq_dec.

(** [wire.MsgTx]: the two slice fields are references to backing arrays. *)
Module MsgTx.
Record t : Type := {
  Version : Z;
  TxIn : loc;
  TxOut : loc;
  LockTime : Z
}.
End MsgTx.

Record txOutWithContext : Type := {
  TxOut : wire.TxOut;
  Context : list Byte.byte
}.

Record heap : Type := {
  txins : gmap loc (list wire.TxIn);
  txouts : gmap loc (list wire.TxOut);
  ctxouts : gmap loc (list txOutWithContext)
}.

Inductive result (A : Type) : Type :=
| Ok (a : A)
| Panic (msg : string).
Arguments Ok {A} a.
Arguments Panic {A} msg.

Definition Go (A : Type) : Type := heap -> result (A * heap).

Definition ret {A : Type} (a : A) : Go A := fun h => Ok (a, h).

Definition bind {A B : Type} (m : Go A) (k : A -> Go B) : Go B :=
  fun h => match m h with
           | Ok (a, h') => k a h'
           | Panic msg => Panic msg
           end.

Definition panic {A : Type} (msg : string) : Go A := fun _ => Panic msg.

Notation "'let*' x ':=' m 'in' k" := (bind m (fun x => k))
  (at level 10, x name, m at level 100, k at level 200).
Notation "'do' m 'then' k" := (bind m (fun _ => k))
  (at level 10, m at level 100, k at level 200).

Definition is_panic {A : Type} (r : result A) : bool :=
  match r with
  | Ok _ => false
  | Panic _ => true
  end.

(** *** The store *)

Definition load_ins (l : loc) : Go (list wire.TxIn) :=
  fun h => match txins h !! l with
           | Some v => Ok (v, h)
           | None => Panic "invalid memory address"
           end.

Definition load_outs (l : loc) : Go (list wire.TxOut) :=
  fun h => match txouts h !! l with
           | Some v => Ok (v, h)
           | None => Panic "invalid memory address"
           end.

Definition load_ctx (l : loc) : Go (list txOutWithContext) :=
  fun h => match ctxouts h !! l with
           | Some v => Ok (v, h)
           | None => Panic "invalid memory address"
           end.

Definition store_ins (l : loc) (v : list wire.TxIn) : Go unit :=
  fun h => Ok (tt, {| txins := <[l := v]> (txins h);
                      txouts := txouts h; ctxouts := ctxouts h |}).

Definition store_outs (l : loc) (v : list wire.TxOut) : Go unit :=
  fun h => Ok (tt, {| txins := txins h;
                      txouts := <[l := v]> (txouts h); ctxouts := ctxouts h |}).

Definition store_ctx (l : loc) (v : list txOutWithContext) : Go unit :=
  fun h => Ok (tt, {| txins := txins h; txouts := txouts h;
                      ctxouts := <[l := v]> (ctxouts h) |}).

Definition alloc_ins (v : list wire.TxIn) : Go loc :=
  fun h => let l := fresh (dom (txins h)) in
           Ok (l, {| txins := <[l := v]> (txins h);
                     txouts := txouts h; ctxouts := ctxouts h |}).

Definition alloc_outs (v : list wire.TxOut) : Go loc :=
  fun h => let l := fresh (dom (txouts h)) in
           Ok (l, {| txins := txins h;
                     txouts := <[l := v]> (txouts h); ctxouts := ctxouts h |}).

Definition alloc_ctx (v : list txOutWithContext) : Go loc :=
  fun h => let l := fresh (dom (ctxouts h)) in
           Ok (l, {| txins := txins h; txouts := txouts h;
                     ctxouts := <[l := v]> (ctxouts h) |}).

(** [wire.MsgTx.Copy]: a deep copy, with backing arrays of its own. *)
Definition Copy (tx : MsgTx.t) : Go MsgTx.t :=
  let* ins := load_ins (MsgTx.TxIn tx) in
  let* outs := load_outs (MsgTx.TxOut tx) in
  let* li := alloc_ins ins in
  let* lo := alloc_outs outs in
  ret {| MsgTx.Version := MsgTx.Version tx; MsgTx.TxIn := li;
         MsgTx.TxOut := lo; MsgTx.LockTime := MsgTx.LockTime tx |}.

(** [bytes.Compare]: lexicographic, with result -1, 0 or 1. *)
Fixpoint bytes_Compare (a b : list Byte.byte) : Z :=
  match a, b with
  | [], [] => 0
  | [], _ :: _ => -1
  | _ :: _, [] => 1
  | x :: a', y :: b' =>
      match N.compare (Byte.to_N x) (Byte.to_N y) with
      | Lt => -1
      | Gt => 1
      | Eq => bytes_Compare a' b'
      end
  end.

(** *** The three orders *)

(** [sortableInputSlice.Less] on the elements at the two indices.  The
    loop over half of the hash swaps byte [b] with byte [hashSize-1-b] in
    both copies, which reverses them. *)
Definition sortableInputSlice_Less (si sj : wire.TxIn) : bool :=
  let ihash := wire.Hash (wire.PreviousOutPoint si) in
  let jhash := wire.Hash (wire.PreviousOutPoint sj) in
  if bool_decide (ihash = jhash) then
    wire.Index (wire.PreviousOutPoint si) <? wire.Index (wire.PreviousOutPoint sj)
  else
    bytes_Compare (rev ihash) (rev jhash) =? -1.

Definition sortableOutputSlice_Less (si sj : wire.TxOut) : bool :=
  if wire.Value si =? wire.Value sj then
    bytes_Compare (wire.PkScript si) (wire.PkScript sj) <? 0
  else
    wire.Value si <? wire.Value sj.

Definition sortableOutputContextSlice_Less (si sj : txOutWithContext) : bool :=
  if negb (wire.Value (TxOut si) =? wire.Value (TxOut sj)) then
    wire.Value (TxOut si) <? wire.Value (TxOut sj)
  else
    let pkScriptCmp :=
      bytes_Compare (wire.PkScript (TxOut si)) (wire.PkScript (TxOut sj)) in
    if negb (pkScriptCmp =? 0) then pkScriptCmp =? -1
    else bytes_Compare (Context si) (Context sj) =? -1.

(** The loop of [makeSortableOutputContextSlice]: element [i] of the new
    slice marries [txouts[i]] to [ctxts[i]]; an index outside [ctxts] is a
    runtime panic. *)
Fixpoint zipContexts (i : nat) (txouts : list wire.TxOut)
  (ctxts : list (list Byte.byte)) : option (list txOutWithContext) :=
  match txouts with
  | [] => Some []
  | txout :: rest =>
      match ctxts !! i, zipContexts (S i) rest ctxts with
      | Some c, Some r => Some ({| TxOut := txout; Context := c |} :: r)
      | _, _ => None
      end
  end.

Section Sorting.

(** [sort.Sort], as the final content of the slice it is given. *)
Variable sort_Sort : forall A : Type, (A -> A -> bool) -> list A -> list A.

Definition sort_ins (l : loc) : Go unit :=
  let* v := load_ins l in
  store_ins l (sort_Sort _ sortableInputSlice_Less v).

Definition sort_outs (l : loc) : Go unit :=
  let* v := load_outs l in
  store_outs l (sort_Sort _ sortableOutputSlice_Less v).

Definition sort_ctx (l : loc) : Go unit :=
  let* v := load_ctx l in
  store_ctx l (sort_Sort _ sortableOutputContextSlice_Less v).

Definition InPlaceSort (tx : MsgTx.t) : Go unit :=
  do sort_ins (MsgTx.TxIn tx) then
  sort_outs (MsgTx.TxOut tx).

Definition Sort (tx : MsgTx.t) : Go MsgTx.t :=
  let* txCopy := Copy tx in
  do sort_ins (MsgTx.TxIn txCopy) then
  do sort_outs (MsgTx.TxOut txCopy) then
  ret txCopy.

Definition IsSorted (tx : MsgTx.t) : Go bool :=
  let* ins := load_ins (MsgTx.TxIn tx) in
  if negb (GoSort.IsSorted sortableInputSlice_Less ins) then ret false
  else
    let* outs := load_outs (MsgTx.TxOut tx) in
    if negb (GoSort.IsSorted sortableOutputSlice_Less outs) then ret false
    else ret true.

Definition makeSortableOutputContextSlice (txouts : loc)
  (ctxts : list (list Byte.byte)) : Go loc :=
  let* outs := load_outs txouts in
  if negb (length outs =? length ctxts)%nat then
    panic "length of txouts and contexts must be equal"
  else
    match zipContexts 0 outs ctxts with
    | Some contextualOutputs => alloc_ctx contextualOutputs
    | None => panic "index out of range"
    end.

Definition InPlaceContextualSort (tx : MsgTx.t)
  (ctxts : list (list Byte.byte)) : Go unit :=
  do sort_ins (MsgTx.TxIn tx) then
  let* s := makeSortableOutputContextSlice (MsgTx.TxOut tx) ctxts in
  sort_ctx s.

Definition ContextualSort (tx : MsgTx.t)
  (ctxts : list (list Byte.byte)) : Go MsgTx.t :=
  let* txCopy := Copy tx in
  do sort_ins (MsgTx.TxIn txCopy) then
  let* s := makeSortableOutputContextSlice (MsgTx.TxOut tx) ctxts in
  do sort_ctx s then
  ret txCopy.

Definition IsContextualSorted (tx : MsgTx.t)
  (ctxts : list (list Byte.byte)) : Go bool :=
  let* ins := load_ins (MsgTx.TxIn tx) in
  if negb (GoSort.IsSorted sortableInputSlice_Less ins) then ret false
  else
    let* s := makeSortableOutputContextSlice (MsgTx.TxOut tx) ctxts in
    let* v := load_ctx s in
    if negb (GoSort.IsSorted sortableOutputContextSlice_Less v) then ret false
    else ret true.

End Sorting.

End txsort.

(* ===================================================================== *)
(** ** The two matching strategies

    The matchers ([gcs.go]) are not among the source files; they are
    modelled from sections 3, 4.3 and 4.4 of the specification, with
    "exists" semantics, over the values the Decoder yields. *)

Module matcher.

#[local] Open Scope N_scope.

(** Modelled from the spec: the Decoder of a FilterStream (section 3).
    Each entry is the gap from the previous one, decoded by
    accumulation. *)
Fixpoint decode (prev : N) (deltas : list N) : list N :=
  match deltas with
  | [] => []
  | delta :: rest => (prev + delta) :: decode (prev + delta) rest
  end.

(** Modelled from the spec: the merge-walk of the Merge Matcher (section
    4.3).  One cursor into each sequence; equal elements are a match, else
    the cursor at the smaller element advances; the walk ends when either
    sequence is exhausted. *)
Fixpoint zipMatchAny (filter : list N) : list N -> bool :=
  fix walk (queries : list N) : bool :=
    match filter, queries with
    | [], _ => false
    | _, [] => false
    | f :: filter', q :: queries' =>
        if f =? q then true
        else if f <? q then zipMatchAny filter' queries
        else walk queries'
    end.

(** Modelled from the spec: the Merge Matcher (section 4.3), which sorts
    the reduced query values before the walk. *)
Definition MergeMatcher (filter queries : list N) : bool :=
  zipMatchAny filter (merge_sort N.le queries).

(** Modelled from the spec: the first step of the Hash Matcher (section
    4.4): every filter value is inserted into a hash set. *)
Definition buildSet (filter : list N) : gset N :=
  foldl (fun set v => {[ v ]} ∪ set) ∅ filter.

(** Modelled from the spec: the second step of the Hash Matcher: the set
    is probed once per query value, stopping at the first hit. *)
Fixpoint probeAny (set : gset N) (queries : list N) : bool :=
  match queries with
  | [] => false
  | q :: rest => if bool_decide (q ∈ set) then true else probeAny set rest
  end.

(** Modelled from the spec: the Hash Matcher (section 4.4). *)
Definition HashMatcher (filter queries : list N) : bool :=
  probeAny (buildSet filter) queries.


(** Modelled from the spec: the caller runs the matcher the selector's tag
    names; [Block] is resolved by the caller and runs neither. *)
Definition runMatcher (strategy : gcs.MatchType) (filter queries : list N)
  : option bool :=
  match strategy with
  | gcs.MatchZip => Some (MergeMatcher filter queries)
  | gcs.MatchHash => Some (HashMatcher filter queries)
  | gcs.MatchBlock => None
  end.

End matcher.

(* ===================================================================== *)
(** ** Binary64 arithmetic on positive numbers

    Bounds by powers of two for the rounded operations, from the
    specification of the primitive floats: each operation on positive
    finite numbers rounds its exact result within the closure of the
    binade of that result. *)

Module Float64_props.


Definition digits (m : positive) : Z := Zpos (digits2_pos m).

(** The binade of a positive number [m * 2^e]: it lies in [[2^(g-1), 2^g)]. *)
Definition mag (m : positive) (e : Z) : Z := digits m + e.

Lemma fexp_eq (g : Z) : fexp prec emax g = Z.max (g - 53) (-1074).
Proof. reflexivity. Qed.

Lemma digits2_pos_size (p : positive) : digits2_pos p = Pos.size p.
Proof. induction p; cbn; congruence. Qed.

Lemma digits_pos (m : positive) : 1 <= digits m.
Proof. unfold digits. lia. Qed.

Lemma digits_bounds (m : positive) :
  2 ^ (digits m - 1) <= Zpos m < 2 ^ digits m.
Proof.
  unfold digits. rewrite digits2_pos_size. split.
  - pose proof (Pos.size_le m) as H.
    assert (H' : 2 ^ Zpos (Pos.size m) <= 2 * Zpos m).
    { rewrite <- Pos2Z.inj_pow. change (2 * Zpos m) with (Zpos m~0). lia. }
    replace (Zpos (Pos.size m)) with (Zpos (Pos.size m) - 1 + 1) in H' by lia.
    rewrite Z.pow_add_r in H' by lia. lia.
  - pose proof (Pos.size_gt m) as H. rewrite <- Pos2Z.inj_pow. lia.
Qed.

Lemma digits_unique (m : positive) (k : Z) :
  2 ^ (k - 1) <= Zpos m < 2 ^ k -> digits m = k.
Proof.
  intros [Hl Hu]. pose proof (digits_bounds m) as [Bl Bu].
  pose proof (digits_pos m).
  assert (0 < k).
  { destruct (Z.ltb_spec 0 k); [assumption|].
    destruct (Z.eq_dec k 0) as [->|]; [cbn in Hu; lia|].
    rewrite (Z.pow_neg_r 2 k) in Hu by lia. lia. }
  assert (digits m - 1 < k).
  { apply (Z.pow_lt_mono_r_iff 2); lia. }
  assert (k - 1 < digits m).
  { apply (Z.pow_lt_mono_r_iff 2); lia. }
  lia.
Qed.

Lemma shr_m_of_loc (m : Z) (l : location) : shr_m (shr_record_of_loc m l) = m.
Proof. destruct l as [|[]]; reflexivity. Qed.

Lemma shr_1_m (r : shr_record) : 0 <= shr_m r -> shr_m (shr_1 r) = shr_m r / 2.
Proof.
  destruct r as [m rb sb]. cbn [shr_m]. intros Hm.
  destruct m as [|[p|p|]|p]; cbn [shr_1 shr_m]; try lia.
  - reflexivity.
  - change (Zpos p~1) with (2 * Zpos p + 1).
    rewrite Z.add_comm, Z.mul_comm, Z.div_add by lia. reflexivity.
  - change (Zpos p~0) with (2 * Zpos p).
    rewrite Z.mul_comm, Z.div_mul by lia. reflexivity.
  - reflexivity.
Qed.

Lemma pow2_xO (p : positive) : 2 ^ Zpos p~0 = 2 ^ Zpos p * 2 ^ Zpos p.
Proof. rewrite <- Z.pow_add_r by lia. f_equal. lia. Qed.

Lemma pow2_xI (p : positive) : 2 ^ Zpos p~1 = 2 * (2 ^ Zpos p * 2 ^ Zpos p).
Proof.
  rewrite <- Z.pow_add_r by lia.
  replace (Zpos p~1) with (1 + (Zpos p + Zpos p)) by lia.
  now rewrite Z.pow_add_r by lia.
Qed.

Lemma shr_iter_m (p : positive) :
  forall r, 0 <= shr_m r ->
  shr_m (SpecFloat.iter_pos shr_1 p r) = shr_m r / 2 ^ Zpos p.
Proof.
  induction p as [p IH|p IH|]; intros r Hr; cbn [SpecFloat.iter_pos].
  - assert (H1 : 0 <= shr_m (shr_1 r)).
    { rewrite shr_1_m by assumption. apply Z.div_pos; lia. }
    assert (H2 : 0 <= shr_m (SpecFloat.iter_pos shr_1 p (shr_1 r))).
    { rewrite IH by assumption. apply Z.div_pos; lia. }
    rewrite IH, IH, shr_1_m by assumption.
    rewrite !Z.div_div by lia. now rewrite pow2_xI.
  - assert (H2 : 0 <= shr_m (SpecFloat.iter_pos shr_1 p r)).
    { rewrite IH by assumption. apply Z.div_pos; lia. }
    rewrite IH, IH by assumption.
    rewrite !Z.div_div by lia. now rewrite pow2_xO.
  - rewrite shr_1_m by assumption. reflexivity.
Qed.

Lemma div_pow2_digits (m : positive) (n : Z) :
  0 < n < digits m ->
  exists m', Zpos m / 2 ^ n = Zpos m' /\ digits m' = digits m - n.
Proof.
  intros Hn. pose proof (digits_bounds m) as [Bl Bu].
  assert (Hp : 0 < 2 ^ n) by (apply Z.pow_pos_nonneg; lia).
  assert (Hl : 2 ^ (digits m - n - 1) <= Zpos m / 2 ^ n).
  { apply Z.div_le_lower_bound; [lia|].
    rewrite <- Z.pow_add_r by lia.
    replace (n + (digits m - n - 1)) with (digits m - 1) by lia. exact Bl. }
  assert (Hu : Zpos m / 2 ^ n < 2 ^ (digits m - n)).
  { apply Z.div_lt_upper_bound; [lia|].
    rewrite <- Z.pow_add_r by lia.
    replace (n + (digits m - n)) with (digits m) by lia. exact Bu. }
  assert (H0 : 0 < 2 ^ (digits m - n - 1)) by (apply Z.pow_pos_nonneg; lia).
  destruct (Zpos m / 2 ^ n) as [|m'|m'] eqn:E; try lia.
  exists m'. split; [reflexivity|]. apply digits_unique. split; assumption.
Qed.

(** The first step of rounding: the mantissa is cut down to the exponent
    of its binade, which keeps the binade. *)
Lemma shr_fexp_mag (m : positive) (e : Z) (l : location) :
  -1074 < mag m e ->
  exists r e' m',
    shr_fexp prec emax (Zpos m) e l = (r, e') /\
    shr_m r = Zpos m' /\
    mag m' e' = mag m e /\
    ((fexp prec emax (mag m e) <= e /\ e' = e /\ m' = m) \/
     (e < fexp prec emax (mag m e) /\ e' = fexp prec emax (mag m e) /\
      Zpos m' = Zpos m / 2 ^ (fexp prec emax (mag m e) - e))).
Proof.
  intros Hg. unfold shr_fexp, shr.
  change (Zdigits2 (Zpos m) + e) with (mag m e).
  destruct (fexp prec emax (mag m e) - e) as [|n|n] eqn:En.
  - exists (shr_record_of_loc (Zpos m) l), e, m.
    rewrite shr_m_of_loc. repeat split. left. lia.
  - destruct (div_pow2_digits m (Zpos n)) as (m' & Hm' & Hd).
    { rewrite fexp_eq in En. unfold mag in *. lia. }
    exists (SpecFloat.iter_pos shr_1 n (shr_record_of_loc (Zpos m) l)), (e + Zpos n), m'.
    rewrite shr_iter_m by (rewrite shr_m_of_loc; lia).
    rewrite shr_m_of_loc. repeat split.
    + exact Hm'.
    + unfold mag in *. lia.
    + right. split; [lia|]. split; [lia|]. now symmetry.
  - exists (shr_record_of_loc (Zpos m) l), e, m.
    rewrite shr_m_of_loc. repeat split. left. lia.
Qed.

Lemma round_nearest_even_cases (m : Z) (l : location) :
  round_nearest_even m l = m \/ round_nearest_even m l = m + 1.
Proof. destruct l as [|[]]; cbn; auto. destruct (Z.even m); auto. Qed.

Lemma digits_succ (m : positive) :
  digits (m + 1) = digits m \/
  (digits (m + 1) = digits m + 1 /\ Zpos (m + 1) = 2 ^ digits m).
Proof.
  pose proof (digits_bounds m) as [Bl Bu]. pose proof (digits_pos m).
  destruct (Z.eq_dec (Zpos m + 1) (2 ^ digits m)) as [E|NE].
  - right. split; [|lia]. apply digits_unique.
    replace (digits m + 1 - 1) with (digits m) by lia.
    rewrite Z.pow_add_r by lia. lia.
  - left. apply digits_unique. lia.
Qed.

(** Rounding to nearest keeps a positive number in the closure of its
    binade: the result is in the same binade, or it is the power of two
    that ends it. *)
Lemma binary_round_aux_mag (m : positive) (e : Z) (l : location) :
  -1074 < mag m e -> mag m e <= 971 ->
  exists m2 e2,
    binary_round_aux prec emax false (Zpos m) e l = S754_finite false m2 e2 /\
    (mag m2 e2 = mag m e \/
     (mag m2 e2 = mag m e + 1 /\ Zpos m2 = 2 ^ (digits m2 - 1))).
Proof.
  intros Hlo Hhi. unfold binary_round_aux.
  destruct (shr_fexp_mag m e l Hlo) as (r & e' & m' & -> & Hr & Hg' & Hsh).
  rewrite Hr.
  assert (He' : fexp prec emax (mag m e) <= e') by (destruct Hsh; lia).
  set (m1 := round_nearest_even (Zpos m') (loc_of_shr_record r)).
  assert (Hm1 : exists p, m1 = Zpos p /\ (p = m' \/ p = (m' + 1)%positive)).
  { destruct (round_nearest_even_cases (Zpos m') (loc_of_shr_record r)) as [E|E];
      fold m1 in E; rewrite E.
    - exists m'. auto.
    - exists (m' + 1)%positive. split; [lia|auto]. }
  destruct Hm1 as (p & -> & Hp).
  pose proof (digits_pos m') as Hd'.
  assert (Hcase : mag p e' = mag m e \/
                  (mag p e' = mag m e + 1 /\ Zpos p = 2 ^ (digits p - 1))).
  { destruct Hp as [->| ->]; [now left|].
    destruct (digits_succ m') as [E|[E1 E2]]; unfold mag in *.
    - left. lia.
    - right. split; [lia|]. rewrite E2. f_equal. lia. }
  clear Hp.
  assert (Hlo' : -1074 < mag p e') by lia.
  destruct (shr_fexp_mag p e' loc_Exact Hlo') as (r2 & e2 & m2 & -> & Hr2 & Hg2 & Hsh2).
  rewrite Hr2.
  pose proof (digits_pos m2) as Hd2.
  assert (Hfin : (e2 <=? emax - prec) = true).
  { apply Z.leb_le. change (emax - prec) with 971. unfold mag in *. lia. }
  rewrite Hfin. exists m2, e2. split; [reflexivity|].
  destruct Hcase as [E|[E Hpow]].
  - left. lia.
  - right. split; [lia|].
    destruct Hsh2 as [(_ & _ & ->)|(Hlt & He2 & Hm2)]; [exact Hpow|].
    (* one more bit is cut off a power of two *)
    assert (Hone : fexp prec emax (mag p e') - e' = 1).
    { rewrite E in *. rewrite fexp_eq in *. lia. }
    rewrite Hone in Hm2. rewrite Hpow in Hm2.
    assert (Hdp : 2 <= digits p).
    { unfold mag in Hg2. lia. }
    replace (digits p - 1) with (digits p - 2 + 1) in Hm2 by lia.
    rewrite Z.pow_add_r, Z.pow_1_r, Z.div_mul in Hm2 by lia.
    rewrite Hm2. f_equal. unfold mag in *. lia.
Qed.

Lemma digits_le (m : positive) (k : Z) : Zpos m < 2 ^ k -> digits m <= k.
Proof.
  intros H. pose proof (digits_bounds m) as [Bl _]. pose proof (digits_pos m).
  destruct (Z.ltb_spec k 0).
  - rewrite Z.pow_neg_r in H by assumption. lia.
  - assert (digits m - 1 < k); [|lia].
    apply (Z.pow_lt_mono_r_iff 2); lia.
Qed.

Lemma digits_gt (m : positive) (k : Z) : 2 ^ k <= Zpos m -> k < digits m.
Proof.
  intros H. pose proof (digits_bounds m) as [_ Bu]. pose proof (digits_pos m).
  apply (Z.pow_lt_mono_r_iff 2); lia.
Qed.

Lemma digits_mul (mx my : positive) :
  digits mx + digits my - 1 <= digits (mx * my) <= digits mx + digits my.
Proof.
  pose proof (digits_bounds mx) as [Lx Ux]. pose proof (digits_bounds my) as [Ly Uy].
  pose proof (digits_pos mx). pose proof (digits_pos my).
  assert (0 < 2 ^ (digits mx - 1)) by (apply Z.pow_pos_nonneg; lia).
  assert (0 < 2 ^ (digits my - 1)) by (apply Z.pow_pos_nonneg; lia).
  split.
  - assert (digits mx + digits my - 2 < digits (mx * my)); [|lia].
    apply digits_gt. rewrite Pos2Z.inj_mul.
    replace (digits mx + digits my - 2) with ((digits mx - 1) + (digits my - 1)) by lia.
    rewrite Z.pow_add_r by lia. nia.
  - apply digits_le. rewrite Pos2Z.inj_mul, Z.pow_add_r by lia. nia.
Qed.

Lemma iter_xO_pow2 (m d : positive) : Zpos (Pos.iter xO m d) = Zpos m * 2 ^ Zpos d.
Proof.
  induction d as [|d IH] using Pos.peano_ind.
  - cbn. lia.
  - rewrite Pos.iter_succ, Pos2Z.inj_xO, IH, Pos2Z.inj_succ, Z.pow_succ_r by lia.
    ring.
Qed.

Lemma digits_shl (m : positive) (k : Z) (m' : positive) :
  0 <= k -> Zpos m' = Zpos m * 2 ^ k -> digits m' = digits m + k.
Proof.
  intros Hk E. pose proof (digits_bounds m) as [Bl Bu]. pose proof (digits_pos m).
  assert (0 < 2 ^ k) by (apply Z.pow_pos_nonneg; lia).
  apply digits_unique. rewrite E.
  replace (digits m + k - 1) with (digits m - 1 + k) by lia.
  rewrite !Z.pow_add_r by lia. nia.
Qed.

(** [shl_align] changes the representation, not the number. *)
Lemma shl_align_value (m : positive) (e e' : Z) :
  exists m1 e1,
    shl_align m e e' = (m1, e1) /\ e1 <= e /\
    Zpos m1 = Zpos m * 2 ^ (e - e1) /\
    (e' <= e -> e1 = e').
Proof.
  unfold shl_align. destruct (e' - e) as [|d|d] eqn:E.
  - exists m, e. rewrite Z.sub_diag. repeat split; lia.
  - exists m, e. rewrite Z.sub_diag. repeat split; lia.
  - exists (Pos.iter xO m d), e'. rewrite iter_xO_pow2.
    repeat split; try lia. f_equal. f_equal. lia.
Qed.

Lemma shl_align_mag (m : positive) (e e' : Z) :
  mag (fst (shl_align m e e')) (snd (shl_align m e e')) = mag m e.
Proof.
  destruct (shl_align_value m e e') as (m1 & e1 & -> & Hle & Hv & _). cbn [fst snd].
  pose proof (digits_shl m (e - e1) m1 ltac:(lia) Hv). unfold mag. lia.
Qed.

(** A positive number that is rounded from an exact mantissa. *)
Lemma binary_round_mag (m : positive) (e : Z) :
  -1074 < mag m e -> mag m e <= 971 ->
  exists m2 e2,
    binary_round prec emax false m e = S754_finite false m2 e2 /\
    (mag m2 e2 = mag m e \/
     (mag m2 e2 = mag m e + 1 /\ Zpos m2 = 2 ^ (digits m2 - 1))).
Proof.
  intros Hlo Hhi. unfold binary_round.
  pose proof (shl_align_mag m e (fexp prec emax (Zpos (digits2_pos m) + e))) as Hm.
  destruct (shl_align m e (fexp prec emax (Zpos (digits2_pos m) + e))) as [mz ez].
  cbn [fst snd] in Hm. rewrite <- Hm in *. now apply binary_round_aux_mag.
Qed.

(** *** Multiplication *)

Lemma SFmul_finite (mx : positive) (ex : Z) (my : positive) (ey : Z) :
  -1074 < mag mx ex + mag my ey - 1 -> mag mx ex + mag my ey <= 971 ->
  exists m e,
    SF64mul (S754_finite false mx ex) (S754_finite false my ey)
    = S754_finite false m e /\
    mag mx ex + mag my ey - 1 <= mag m e <= mag mx ex + mag my ey + 1.
Proof.
  intros Hlo Hhi. unfold SF64mul, SFmul. cbn [xorb].
  pose proof (digits_mul mx my) as Hd.
  assert (Hg : mag mx ex + mag my ey - 1 <= mag (mx * my) (ex + ey)
               <= mag mx ex + mag my ey) by (unfold mag in *; lia).
  destruct (binary_round_aux_mag (mx * my) (ex + ey) loc_Exact) as (m & e & -> & Hc);
    [lia|lia|].
  exists m, e. split; [reflexivity|]. lia.
Qed.

(** *** Addition of two positive numbers *)

Lemma SFadd_finite (mx : positive) (ex : Z) (my : positive) (ey : Z) :
  -1074 < Z.max (mag mx ex) (mag my ey) ->
  Z.max (mag mx ex) (mag my ey) + 1 <= 971 ->
  exists m e,
    SF64add (S754_finite false mx ex) (S754_finite false my ey)
    = S754_finite false m e /\
    Z.max (mag mx ex) (mag my ey) <= mag m e
    <= Z.max (mag mx ex) (mag my ey) + 2.
Proof.
  intros Hlo Hhi. unfold SF64add, SFadd. cbn [cond_Zopp].
  set (ez := Z.min ex ey).
  destruct (shl_align_value mx ex ez) as (ax & e1 & -> & _ & Hax & He1).
  destruct (shl_align_value my ey ez) as (ay & e2 & -> & _ & Hay & He2).
  assert (E1 : e1 = ez) by (apply He1; lia).
  assert (E2 : e2 = ez) by (apply He2; lia).
  rewrite E1 in Hax. rewrite E2 in Hay. clear He1 He2 E1 E2.
  cbn [fst]. change (Zpos ax + Zpos ay) with (Zpos (ax + ay)).
  cbn [binary_normalize].
  pose proof (digits_shl mx (ex - ez) ax ltac:(lia) Hax) as Dax.
  pose proof (digits_shl my (ey - ez) ay ltac:(lia) Hay) as Day.
  pose proof (digits_bounds ax) as [Lax Uax].
  pose proof (digits_bounds ay) as [Lay Uay].
  pose proof (digits_pos ax). pose proof (digits_pos ay).
  assert (Hge1 : digits ax <= digits (ax + ay)).
  { assert (digits ax - 1 < digits (ax + ay)); [|lia]. apply digits_gt. lia. }
  assert (Hge2 : digits ay <= digits (ax + ay)).
  { assert (digits ay - 1 < digits (ax + ay)); [|lia]. apply digits_gt. lia. }
  assert (Hle : digits (ax + ay) <= Z.max (digits ax) (digits ay) + 1).
  { apply digits_le. rewrite Z.pow_add_r by lia.
    assert (2 ^ digits ax <= 2 ^ Z.max (digits ax) (digits ay))
      by (apply Z.pow_le_mono_r; lia).
    assert (2 ^ digits ay <= 2 ^ Z.max (digits ax) (digits ay))
      by (apply Z.pow_le_mono_r; lia).
    lia. }
  assert (Hg : Z.max (mag mx ex) (mag my ey) <= mag (ax + ay) ez
               <= Z.max (mag mx ex) (mag my ey) + 1) by (unfold mag in *; lia).
  destruct (binary_round_mag (ax + ay) ez) as (m & e & -> & Hc); [lia|lia|].
  exists m, e. split; [reflexivity|]. lia.
Qed.

(** *** Division of two positive numbers *)

Lemma SFdiv_core_spec (mx : positive) (ex : Z) (my : positive) (ey : Z) :
  -1074 < mag mx ex - mag my ey ->
  exists q e' l,
    SFdiv_core_binary prec emax (Zpos mx) ex (Zpos my) ey = (Zpos q, e', l) /\
    e' = Z.min (fexp prec emax (mag mx ex - mag my ey)) (ex - ey) /\
    Zpos q = (Zpos mx * 2 ^ (ex - ey - e')) / Zpos my /\
    ((Zpos mx * 2 ^ (ex - ey - e')) mod Zpos my = 0 -> l = loc_Exact) /\
    mag mx ex - mag my ey <= mag q e' <= mag mx ex - mag my ey + 1.
Proof.
  intros Hlo. unfold SFdiv_core_binary.
  change (Zdigits2 (Zpos mx) + ex - (Zdigits2 (Zpos my) + ey))
    with (mag mx ex - mag my ey).
  set (e' := Z.min (fexp prec emax (mag mx ex - mag my ey)) (ex - ey)).
  set (sh := ex - ey - e').
  assert (Hsh : 0 <= sh) by (unfold sh, e'; lia).
  set (m' := match sh with
             | 0 => Zpos mx
             | Zpos _ => Z.shiftl (Zpos mx) sh
             | Zneg _ => 0
             end).
  assert (Hm' : m' = Zpos mx * 2 ^ sh).
  { unfold m'. destruct sh as [|p|p] eqn:E; try lia.
    now rewrite Z.shiftl_mul_pow2 by lia. }
  clearbody m'.
  pose proof (Z.div_eucl_eq m' (Zpos my) ltac:(lia)) as Heq.
  pose proof (Z.mod_pos_bound m' (Zpos my) ltac:(lia)) as Hmod.
  unfold Z.modulo in Hmod.
  assert (Hq : fst (Z.div_eucl m' (Zpos my)) = m' / Zpos my) by reflexivity.
  assert (Hr : snd (Z.div_eucl m' (Zpos my)) = m' mod Zpos my) by reflexivity.
  destruct (Z.div_eucl m' (Zpos my)) as [q r]. cbn [fst snd] in *.
  (* the size of the quotient *)
  pose proof (digits_bounds mx) as [Lx Ux]. pose proof (digits_bounds my) as [Ly Uy].
  pose proof (digits_pos mx). pose proof (digits_pos my).
  set (D := digits mx + sh - digits my).
  assert (HD : 1 <= D).
  { unfold D, sh, e'. rewrite fexp_eq. unfold mag in *. lia. }
  assert (Hp1 : 0 < 2 ^ sh) by (apply Z.pow_pos_nonneg; lia).
  assert (Hp2 : 0 < 2 ^ (D - 1)) by (apply Z.pow_pos_nonneg; lia).
  assert (Hp3 : 0 < 2 ^ (digits my - 1)) by (apply Z.pow_pos_nonneg; lia).
  assert (Hlow : 2 ^ (D - 1) <= q).
  { rewrite Hq. apply Z.div_le_lower_bound; [lia|].
    assert (2 ^ (D - 1) * 2 ^ digits my = 2 ^ (digits mx - 1) * 2 ^ sh).
    { rewrite <- !Z.pow_add_r by lia. f_equal. unfold D. lia. }
    rewrite Hm'. nia. }
  assert (Hupp : q < 2 ^ (D + 1)).
  { rewrite Hq. apply Z.div_lt_upper_bound; [lia|].
    assert (2 ^ (D + 1) * 2 ^ (digits my - 1) = 2 ^ digits mx * 2 ^ sh).
    { rewrite <- !Z.pow_add_r by lia. f_equal. unfold D. lia. }
    rewrite Hm'. nia. }
  destruct q as [|q|q]; try lia.
  exists q, e', (new_location (Zpos my) r).
  split; [reflexivity|]. split; [reflexivity|]. split; [|split].
  - fold sh. rewrite <- Hm'. exact Hq.
  - fold sh. rewrite <- Hm', <- Hr. intros ->.
    unfold new_location, new_location_even, new_location_odd.
    destruct (Z.even (Zpos my)); reflexivity.
  - pose proof (digits_gt q (D - 1) Hlow).
    pose proof (digits_le q (D + 1) Hupp).
    unfold mag, D, sh in *. lia.
Qed.

Lemma SFdiv_finite (mx : positive) (ex : Z) (my : positive) (ey : Z) :
  -1074 < mag mx ex - mag my ey -> mag mx ex - mag my ey + 1 <= 971 ->
  exists m e,
    SF64div (S754_finite false mx ex) (S754_finite false my ey)
    = S754_finite false m e /\
    mag mx ex - mag my ey <= mag m e <= mag mx ex - mag my ey + 2.
Proof.
  intros Hlo Hhi. unfold SF64div, SFdiv. cbn [xorb].
  destruct (SFdiv_core_spec mx ex my ey Hlo) as (q & e' & l & -> & _ & _ & _ & Hg).
  destruct (binary_round_aux_mag q e' l) as (m & e & -> & Hc); [lia|lia|].
  exists m, e. split; [reflexivity|]. lia.
Qed.

(** *** Valid numbers and their order *)

Lemma valid_finite (s : bool) (m : positive) (e : Z) :
  valid_binary (S754_finite s m e) = true ->
  fexp prec emax (mag m e) = e /\ e <= 971.
Proof.
  cbn [SpecFloat.valid_binary]. unfold bounded, canonical_mantissa.
  intros H. apply andb_true_iff in H as [H1 H2].
  apply Z.eqb_eq in H1. apply Z.leb_le in H2. split; assumption.
Qed.

Lemma SFltb_finite (mx : positive) (ex : Z) (my : positive) (ey : Z) :
  SFltb (S754_finite false mx ex) (S754_finite false my ey) = true ->
  ex < ey \/ (ex = ey /\ Zpos mx < Zpos my).
Proof.
  unfold SFltb, SFcompare.
  destruct (Z.compare_spec ex ey) as [E|E|E]; try discriminate; [|auto].
  change (Pos.compare_cont Eq mx my) with (Pos.compare mx my).
  destruct (Pos.compare_spec mx my); try discriminate. right. split; [assumption|lia].
Qed.

Lemma SFcompare_finite_cases (mx : positive) (ex : Z) (my : positive) (ey : Z) :
  SFltb (S754_finite false mx ex) (S754_finite false my ey) = false ->
  (ex = ey /\ mx = my) \/
  SFltb (S754_finite false my ey) (S754_finite false mx ex) = true.
Proof.
  unfold SFltb, SFcompare.
  rewrite (Z.compare_antisym ex ey).
  destruct (Z.compare_spec ex ey) as [E|E|E]; cbn; try discriminate; auto.
  change (Pos.compare_cont Eq mx my) with (Pos.compare mx my).
  change (Pos.compare_cont Eq my mx) with (Pos.compare my mx).
  rewrite (Pos.compare_antisym mx my).
  destruct (Pos.compare_spec mx my); cbn; try discriminate; auto.
Qed.

(** The quotient of a number by a greater one is at most one. *)
Lemma SFdiv_lt (mx : positive) (ex : Z) (my : positive) (ey : Z) :
  valid_binary (S754_finite false mx ex) = true ->
  valid_binary (S754_finite false my ey) = true ->
  ex < ey \/ (ex = ey /\ Zpos mx < Zpos my) ->
  -1074 < mag mx ex - mag my ey ->
  exists m e,
    SF64div (S754_finite false mx ex) (S754_finite false my ey)
    = S754_finite false m e /\
    (mag m e <= 0 \/ (mag m e = 1 /\ Zpos m = 2 ^ (digits m - 1))).
Proof.
  intros Vx Vy Hlt Hlo.
  apply valid_finite in Vx as [Cx _]. apply valid_finite in Vy as [Cy _].
  rewrite fexp_eq in Cx, Cy.
  unfold SF64div, SFdiv. cbn [xorb].
  destruct (SFdiv_core_spec mx ex my ey Hlo) as (q & e' & l & -> & He' & Hq & _ & Hg).
  pose proof (digits_bounds mx) as [Lx Ux]. pose proof (digits_bounds my) as [Ly Uy].
  pose proof (digits_pos mx). pose proof (digits_pos my).
  assert (Hlt' : Zpos mx < Zpos my * 2 ^ (ey - ex)).
  { destruct Hlt as [Hlt|[-> Hlt]].
    - assert (digits my = 53) by (unfold mag in *; lia).
      assert (digits mx <= 53) by (unfold mag in *; lia).
      assert (2 ^ digits mx <= 2 ^ 53) by (apply Z.pow_le_mono_r; lia).
      assert (2 ^ 1 <= 2 ^ (ey - ex)) by (apply Z.pow_le_mono_r; lia).
      replace (digits my - 1) with 52 in Ly by lia.
      change (2 ^ 53) with (2 ^ 52 * 2 ^ 1) in *. nia.
    - rewrite Z.sub_diag. cbn. lia. }
  assert (Hsh : 0 <= ex - ey - e') by lia.
  assert (Hne : 0 <= - e').
  { rewrite He', fexp_eq. unfold mag in *. lia. }
  assert (Hq' : Zpos q < 2 ^ (- e')).
  { rewrite Hq. apply Z.div_lt_upper_bound; [lia|].
    replace (- e') with ((ey - ex) + (ex - ey - e')) by lia.
    rewrite Z.pow_add_r by lia.
    assert (0 < 2 ^ (ex - ey - e')) by (apply Z.pow_pos_nonneg; lia).
    nia. }
  apply digits_le in Hq'.
  destruct (binary_round_aux_mag q e' l) as (m & e & -> & Hc);
    [unfold mag in *; lia|unfold mag in *; lia|].
  exists m, e. split; [reflexivity|]. unfold mag in *.
  destruct Hc as [Hc|[Hc Hp]]; [left; lia|].
  destruct (Z.eq_dec (digits m + e) 1); [right; auto|left; lia].
Qed.

(** The quotient of a number by itself is one. *)
Lemma SFdiv_self (m : positive) (e : Z) :
  SF64div (S754_finite false m e) (S754_finite false m e) = Prim2SF 1.
Proof.
  unfold SF64div, SFdiv. cbn [xorb].
  destruct (SFdiv_core_spec m e m e) as (q & e' & l & -> & He' & Hq & Hl & _);
    [lia|].
  rewrite !Z.sub_diag in *.
  change (Z.min (fexp prec emax 0) 0) with (-53) in He'. subst e'.
  change (0 - -53) with 53 in *.
  rewrite Z.mul_comm, Z.mod_mul in Hl by lia.
  rewrite Z.mul_comm, Z.div_mul in Hq by lia.
  rewrite (Hl eq_refl).
  assert (q = 9007199254740992%positive) by (change (2 ^ 53) with 9007199254740992 in Hq; lia).
  subst q. reflexivity.
Qed.

(** *** One minus a number below one *)

Lemma SFsub_one_finite (m : positive) (e : Z) :
  valid_binary (S754_finite false m e) = true ->
  mag m e <= 0 ->
  exists m' e',
    SF64sub (Prim2SF 1) (S754_finite false m e) = S754_finite false m' e' /\
    -52 <= mag m' e' <= 1.
Proof.
  intros V Hg. apply valid_finite in V as [C _]. rewrite fexp_eq in C.
  change (Prim2SF 1) with (S754_finite false 4503599627370496 (-52)).
  unfold SF64sub, SFsub. cbn [cond_Zopp].
  assert (He : e <= -53) by lia.
  replace (Z.min (-52) e) with e by lia.
  destruct (shl_align_value 4503599627370496 (-52) e) as (a & e1 & -> & _ & Ha & He1).
  destruct (shl_align_value m e e) as (b & e2 & -> & Hle2 & Hb & He2).
  rewrite (He1 ltac:(lia)) in Ha. rewrite (He2 ltac:(lia)), Z.sub_diag in Hb.
  cbn [fst]. clear He1 He2.
  assert (Hbm : Zpos b = Zpos m) by lia. clear Hb.
  change (Zpos 4503599627370496) with (2 ^ 52) in Ha.
  rewrite <- Z.pow_add_r in Ha by lia.
  replace (52 + (-52 - e)) with (- e) in Ha by lia.
  pose proof (digits_bounds m) as [Lm Um]. pose proof (digits_pos m).
  assert (Hm1 : 2 ^ digits m <= 2 ^ (- e)) by (apply Z.pow_le_mono_r; unfold mag in *; lia).
  destruct (Zpos a - Zpos b) as [|d|d] eqn:Ed; try lia.
  cbn [binary_normalize].
  assert (Hu : digits d <= - e) by (apply digits_le; lia).
  assert (Hl : -52 - e <= digits d).
  { destruct (Z.eq_dec (mag m e) 0) as [E0|N0].
    - pose proof (digits_pos d). lia.
    - assert (- e - 1 < digits d); [|lia].
      apply digits_gt.
      assert (2 ^ digits m <= 2 ^ (- e - 1)) by (apply Z.pow_le_mono_r; unfold mag in *; lia).
      replace (- e) with (- e - 1 + 1) in Ha by lia.
      rewrite Z.pow_add_r in Ha by lia. lia. }
  destruct (binary_round_mag d e) as (m' & e' & -> & Hc);
    [unfold mag; lia|unfold mag; lia|].
  exists m', e'. split; [reflexivity|]. unfold mag in *. lia.
Qed.

(** *** The bits that a right shift drops *)

Lemma iter_pos_comm {A : Type} (f : A -> A) (p : positive) :
  forall x, SpecFloat.iter_pos f p (f x) = f (SpecFloat.iter_pos f p x).
Proof.
  induction p as [p IH|p IH|]; intros x; cbn [SpecFloat.iter_pos].
  - now rewrite !IH.
  - now rewrite !IH.
  - reflexivity.
Qed.

Lemma iter_pos_succ {A : Type} (f : A -> A) (p : positive) :
  forall x, SpecFloat.iter_pos f (Pos.succ p) x = f (SpecFloat.iter_pos f p x).
Proof.
  induction p as [p IH|p IH|]; intros x.
  - change (Pos.succ (xI p)) with (xO (Pos.succ p)). cbn [SpecFloat.iter_pos].
    now rewrite !IH, !iter_pos_comm.
  - change (Pos.succ (xO p)) with (xI p). cbn [SpecFloat.iter_pos].
    now rewrite !iter_pos_comm.
  - reflexivity.
Qed.

(** After [k] steps the round bit is bit [k - 1] of the mantissa and the
    sticky bit tells whether a lower bit is set. *)
Lemma shr_iter_bits (m : Z) (k : positive) :
  0 <= m ->
  SpecFloat.iter_pos shr_1 k (Build_shr_record m false false) =
  Build_shr_record (m / 2 ^ Zpos k) (Z.odd (m / 2 ^ (Zpos k - 1)))
                   (negb (m mod 2 ^ (Zpos k - 1) =? 0)).
Proof.
  intros Hm. induction k as [|k IH] using Pos.peano_ind.
  - cbn [SpecFloat.iter_pos shr_1]. change (2 ^ (1 - 1)) with 1.
    rewrite Z.div_1_r, Z.mod_1_r. change (2 ^ 1) with 2.
    destruct m as [|[p|p|]|p]; try lia; cbn [orb negb Z.eqb Z.odd]; f_equal.
    + change (Zpos p~1) with (2 * Zpos p + 1).
      rewrite Z.add_comm, Z.mul_comm, Z.div_add by lia. reflexivity.
    + change (Zpos p~0) with (2 * Zpos p).
      rewrite Z.mul_comm, Z.div_mul by lia. reflexivity.
  - rewrite iter_pos_succ, IH. clear IH.
    rewrite Pos2Z.inj_succ. replace (Z.succ (Zpos k) - 1) with (Zpos k) by lia.
    set (q := m / 2 ^ Zpos k).
    assert (Hq : 0 <= q) by (apply Z.div_pos; lia).
    assert (Hp : 0 < 2 ^ (Zpos k - 1)) by (apply Z.pow_pos_nonneg; lia).
    assert (Hdiv : m / 2 ^ Zpos k = m / 2 ^ (Zpos k - 1) / 2).
    { rewrite Z.div_div by lia. f_equal.
      replace (Zpos k) with (Zpos k - 1 + 1) at 1 by lia.
      now rewrite Z.pow_add_r by lia. }
    assert (Hmod : m mod 2 ^ Zpos k =
                   m mod 2 ^ (Zpos k - 1)
                   + 2 ^ (Zpos k - 1) * ((m / 2 ^ (Zpos k - 1)) mod 2)).
    { replace (Zpos k) with (Zpos k - 1 + 1) at 1 by lia.
      rewrite Z.pow_add_r by lia. change (2 ^ 1) with 2.
      apply Z.rem_mul_r; lia. }
    pose proof (Z.mod_pos_bound m (2 ^ (Zpos k - 1)) Hp) as Hb.
    assert (Hstep : shr_1 (Build_shr_record q (Z.odd (m / 2 ^ (Zpos k - 1)))
                             (negb (m mod 2 ^ (Zpos k - 1) =? 0)))
                    = Build_shr_record (q / 2) (Z.odd q)
                        (Z.odd (m / 2 ^ (Zpos k - 1))
                         || negb (m mod 2 ^ (Zpos k - 1) =? 0))).
    { destruct q as [|[p|p|]|p]; try lia; cbn [shr_1 Z.odd]; f_equal.
      - change (Zpos p~1) with (2 * Zpos p + 1).
        rewrite Z.add_comm, Z.mul_comm, Z.div_add by lia. reflexivity.
      - change (Zpos p~0) with (2 * Zpos p).
        rewrite Z.mul_comm, Z.div_mul by lia. reflexivity. }
    rewrite Hstep. f_equal.
    + unfold q. rewrite Z.div_div by lia. f_equal.
      rewrite Z.pow_succ_r by lia. ring.
    + rewrite Hmod.
      rewrite (Zmod_odd (m / 2 ^ (Zpos k - 1))).
      destruct (Z.odd (m / 2 ^ (Zpos k - 1))); cbn [orb].
      * symmetry. apply negb_true_iff, Z.eqb_neq. lia.
      * now rewrite Z.mul_0_r, Z.add_0_r.
Qed.

(** Round to nearest, ties to even, of [m / 2^n]. *)
Definition rne_shift (m n : Z) : Z :=
  let q := m / 2 ^ n in
  let r := m mod 2 ^ n in
  let h := 2 ^ (n - 1) in
  if r <? h then q
  else if h <? r then q + 1
  else if Z.even q then q else q + 1.

Lemma rne_shr (m : Z) (k : positive) :
  0 <= m ->
  let r := SpecFloat.iter_pos shr_1 k (Build_shr_record m false false) in
  round_nearest_even (shr_m r) (loc_of_shr_record r) = rne_shift m (Zpos k).
Proof.
  intros Hm. cbv zeta. rewrite (shr_iter_bits m k Hm).
  cbn [shr_m]. unfold rne_shift.
  assert (Hp : 0 < 2 ^ (Zpos k - 1)) by (apply Z.pow_pos_nonneg; lia).
  assert (Hmod : m mod 2 ^ Zpos k =
                 m mod 2 ^ (Zpos k - 1)
                 + 2 ^ (Zpos k - 1) * ((m / 2 ^ (Zpos k - 1)) mod 2)).
  { replace (Zpos k) with (Zpos k - 1 + 1) at 1 by lia.
    rewrite Z.pow_add_r by lia. change (2 ^ 1) with 2.
    apply Z.rem_mul_r; lia. }
  pose proof (Z.mod_pos_bound m (2 ^ (Zpos k - 1)) Hp) as Hb.
  rewrite Hmod, (Zmod_odd (m / 2 ^ (Zpos k - 1))).
  destruct (Z.odd (m / 2 ^ (Zpos k - 1))).
  - destruct (Z.eqb_spec (m mod 2 ^ (Zpos k - 1)) 0) as [E|NE]; cbn [negb loc_of_shr_record round_nearest_even].
    + rewrite E. destruct (Z.ltb_spec (0 + 2 ^ (Zpos k - 1) * 1) (2 ^ (Zpos k - 1))); [lia|].
      destruct (Z.ltb_spec (2 ^ (Zpos k - 1)) (0 + 2 ^ (Zpos k - 1) * 1)); [lia|].
      reflexivity.
    + destruct (Z.ltb_spec (m mod 2 ^ (Zpos k - 1) + 2 ^ (Zpos k - 1) * 1) (2 ^ (Zpos k - 1))); [lia|].
      destruct (Z.ltb_spec (2 ^ (Zpos k - 1)) (m mod 2 ^ (Zpos k - 1) + 2 ^ (Zpos k - 1) * 1)); [|lia].
      reflexivity.
  - rewrite Z.mul_0_r, Z.add_0_r.
    destruct (Z.ltb_spec (m mod 2 ^ (Zpos k - 1)) (2 ^ (Zpos k - 1))); [|lia].
    destruct (negb (m mod 2 ^ (Zpos k - 1) =? 0)); reflexivity.
Qed.

(** *** The value a rounding returns

    Values are counted in units of [2^-scale], below every exponent that
    occurs, so that exact sums and products are integers. *)

Definition scale : Z := 2200.

Definition val (m : positive) (e : Z) : Z := Zpos m * 2 ^ (e + scale).

(** [X] rounded to a multiple of [2^n]. *)
Definition rne_at (X n : Z) : Z := rne_shift X n * 2 ^ n.

(** The rounding of binary64 on a positive value [X]. *)
Definition RND (X : Z) : Z := rne_at X (fexp prec emax (Zdigits2 X - scale) + scale).

Lemma val_pos (m : positive) (e : Z) : - scale <= e -> 0 < val m e.
Proof.
  intros He. unfold val.
  assert (0 < 2 ^ (e + scale)) by (apply Z.pow_pos_nonneg; lia). lia.
Qed.

Lemma val_digits (m : positive) (e : Z) :
  - scale <= e -> Zdigits2 (val m e) = mag m e + scale.
Proof.
  intros He. pose proof (val_pos m e He) as Hp. unfold val in *.
  destruct (Zpos m * 2 ^ (e + scale)) as [|v|v] eqn:E; try lia.
  change (Zdigits2 (Zpos v)) with (digits v).
  rewrite (digits_shl m (e + scale) v) by (lia || (now symmetry)).
  unfold mag. lia.
Qed.

Lemma rne_shift_exact (X n : Z) :
  1 <= n -> X mod 2 ^ n = 0 -> rne_shift X n = X / 2 ^ n.
Proof.
  intros Hn Hm. unfold rne_shift. rewrite Hm.
  assert (0 < 2 ^ (n - 1)) by (apply Z.pow_pos_nonneg; lia).
  destruct (Z.ltb_spec 0 (2 ^ (n - 1))); [reflexivity|lia].
Qed.

Lemma rne_at_multiple (X n : Z) :
  1 <= n -> X mod 2 ^ n = 0 -> rne_at X n = X.
Proof.
  intros Hn Hm. unfold rne_at. rewrite rne_shift_exact by assumption.
  assert (0 < 2 ^ n) by (apply Z.pow_pos_nonneg; lia).
  pose proof (Z.div_mod X (2 ^ n) ltac:(lia)). lia.
Qed.

Lemma rne_shift_scale (m k j : Z) :
  1 <= k -> 0 <= j -> rne_shift (m * 2 ^ j) (k + j) = rne_shift m k.
Proof.
  intros Hk Hj. unfold rne_shift.
  assert (Hpj : 0 < 2 ^ j) by (apply Z.pow_pos_nonneg; lia).
  assert (Hpk : 0 < 2 ^ k) by (apply Z.pow_pos_nonneg; lia).
  assert (Hph : 0 < 2 ^ (k - 1)) by (apply Z.pow_pos_nonneg; lia).
  replace (2 ^ (k + j)) with (2 ^ k * 2 ^ j) by (now rewrite Z.pow_add_r by lia).
  replace (2 ^ (k + j - 1)) with (2 ^ (k - 1) * 2 ^ j)
    by (rewrite <- Z.pow_add_r by lia; f_equal; lia).
  rewrite Z.div_mul_cancel_r by lia.
  rewrite Z.mul_mod_distr_r by lia.
  destruct (Z.ltb_spec (m mod 2 ^ k) (2 ^ (k - 1))),
           (Z.ltb_spec (m mod 2 ^ k * 2 ^ j) (2 ^ (k - 1) * 2 ^ j));
    try reflexivity; try nia.
  destruct (Z.ltb_spec (2 ^ (k - 1)) (m mod 2 ^ k)),
           (Z.ltb_spec (2 ^ (k - 1) * 2 ^ j) (m mod 2 ^ k * 2 ^ j));
    try reflexivity; nia.
Qed.

(** The end of a rounding: the rounded mantissa is brought back to the
    format, which keeps its value. *)
Lemma round_finish (p : positive) (e' g : Z) :
  -1074 < g -> g <= 971 -> fexp prec emax g <= e' ->
  (mag p e' = g \/ (mag p e' = g + 1 /\ Zpos p = 2 ^ (digits p - 1))) ->
  exists m2 e2,
    (let '(mrs'', e'') := shr_fexp prec emax (Zpos p) e' loc_Exact in
     match shr_m mrs'' with
     | Z0 => S754_zero false
     | Zpos m => if e'' <=? emax - prec then S754_finite false m e''
                 else S754_infinity false
     | Zneg _ => S754_nan
     end) = S754_finite false m2 e2 /\
    e' <= e2 /\ Zpos m2 * 2 ^ (e2 - e') = Zpos p /\ mag m2 e2 = mag p e'.
Proof.
  intros Hlo Hhi He' Hcase.
  assert (Hlo' : -1074 < mag p e') by lia.
  destruct (shr_fexp_mag p e' loc_Exact Hlo') as (r2 & e2 & m2 & -> & Hr2 & Hg2 & Hsh2).
  rewrite Hr2.
  pose proof (digits_pos m2) as Hd2. pose proof (digits_pos p) as Hdp.
  assert (Hfin : (e2 <=? emax - prec) = true).
  { apply Z.leb_le. change (emax - prec) with 971. unfold mag in *. lia. }
  rewrite Hfin. exists m2, e2. split; [reflexivity|].
  destruct Hsh2 as [(_ & -> & ->)|(Hlt & He2 & Hm2)].
  - rewrite Z.sub_diag. repeat split; lia.
  - destruct Hcase as [E|[E Hpow]]; [rewrite E in *; lia|].
    assert (Hone : fexp prec emax (mag p e') - e' = 1).
    { rewrite E in *. rewrite fexp_eq in *. lia. }
    rewrite Hone in Hm2. rewrite Hpow in Hm2.
    assert (Hdp2 : 2 <= digits p) by (unfold mag in *; lia).
    replace (digits p - 1) with (digits p - 2 + 1) in Hm2, Hpow by lia.
    rewrite Z.pow_add_r, Z.pow_1_r in Hm2, Hpow by lia.
    rewrite Z.div_mul in Hm2 by lia.
    replace (e2 - e') with 1 by lia. rewrite Z.pow_1_r.
    repeat split; lia.
Qed.

(** Rounding an exact mantissa returns the binary64 rounding of its
    value. *)
Lemma binary_round_aux_value (m : positive) (e : Z) :
  - scale <= e -> -1074 < mag m e -> mag m e <= 971 ->
  exists m2 e2,
    binary_round_aux prec emax false (Zpos m) e loc_Exact
    = S754_finite false m2 e2 /\
    - scale <= e2 /\ val m2 e2 = RND (val m e).
Proof.
  intros He Hlo Hhi.
  unfold RND. rewrite val_digits by assumption.
  replace (mag m e + scale - scale) with (mag m e) by lia.
  set (e' := fexp prec emax (mag m e)).
  assert (He' : -1074 <= e') by (unfold e'; rewrite fexp_eq; lia).
  unfold binary_round_aux, shr_fexp at 1, shr.
  change (Zdigits2 (Zpos m) + e) with (mag m e). fold e'.
  cbn [shr_record_of_loc].
  destruct (e' - e) as [|k|k] eqn:En.
  - (* the mantissa fits *)
    cbn [shr_m loc_of_shr_record round_nearest_even].
    destruct (round_finish m e (mag m e) Hlo Hhi ltac:(fold e'; lia) ltac:(auto))
      as (m2 & e2 & -> & Hle & Hv & _).
    exists m2, e2. split; [reflexivity|]. split; [lia|].
    rewrite rne_at_multiple.
    + unfold val. rewrite <- Hv, <- Z.mul_assoc, <- Z.pow_add_r by lia.
      f_equal. f_equal. lia.
    + unfold scale in *. lia.
    + unfold val. replace (e + scale) with ((e - e') + (e' + scale)) by lia.
      rewrite Z.pow_add_r, Z.mul_assoc by (unfold scale in *; lia).
      apply Z.mod_mul. assert (0 < 2 ^ (e' + scale)) by (apply Z.pow_pos_nonneg; unfold scale in *; lia). lia.
  - (* [k] bits are dropped *)
    pose proof (rne_shr (Zpos m) k ltac:(lia)) as Hr. cbv zeta in Hr.
    rewrite Hr. clear Hr.
    destruct (div_pow2_digits m (Zpos k)) as (m' & Hm' & Hd').
    { unfold e' in En. rewrite fexp_eq in En. unfold mag in *. lia. }
    assert (Hcases : rne_shift (Zpos m) (Zpos k) = Zpos m' \/
                     rne_shift (Zpos m) (Zpos k) = Zpos m' + 1).
    { unfold rne_shift. rewrite Hm'.
      destruct (_ <? _); auto. destruct (_ <? _); auto. destruct (Z.even _); auto. }
    assert (Hp : exists p, rne_shift (Zpos m) (Zpos k) = Zpos p /\
                           (p = m' \/ p = (m' + 1)%positive)).
    { destruct Hcases as [E|E]; rewrite E.
      - exists m'. auto.
      - exists (m' + 1)%positive. split; [lia|auto]. }
    destruct Hp as (p & Ep & Hp). rewrite Ep.
    assert (Hcase : mag p (e + Zpos k) = mag m e \/
                    (mag p (e + Zpos k) = mag m e + 1 /\ Zpos p = 2 ^ (digits p - 1))).
    { destruct Hp as [->| ->]; [left; unfold mag; lia|].
      destruct (digits_succ m') as [E|[E1 E2]]; unfold mag in *.
      - left. lia.
      - right. split; [lia|]. rewrite E2. f_equal. lia. }
    destruct (round_finish p (e + Zpos k) (mag m e) Hlo Hhi ltac:(fold e'; lia) Hcase)
      as (m2 & e2 & -> & Hle & Hv & _).
    exists m2, e2. split; [reflexivity|]. split; [lia|].
    unfold rne_at.
    replace (e' + scale) with (Zpos k + (e + scale)) by lia.
    unfold val at 2. rewrite rne_shift_scale by lia. rewrite Ep, <- Hv.
    unfold val. rewrite <- Z.mul_assoc, <- Z.pow_add_r by lia.
    f_equal. f_equal. lia.
  - (* the mantissa fits, with room *)
    cbn [shr_m loc_of_shr_record round_nearest_even].
    destruct (round_finish m e (mag m e) Hlo Hhi ltac:(fold e'; lia) ltac:(auto))
      as (m2 & e2 & -> & Hle & Hv & _).
    exists m2, e2. split; [reflexivity|]. split; [lia|].
    rewrite rne_at_multiple.
    + unfold val. rewrite <- Hv, <- Z.mul_assoc, <- Z.pow_add_r by lia.
      f_equal. f_equal. lia.
    + unfold scale in *. lia.
    + unfold val. replace (e + scale) with ((e - e') + (e' + scale)) by lia.
      rewrite Z.pow_add_r, Z.mul_assoc by (unfold scale in *; lia).
      apply Z.mod_mul. assert (0 < 2 ^ (e' + scale)) by (apply Z.pow_pos_nonneg; unfold scale in *; lia). lia.
Qed.

(** *** Rounding is monotone *)

Lemma rne_shift_mono (X1 X2 n : Z) :
  X1 <= X2 -> 1 <= n -> rne_shift X1 n <= rne_shift X2 n.
Proof.
  intros HX Hn. unfold rne_shift.
  assert (Hp : 0 < 2 ^ n) by (apply Z.pow_pos_nonneg; lia).
  assert (Hh : 2 * 2 ^ (n - 1) = 2 ^ n).
  { rewrite <- Z.pow_succ_r by lia. f_equal. lia. }
  pose proof (Z.div_mod X1 (2 ^ n) ltac:(lia)) as D1.
  pose proof (Z.div_mod X2 (2 ^ n) ltac:(lia)) as D2.
  pose proof (Z.mod_pos_bound X1 (2 ^ n) Hp) as B1.
  pose proof (Z.mod_pos_bound X2 (2 ^ n) Hp) as B2.
  pose proof (Z.div_le_mono X1 X2 (2 ^ n) Hp HX) as Hq.
  set (q1 := X1 / 2 ^ n) in *. set (q2 := X2 / 2 ^ n) in *.
  set (r1 := X1 mod 2 ^ n) in *. set (r2 := X2 mod 2 ^ n) in *.
  set (h := 2 ^ (n - 1)) in *.
  destruct (Z.eq_dec q1 q2) as [E|NE].
  - rewrite <- E in *. assert (r1 <= r2) by lia.
    destruct (Z.ltb_spec r1 h), (Z.ltb_spec r2 h); try lia;
      destruct (Z.ltb_spec h r1), (Z.ltb_spec h r2); try lia;
      destruct (Z.even q1); lia.
  - assert (q1 + 1 <= q2) by lia.
    destruct (r1 <? h); [|destruct (h <? r1); [|destruct (Z.even q1)]];
      (destruct (r2 <? h); [|destruct (h <? r2); [|destruct (Z.even q2)]]); lia.
Qed.

Lemma rne_at_mono (X1 X2 n : Z) :
  X1 <= X2 -> 1 <= n -> rne_at X1 n <= rne_at X2 n.
Proof.
  intros HX Hn. unfold rne_at.
  assert (0 < 2 ^ n) by (apply Z.pow_pos_nonneg; lia).
  pose proof (rne_shift_mono X1 X2 n HX Hn). nia.
Qed.

Lemma rne_at_pow2 (d n : Z) : 1 <= n <= d -> rne_at (2 ^ d) n = 2 ^ d.
Proof.
  intros H. apply rne_at_multiple; [lia|].
  replace d with ((d - n) + n) by lia. rewrite Z.pow_add_r by lia.
  apply Z.mod_mul. assert (0 < 2 ^ n) by (apply Z.pow_pos_nonneg; lia). lia.
Qed.

Lemma Zdigits2_bounds (X : Z) :
  0 < X -> 2 ^ (Zdigits2 X - 1) <= X < 2 ^ Zdigits2 X.
Proof.
  intros HX. destruct X as [|p|p]; try lia. apply (digits_bounds p).
Qed.

Lemma Zdigits2_mono (X1 X2 : Z) :
  0 < X1 -> X1 <= X2 -> Zdigits2 X1 <= Zdigits2 X2.
Proof.
  intros H1 H12. destruct X1 as [|p1|p1], X2 as [|p2|p2]; try lia.
  change (digits p1 <= digits p2). apply digits_le.
  pose proof (digits_bounds p2). lia.
Qed.

Theorem RND_mono (X1 X2 : Z) :
  0 < X1 -> X1 <= X2 -> -1074 < Zdigits2 X1 - scale ->
  RND X1 <= RND X2.
Proof.
  intros H1 H12 Hlo. unfold RND.
  pose proof (Zdigits2_mono X1 X2 H1 H12) as Hd.
  pose proof (Zdigits2_bounds X1 H1) as [L1 U1].
  pose proof (Zdigits2_bounds X2 ltac:(lia)) as [L2 U2].
  set (d1 := Zdigits2 X1) in *. set (d2 := Zdigits2 X2) in *.
  rewrite !fexp_eq.
  destruct (Z.eq_dec (Z.max (d1 - scale - 53) (-1074)) (Z.max (d2 - scale - 53) (-1074)))
    as [E|NE].
  - rewrite E. apply rne_at_mono; [assumption|unfold scale; lia].
  - assert (Hlt : d1 < d2) by lia.
    transitivity (2 ^ d1).
    + rewrite <- (rne_at_pow2 d1 (Z.max (d1 - scale - 53) (-1074) + scale))
        by (unfold scale in *; lia).
      apply rne_at_mono; [lia|unfold scale; lia].
    + transitivity (2 ^ (d2 - 1)); [apply Z.pow_le_mono_r; lia|].
      rewrite <- (rne_at_pow2 (d2 - 1) (Z.max (d2 - scale - 53) (-1074) + scale))
        by (unfold scale in *; lia).
      apply rne_at_mono; [lia|unfold scale; lia].
Qed.

(** *** The order of valid numbers is the order of their values *)

Lemma val_lt_of_exp (mx : positive) (ex : Z) (my : positive) (ey : Z) :
  valid_binary (S754_finite false mx ex) = true ->
  valid_binary (S754_finite false my ey) = true ->
  ex < ey -> val mx ex < val my ey.
Proof.
  intros Vx Vy Hlt.
  apply valid_finite in Vx as [Cx _]. apply valid_finite in Vy as [Cy _].
  rewrite fexp_eq in Cx, Cy.
  pose proof (digits_bounds mx) as [Lx Ux]. pose proof (digits_bounds my) as [Ly Uy].
  pose proof (digits_pos mx). pose proof (digits_pos my).
  assert (digits my = 53) by (unfold mag in *; lia).
  assert (digits mx <= 53) by (unfold mag in *; lia).
  assert (Hx : Zpos mx < 9007199254740992).
  { assert (2 ^ digits mx <= 2 ^ 53) by (apply Z.pow_le_mono_r; lia).
    change (2 ^ 53) with 9007199254740992 in *. lia. }
  assert (Hy : 4503599627370496 <= Zpos my).
  { replace (digits my - 1) with 52 in Ly by lia.
    change (2 ^ 52) with 4503599627370496 in Ly. exact Ly. }
  assert (HP : 2 <= 2 ^ (ey - ex)).
  { change 2 with (2 ^ 1) at 1. apply Z.pow_le_mono_r; lia. }
  assert (0 <= ex + scale) by (unfold scale; lia).
  unfold val. replace (ey + scale) with ((ey - ex) + (ex + scale)) by lia.
  rewrite (Z.pow_add_r 2 (ey - ex) (ex + scale)) by lia.
  assert (0 < 2 ^ (ex + scale)) by (apply Z.pow_pos_nonneg; lia).
  assert (Zpos mx < Zpos my * 2 ^ (ey - ex)) by nia.
  nia.
Qed.

Lemma SFltb_val (mx : positive) (ex : Z) (my : positive) (ey : Z) :
  valid_binary (S754_finite false mx ex) = true ->
  valid_binary (S754_finite false my ey) = true ->
  SFltb (S754_finite false mx ex) (S754_finite false my ey) = true ->
  val mx ex < val my ey.
Proof.
  intros Vx Vy H. apply SFltb_finite in H as [H|[-> H]].
  - now apply val_lt_of_exp.
  - unfold val.
    pose proof (proj1 (valid_finite _ _ _ Vy)) as C. rewrite fexp_eq in C.
    assert (0 < 2 ^ (ey + scale)) by (apply Z.pow_pos_nonneg; unfold scale; lia). nia.
Qed.

Lemma SFltb_val_iff (mx : positive) (ex : Z) (my : positive) (ey : Z) :
  valid_binary (S754_finite false mx ex) = true ->
  valid_binary (S754_finite false my ey) = true ->
  SFltb (S754_finite false mx ex) (S754_finite false my ey) = true <->
  val mx ex < val my ey.
Proof.
  intros Vx Vy. split; [now apply SFltb_val|].
  intros Hv.
  destruct (SFltb (S754_finite false mx ex) (S754_finite false my ey)) eqn:E;
    [reflexivity|].
  apply SFcompare_finite_cases in E as [[-> ->]|E]; [lia|].
  apply SFltb_val in E; [lia|assumption|assumption].
Qed.

Lemma SFleb_val_iff (mx : positive) (ex : Z) (my : positive) (ey : Z) :
  valid_binary (S754_finite false mx ex) = true ->
  valid_binary (S754_finite false my ey) = true ->
  SFleb (S754_finite false mx ex) (S754_finite false my ey) = true <->
  val mx ex <= val my ey.
Proof.
  intros Vx Vy.
  pose proof (SFltb_val_iff my ey mx ex Vy Vx) as Hyx.
  assert (Hneg : SFleb (S754_finite false mx ex) (S754_finite false my ey)
                 = negb (SFltb (S754_finite false my ey) (S754_finite false mx ex))).
  { unfold SFleb, SFltb, SFcompare.
    rewrite (Z.compare_antisym ex ey).
    destruct (ex ?= ey); cbn; try reflexivity.
    change (Pos.compare_cont Eq mx my) with (Pos.compare mx my).
    change (Pos.compare_cont Eq my mx) with (Pos.compare my mx).
    rewrite (Pos.compare_antisym mx my).
    destruct (mx ?= my)%positive; reflexivity. }
  rewrite Hneg, negb_true_iff.
  destruct (SFltb (S754_finite false my ey) (S754_finite false mx ex)).
  - split; [discriminate|]. intros H. assert (val my ey < val mx ex) by now apply Hyx. lia.
  - split; [|reflexivity]. intros _.
    destruct (Z.le_gt_cases (val mx ex) (val my ey)) as [H|H]; [exact H|].
    apply Hyx in H. discriminate.
Qed.

(** *** The values of products, sums and differences *)

Lemma shl_align_val (m : positive) (e e' : Z) :
  -1074 <= e -> -1074 <= e' ->
  let '(m1, e1) := shl_align m e e' in
  -1074 <= e1 /\ val m1 e1 = val m e /\ mag m1 e1 = mag m e.
Proof.
  intros He He'. pose proof (shl_align_mag m e e') as Hg.
  destruct (shl_align_value m e e') as (m1 & e1 & E & Hle & Hv & Hexp).
  rewrite E in *. cbn [fst snd] in Hg.
  assert (H1 : -1074 <= e1).
  { unfold shl_align in E. destruct (e' - e) eqn:D; inversion E; subst; lia. }
  split; [exact H1|]. split; [|exact Hg].
  unfold val. rewrite Hv, <- Z.mul_assoc, <- Z.pow_add_r by (unfold scale; lia).
  f_equal. f_equal. lia.
Qed.

Lemma binary_round_value (m : positive) (e : Z) :
  -1074 <= e -> -1074 < mag m e -> mag m e <= 971 ->
  exists m2 e2,
    binary_round prec emax false m e = S754_finite false m2 e2 /\
    val m2 e2 = RND (val m e).
Proof.
  intros He Hlo Hhi. unfold binary_round.
  pose proof (shl_align_val m e (fexp prec emax (Zpos (digits2_pos m) + e)) He
                ltac:(rewrite fexp_eq; lia)) as H.
  destruct (shl_align m e (fexp prec emax (Zpos (digits2_pos m) + e))) as [mz ez].
  destruct H as (Hez & Hv & Hg).
  destruct (binary_round_aux_value mz ez) as (m2 & e2 & -> & _ & Hv2);
    [unfold scale; lia|lia|lia|].
  exists m2, e2. split; [reflexivity|]. now rewrite Hv2, Hv.
Qed.

Lemma SFmul_value (mx : positive) (ex : Z) (my : positive) (ey : Z) :
  -1074 <= ex -> -1074 <= ey ->
  -1074 < mag mx ex + mag my ey - 1 -> mag mx ex + mag my ey <= 971 ->
  exists m e,
    SF64mul (S754_finite false mx ex) (S754_finite false my ey)
    = S754_finite false m e /\
    val m e = RND (val mx ex * val my ey / 2 ^ scale) /\
    0 < val mx ex * val my ey / 2 ^ scale /\
    -1074 < Zdigits2 (val mx ex * val my ey / 2 ^ scale) - scale.
Proof.
  intros Hex Hey Hlo Hhi. unfold SF64mul, SFmul. cbn [xorb].
  pose proof (digits_mul mx my) as Hd.
  destruct (binary_round_aux_value (mx * my) (ex + ey)) as (m & e & -> & _ & Hv);
    [unfold scale; lia|unfold mag in *; lia|unfold mag in *; lia|].
  exists m, e. split; [reflexivity|].
  assert (Hprod : val mx ex * val my ey / 2 ^ scale = val (mx * my) (ex + ey));
    [|rewrite Hprod; split; [exact Hv|]; split;
      [apply val_pos; unfold scale; lia
      |rewrite val_digits by (unfold scale; lia); unfold mag in *; lia]].
  unfold val. rewrite Pos2Z.inj_mul.
  replace (Zpos mx * 2 ^ (ex + scale) * (Zpos my * 2 ^ (ey + scale)))
    with (Zpos mx * Zpos my * 2 ^ (ex + ey + scale) * 2 ^ scale).
  - rewrite Z.div_mul; [reflexivity|]. unfold scale. lia.
  - rewrite <- !Z.mul_assoc. f_equal.
    rewrite (Z.mul_comm (2 ^ (ex + scale))), <- !Z.mul_assoc. f_equal.
    rewrite <- !Z.pow_add_r by (unfold scale; lia). f_equal. lia.
Qed.

Lemma SFadd_value (mx : positive) (ex : Z) (my : positive) (ey : Z) :
  -1074 <= ex -> -1074 <= ey ->
  -1074 < Z.max (mag mx ex) (mag my ey) ->
  Z.max (mag mx ex) (mag my ey) + 1 <= 971 ->
  exists m e,
    SF64add (S754_finite false mx ex) (S754_finite false my ey)
    = S754_finite false m e /\
    val m e = RND (val mx ex + val my ey) /\
    0 < val mx ex + val my ey /\
    -1074 < Zdigits2 (val mx ex + val my ey) - scale.
Proof.
  intros Hex Hey Hlo Hhi. unfold SF64add, SFadd. cbn [cond_Zopp].
  set (ez := Z.min ex ey).
  destruct (shl_align_value mx ex ez) as (ax & e1 & -> & _ & Hax & He1).
  destruct (shl_align_value my ey ez) as (ay & e2 & -> & _ & Hay & He2).
  assert (E1 : e1 = ez) by (apply He1; lia).
  assert (E2 : e2 = ez) by (apply He2; lia).
  rewrite E1 in Hax. rewrite E2 in Hay. clear He1 He2 E1 E2.
  cbn [fst]. change (Zpos ax + Zpos ay) with (Zpos (ax + ay)).
  cbn [binary_normalize].
  pose proof (digits_shl mx (ex - ez) ax ltac:(lia) Hax) as Dax.
  pose proof (digits_shl my (ey - ez) ay ltac:(lia) Hay) as Day.
  pose proof (digits_bounds ax) as [Lax Uax].
  pose proof (digits_bounds ay) as [Lay Uay].
  pose proof (digits_pos ax). pose proof (digits_pos ay).
  assert (Hge1 : digits ax <= digits (ax + ay)).
  { assert (digits ax - 1 < digits (ax + ay)); [|lia]. apply digits_gt. lia. }
  assert (Hge2 : digits ay <= digits (ax + ay)).
  { assert (digits ay - 1 < digits (ax + ay)); [|lia]. apply digits_gt. lia. }
  assert (Hle : digits (ax + ay) <= Z.max (digits ax) (digits ay) + 1).
  { apply digits_le. rewrite Z.pow_add_r by lia.
    assert (2 ^ digits ax <= 2 ^ Z.max (digits ax) (digits ay))
      by (apply Z.pow_le_mono_r; lia).
    assert (2 ^ digits ay <= 2 ^ Z.max (digits ax) (digits ay))
      by (apply Z.pow_le_mono_r; lia).
    lia. }
  destruct (binary_round_value (ax + ay) ez) as (m & e & -> & Hv);
    [lia|unfold mag in *; lia|unfold mag in *; lia|].
  exists m, e. split; [reflexivity|].
  assert (Hsum : val mx ex + val my ey = val (ax + ay) ez);
    [|rewrite Hsum; split; [exact Hv|]; split;
      [apply val_pos; unfold scale; lia
      |rewrite val_digits by (unfold scale; lia); unfold mag in *; lia]].
  unfold val. rewrite Pos2Z.inj_add, Hax, Hay, Z.mul_add_distr_r.
  rewrite <- !Z.mul_assoc, <- !Z.pow_add_r by (unfold scale; lia).
  f_equal; f_equal; f_equal; lia.
Qed.

Lemma SFsub_one_value (m : positive) (e : Z) :
  valid_binary (S754_finite false m e) = true ->
  mag m e <= 0 ->
  exists m' e',
    SF64sub (Prim2SF 1) (S754_finite false m e) = S754_finite false m' e' /\
    val m' e' = RND (2 ^ scale - val m e) /\
    0 < 2 ^ scale - val m e /\
    -1074 < Zdigits2 (2 ^ scale - val m e) - scale.
Proof.
  intros V Hg. apply valid_finite in V as [C _]. rewrite fexp_eq in C.
  change (Prim2SF 1) with (S754_finite false 4503599627370496 (-52)).
  unfold SF64sub, SFsub. cbn [cond_Zopp].
  assert (He : e <= -53) by lia.
  replace (Z.min (-52) e) with e by lia.
  destruct (shl_align_value 4503599627370496 (-52) e) as (a & e1 & -> & _ & Ha & He1).
  destruct (shl_align_value m e e) as (b & e2 & -> & Hle2 & Hb & He2).
  rewrite (He1 ltac:(lia)) in Ha. rewrite (He2 ltac:(lia)), Z.sub_diag in Hb.
  cbn [fst]. clear He1 He2.
  assert (Hbm : Zpos b = Zpos m) by lia. clear Hb.
  change (Zpos 4503599627370496) with (2 ^ 52) in Ha.
  rewrite <- Z.pow_add_r in Ha by lia.
  replace (52 + (-52 - e)) with (- e) in Ha by lia.
  pose proof (digits_bounds m) as [Lm Um]. pose proof (digits_pos m).
  assert (Hm1 : 2 ^ digits m <= 2 ^ (- e)) by (apply Z.pow_le_mono_r; unfold mag in *; lia).
  destruct (Zpos a - Zpos b) as [|d|d] eqn:Ed; try lia.
  cbn [binary_normalize].
  assert (Hu : digits d <= - e) by (apply digits_le; lia).
  pose proof (digits_pos d).
  destruct (binary_round_value d e) as (m' & e' & -> & Hv);
    [lia|unfold mag; lia|unfold mag; lia|].
  exists m', e'. split; [reflexivity|].
  assert (Hdiff : 2 ^ scale - val m e = val d e);
    [|rewrite Hdiff; split; [exact Hv|]; split;
      [apply val_pos; unfold scale; lia
      |rewrite val_digits by (unfold scale; lia); unfold mag in *; lia]].
  unfold val. rewrite <- Ed, Ha, Hbm, Z.mul_sub_distr_r.
  rewrite <- Z.pow_add_r by (unfold scale; lia). f_equal. f_equal. lia.
Qed.

(** *** Positive and non-negative floats, bounded by powers of two *)

#[local] Open Scope float_scope.

(** [Between a b x]: [x] is finite and [2^a <= x < 2^b]. *)
Definition Between (a b : Z) (x : float) : Prop :=
  exists m e, Prim2SF x = S754_finite false m e /\ (a < mag m e <= b)%Z.

(** [ZeroOrBelow b x]: [x] is a zero, or finite with [0 < x < 2^b]. *)
Definition ZeroOrBelow (b : Z) (x : float) : Prop :=
  (exists s, Prim2SF x = S754_zero s) \/
  exists m e, Prim2SF x = S754_finite false m e /\ (mag m e <= b)%Z.

Lemma finite_valid (x : float) (s : bool) (m : positive) (e : Z) :
  Prim2SF x = S754_finite s m e ->
  (-1074 < mag m e)%Z /\ valid_binary (S754_finite s m e) = true.
Proof.
  intros H. pose proof (Prim2SF_valid x) as V. rewrite H in V.
  split; [|exact V]. apply valid_finite in V as [C _]. rewrite fexp_eq in C.
  pose proof (digits_pos m). unfold mag in *. lia.
Qed.

Lemma Between_weaken (a b a' b' : Z) (x : float) :
  Between a b x -> (a' <= a)%Z -> (b <= b')%Z -> Between a' b' x.
Proof. intros (m & e & H & Hg) Ha Hb. exists m, e. split; [exact H|lia]. Qed.

Lemma Between_ZeroOrBelow (a b : Z) (x : float) : Between a b x -> ZeroOrBelow b x.
Proof. intros (m & e & H & Hg). right. exists m, e. split; [exact H|lia]. Qed.

Lemma ZeroOrBelow_weaken (b b' : Z) (x : float) :
  ZeroOrBelow b x -> (b <= b')%Z -> ZeroOrBelow b' x.
Proof.
  intros [H|(m & e & H & Hg)] Hb; [now left|].
  right. exists m, e. split; [exact H|lia].
Qed.

Lemma mul_Between_Between (a b c d : Z) (x y : float) :
  Between a b x -> Between c d y -> (-1074 <= a + c)%Z -> (b + d <= 971)%Z ->
  Between (a + c) (b + d + 1) (x * y).
Proof.
  intros (mx & ex & Hx & Gx) (my & ey & Hy & Gy) Hlo Hhi.
  destruct (SFmul_finite mx ex my ey) as (m & e & E & G); [lia|lia|].
  exists m, e. rewrite FloatAxioms.mul_spec, Hx, Hy. split; [exact E|lia].
Qed.

Lemma mul_ZeroOrBelow_Between (b c d : Z) (x y : float) :
  ZeroOrBelow b x -> Between c d y -> (0 <= c)%Z -> (b + d <= 971)%Z ->
  ZeroOrBelow (b + d + 1) (x * y).
Proof.
  intros [[s Hx]|(mx & ex & Hx & Gx)] (my & ey & Hy & Gy) Hlo Hhi.
  - left. exists (xorb s false). rewrite FloatAxioms.mul_spec, Hx, Hy. reflexivity.
  - pose proof (finite_valid _ _ _ _ Hx) as [Vx _].
    destruct (SFmul_finite mx ex my ey) as (m & e & E & G); [lia|lia|].
    right. exists m, e. rewrite FloatAxioms.mul_spec, Hx, Hy. split; [exact E|lia].
Qed.

Lemma mul_Between_ZeroOrBelow (a b d : Z) (x y : float) :
  Between a b x -> ZeroOrBelow d y -> (0 <= a)%Z -> (b + d <= 971)%Z ->
  ZeroOrBelow (b + d + 1) (x * y).
Proof.
  intros (mx & ex & Hx & Gx) [[s Hy]|(my & ey & Hy & Gy)] Hlo Hhi.
  - left. exists (xorb false s). rewrite FloatAxioms.mul_spec, Hx, Hy. reflexivity.
  - pose proof (finite_valid _ _ _ _ Hy) as [Vy _].
    destruct (SFmul_finite mx ex my ey) as (m & e & E & G); [lia|lia|].
    right. exists m, e. rewrite FloatAxioms.mul_spec, Hx, Hy. split; [exact E|lia].
Qed.

Lemma add_Between_Between (a b c d : Z) (x y : float) :
  Between a b x -> Between c d y -> (b <= 970)%Z -> (d <= 970)%Z ->
  Between (Z.max a c) (Z.max b d + 2) (x + y).
Proof.
  intros (mx & ex & Hx & Gx) (my & ey & Hy & Gy) Hb Hd.
  pose proof (finite_valid _ _ _ _ Hx) as [Vx _].
  destruct (SFadd_finite mx ex my ey) as (m & e & E & G); [lia|lia|].
  exists m, e. rewrite FloatAxioms.add_spec, Hx, Hy. split; [exact E|lia].
Qed.

Lemma add_Between_ZeroOrBelow (a b d : Z) (x y : float) :
  Between a b x -> ZeroOrBelow d y -> (b <= 970)%Z -> (d <= 970)%Z ->
  Between a (Z.max b d + 2) (x + y).
Proof.
  intros (mx & ex & Hx & Gx) [[s Hy]|(my & ey & Hy & Gy)] Hb Hd.
  - exists mx, ex. rewrite FloatAxioms.add_spec, Hx, Hy. split; [reflexivity|lia].
  - pose proof (finite_valid _ _ _ _ Hx) as [Vx _].
    destruct (SFadd_finite mx ex my ey) as (m & e & E & G); [lia|lia|].
    exists m, e. rewrite FloatAxioms.add_spec, Hx, Hy. split; [exact E|lia].
Qed.

Lemma add_ZeroOrBelow_Between (b c d : Z) (x y : float) :
  ZeroOrBelow b x -> Between c d y -> (b <= 970)%Z -> (d <= 970)%Z ->
  Between c (Z.max b d + 2) (x + y).
Proof.
  intros [[s Hx]|(mx & ex & Hx & Gx)] (my & ey & Hy & Gy) Hb Hd.
  - exists my, ey. rewrite FloatAxioms.add_spec, Hx, Hy. split; [reflexivity|lia].
  - pose proof (finite_valid _ _ _ _ Hy) as [Vy _].
    destruct (SFadd_finite mx ex my ey) as (m & e & E & G); [lia|lia|].
    exists m, e. rewrite FloatAxioms.add_spec, Hx, Hy. split; [exact E|lia].
Qed.

Lemma div_Between_Between (a b c d : Z) (x y : float) :
  Between a b x -> Between c d y -> (-1074 <= a - d)%Z -> (b - c <= 971)%Z ->
  Between (a - d) (b - c + 1) (x / y).
Proof.
  intros (mx & ex & Hx & Gx) (my & ey & Hy & Gy) Hlo Hhi.
  destruct (SFdiv_finite mx ex my ey) as (m & e & E & G); [lia|lia|].
  exists m, e. rewrite FloatAxioms.div_spec, Hx, Hy. split; [exact E|lia].
Qed.

Lemma Between_one : Between 0 1 1.
Proof.
  exists 4503599627370496%positive, (-52)%Z. split; [reflexivity|].
  vm_compute. split; congruence.
Qed.

(** *** Comparisons *)

Lemma Between_gt_zero (a b : Z) (x : float) : Between a b x -> (0 <? x) = true.
Proof. intros (m & e & H & _). rewrite FloatAxioms.ltb_spec, H. reflexivity. Qed.

Lemma Between_not_zero (a b : Z) (x : float) : Between a b x -> (x =? 0) = false.
Proof. intros (m & e & H & _). rewrite FloatAxioms.eqb_spec, H. reflexivity. Qed.

(** A float in [[0, 1)]. *)
Lemma unit_range (x : float) :
  (0 <=? x) = true -> (x <? 1) = true -> ZeroOrBelow 0 x.
Proof.
  rewrite FloatAxioms.leb_spec, FloatAxioms.ltb_spec.
  change (Prim2SF 0) with (S754_zero false).
  change (Prim2SF 1) with (S754_finite false 4503599627370496 (-52)).
  intros H0 H1. destruct (Prim2SF x) as [s| [|] | |[|] m e] eqn:E;
    try discriminate; [left; eauto|].
  right. exists m, e. split; [exact E|].
  pose proof (finite_valid _ _ _ _ E) as [_ V].
  apply valid_finite in V as [C _]. rewrite fexp_eq in C.
  apply SFltb_finite in H1 as [H1|[H1 H2]]; [lia|].
  pose proof (digits_bounds m). subst e.
  assert (digits m = 53)%Z by (unfold mag in *; lia).
  replace (digits m - 1)%Z with 52%Z in * by lia.
  change (2 ^ 52)%Z with 4503599627370496%Z in *. lia.
Qed.

(** A float in [[0, 64]]. *)
Lemma log_range (x : float) :
  (0 <=? x) = true -> (x <=? 64) = true -> ZeroOrBelow 7 x.
Proof.
  rewrite !FloatAxioms.leb_spec.
  change (Prim2SF 0) with (S754_zero false).
  change (Prim2SF 64) with (S754_finite false 4503599627370496 (-46)).
  intros H0 H1. destruct (Prim2SF x) as [s| [|] | |[|] m e] eqn:E;
    try discriminate; [left; eauto|].
  right. exists m, e. split; [exact E|].
  pose proof (finite_valid _ _ _ _ E) as [_ V].
  apply valid_finite in V as [C _]. rewrite fexp_eq in C.
  unfold SFleb, SFcompare in H1.
  destruct (Z.compare_spec e (-46)); try discriminate; lia.
Qed.

Lemma le_one_of_mag (x : float) (m : positive) (e : Z) :
  Prim2SF x = S754_finite false m e ->
  (mag m e <= 0 \/ (mag m e = 1 /\ Zpos m = 2 ^ (digits m - 1)))%Z ->
  (x <=? 1) = true.
Proof.
  intros E Hc. pose proof (finite_valid _ _ _ _ E) as [_ V].
  apply valid_finite in V as [C _]. rewrite fexp_eq in C.
  rewrite FloatAxioms.leb_spec, E.
  change (Prim2SF 1) with (S754_finite false 4503599627370496 (-52)).
  unfold SFleb, SFcompare.
  destruct Hc as [Hc|[Hc Hp]].
  - destruct (Z.compare_spec e (-52)); try reflexivity; lia.
  - assert (e = -52)%Z by lia. subst e.
    assert (digits m = 53)%Z by (unfold mag in *; lia).
    replace (digits m - 1)%Z with 52%Z in Hp by lia.
    assert (m = 4503599627370496%positive)
      by (change (2 ^ 52)%Z with 4503599627370496%Z in Hp; lia).
    subst m. reflexivity.
Qed.

Lemma div_lt_le_one (a b c d : Z) (x y : float) :
  Between a b x -> Between c d y -> (-1074 <= a - d)%Z ->
  (x <? y) = true -> (x / y <=? 1) = true.
Proof.
  intros (mx & ex & Hx & Gx) (my & ey & Hy & Gy) Hlo Hlt.
  pose proof (finite_valid _ _ _ _ Hx) as [_ Vx].
  pose proof (finite_valid _ _ _ _ Hy) as [_ Vy].
  rewrite FloatAxioms.ltb_spec, Hx, Hy in Hlt. apply SFltb_finite in Hlt.
  destruct (SFdiv_lt mx ex my ey Vx Vy Hlt) as (m & e & E & Hc); [lia|].
  apply (le_one_of_mag _ m e); [|exact Hc].
  now rewrite FloatAxioms.div_spec, Hx, Hy.
Qed.

Lemma div_self_one (a b : Z) (x : float) : Between a b x -> x / x = 1.
Proof.
  intros (m & e & H & _). apply Prim2SF_inj.
  rewrite FloatAxioms.div_spec, H. apply SFdiv_self.
Qed.

(** The smaller of two positive floats over the greater is at most one. *)
Lemma div_not_gt_le_one (a b c d : Z) (x y : float) :
  Between a b x -> Between c d y -> (-1074 <= a - d)%Z ->
  (y <? x) = false -> (x / y <=? 1) = true.
Proof.
  intros Px Py Hlo Hnlt.
  pose proof Px as (mx & ex & Hx & Gx). pose proof Py as (my & ey & Hy & Gy).
  rewrite FloatAxioms.ltb_spec, Hx, Hy in Hnlt.
  apply SFcompare_finite_cases in Hnlt as [[-> ->]|Hlt].
  - assert (x = y) by (apply Prim2SF_inj; congruence). subst y.
    rewrite (div_self_one _ _ _ Px). reflexivity.
  - apply (div_lt_le_one a b c d); try assumption.
    now rewrite FloatAxioms.ltb_spec, Hx, Hy.
Qed.

(** *** One minus a float in [[0, 1)] *)

Lemma sub_one_Between (x : float) :
  (0 <=? x) = true -> (x <? 1) = true -> Between (-53) 1 (1 - x).
Proof.
  intros H0 H1. destruct (unit_range x H0 H1) as [[s Hx]|(m & e & Hx & G)].
  - exists 4503599627370496%positive, (-52)%Z.
    rewrite FloatAxioms.sub_spec, Hx. split; [reflexivity|].
    change (mag 4503599627370496 (-52)) with 1%Z. lia.
  - pose proof (finite_valid _ _ _ _ Hx) as [_ V].
    destruct (SFsub_one_finite m e V G) as (m' & e' & E & G').
    exists m', e'. rewrite FloatAxioms.sub_spec, Hx. split; [exact E|lia].
Qed.

(** *** Monotone float operations and intervals *)


(** The value of a positive finite float, in units of [2^-scale]. *)
Definition fval (x : float) : Z :=
  match Prim2SF x with
  | S754_finite false m e => val m e
  | _ => 0%Z
  end.

Lemma Between_fval (a b : Z) (x : float) :
  Between a b x ->
  exists m e,
    Prim2SF x = S754_finite false m e /\
    valid_binary (S754_finite false m e) = true /\
    fval x = val m e /\ (-1074 <= e)%Z /\ (a < mag m e <= b)%Z.
Proof.
  intros (m & e & H & G). pose proof (finite_valid _ _ _ _ H) as [_ V].
  exists m, e. split; [exact H|]. split; [exact V|].
  unfold fval. rewrite H. split; [reflexivity|]. split; [|exact G].
  apply valid_finite in V as [C _]. rewrite fexp_eq in C. lia.
Qed.

Lemma leb_fval (a b c d : Z) (x y : float) :
  Between a b x -> Between c d y ->
  (x <=? y) = true <-> (fval x <= fval y)%Z.
Proof.
  intros Hx Hy.
  destruct (Between_fval _ _ _ Hx) as (mx & ex & Ex & Vx & -> & _).
  destruct (Between_fval _ _ _ Hy) as (my & ey & Ey & Vy & -> & _).
  rewrite FloatAxioms.leb_spec, Ex, Ey. now apply SFleb_val_iff.
Qed.

Lemma ltb_fval (a b c d : Z) (x y : float) :
  Between a b x -> Between c d y ->
  (x <? y) = true <-> (fval x < fval y)%Z.
Proof.
  intros Hx Hy.
  destruct (Between_fval _ _ _ Hx) as (mx & ex & Ex & Vx & -> & _).
  destruct (Between_fval _ _ _ Hy) as (my & ey & Ey & Vy & -> & _).
  rewrite FloatAxioms.ltb_spec, Ex, Ey. now apply SFltb_val_iff.
Qed.

Lemma mul_fval (a b c d : Z) (x y : float) :
  Between a b x -> Between c d y -> (-1074 <= a + c)%Z -> (b + d <= 971)%Z ->
  fval (x * y) = RND (fval x * fval y / 2 ^ scale) /\
  (0 < fval x * fval y / 2 ^ scale)%Z /\
  (-1074 < Zdigits2 (fval x * fval y / 2 ^ scale) - scale)%Z.
Proof.
  intros Hx Hy Hlo Hhi.
  destruct (Between_fval _ _ _ Hx) as (mx & ex & Ex & Vx & -> & Hex & Gx).
  destruct (Between_fval _ _ _ Hy) as (my & ey & Ey & Vy & -> & Hey & Gy).
  destruct (SFmul_value mx ex my ey Hex Hey) as (m & e & E & Hv & Hp); [lia|lia|].
  unfold fval. rewrite FloatAxioms.mul_spec, Ex, Ey, E. split; [exact Hv|exact Hp].
Qed.

Lemma add_fval (a b c d : Z) (x y : float) :
  Between a b x -> Between c d y -> (b <= 970)%Z -> (d <= 970)%Z ->
  fval (x + y) = RND (fval x + fval y) /\
  (0 < fval x + fval y)%Z /\
  (-1074 < Zdigits2 (fval x + fval y) - scale)%Z.
Proof.
  intros Hx Hy Hb Hd.
  destruct (Between_fval _ _ _ Hx) as (mx & ex & Ex & Vx & -> & Hex & Gx).
  destruct (Between_fval _ _ _ Hy) as (my & ey & Ey & Vy & -> & Hey & Gy).
  pose proof (finite_valid _ _ _ _ Ex) as [Lx _].
  destruct (SFadd_value mx ex my ey Hex Hey) as (m & e & E & Hv & Hp); [lia|lia|].
  unfold fval. rewrite FloatAxioms.add_spec, Ex, Ey, E. split; [exact Hv|exact Hp].
Qed.

Lemma sub_one_fval (a : Z) (x : float) :
  Between a 0 x ->
  fval (1 - x) = RND (2 ^ scale - fval x) /\
  (0 < 2 ^ scale - fval x)%Z /\
  (-1074 < Zdigits2 (2 ^ scale - fval x) - scale)%Z.
Proof.
  intros Hx.
  destruct (Between_fval _ _ _ Hx) as (m & e & Ex & Vx & -> & He & G).
  destruct (SFsub_one_value m e Vx) as (m' & e' & E & Hv & Hp); [lia|].
  unfold fval. rewrite FloatAxioms.sub_spec, Ex, E. split; [exact Hv|exact Hp].
Qed.

Lemma fval_pos (a b : Z) (x : float) : Between a b x -> (0 < fval x)%Z.
Proof.
  intros Hx. destruct (Between_fval _ _ _ Hx) as (m & e & _ & _ & -> & He & _).
  apply val_pos. unfold scale. lia.
Qed.

Theorem mul_mono (a b c d : Z) (x1 x2 y1 y2 : float) :
  Between a b x1 -> Between a b x2 -> Between c d y1 -> Between c d y2 ->
  (-1074 <= a + c)%Z -> (b + d <= 971)%Z ->
  (x1 <=? x2) = true -> (y1 <=? y2) = true ->
  (x1 * y1 <=? x2 * y2) = true.
Proof.
  intros X1 X2 Y1 Y2 Hlo Hhi Hx Hy.
  apply (leb_fval _ _ _ _ _ _ (mul_Between_Between _ _ _ _ _ _ X1 Y1 Hlo Hhi)
           (mul_Between_Between _ _ _ _ _ _ X2 Y2 Hlo Hhi)).
  destruct (mul_fval _ _ _ _ _ _ X1 Y1 Hlo Hhi) as (-> & P1 & D1).
  destruct (mul_fval _ _ _ _ _ _ X2 Y2 Hlo Hhi) as (-> & _ & _).
  apply (leb_fval _ _ _ _ _ _ X1 X2) in Hx.
  apply (leb_fval _ _ _ _ _ _ Y1 Y2) in Hy.
  pose proof (fval_pos _ _ _ X1). pose proof (fval_pos _ _ _ Y1).
  apply RND_mono; [exact P1| |exact D1].
  apply Z.div_le_mono; [unfold scale; lia|nia].
Qed.

Theorem add_mono (a b c d : Z) (x1 x2 y1 y2 : float) :
  Between a b x1 -> Between a b x2 -> Between c d y1 -> Between c d y2 ->
  (b <= 970)%Z -> (d <= 970)%Z ->
  (x1 <=? x2) = true -> (y1 <=? y2) = true ->
  (x1 + y1 <=? x2 + y2) = true.
Proof.
  intros X1 X2 Y1 Y2 Hb Hd Hx Hy.
  apply (leb_fval _ _ _ _ _ _ (add_Between_Between _ _ _ _ _ _ X1 Y1 Hb Hd)
           (add_Between_Between _ _ _ _ _ _ X2 Y2 Hb Hd)).
  destruct (add_fval _ _ _ _ _ _ X1 Y1 Hb Hd) as (-> & P1 & D1).
  destruct (add_fval _ _ _ _ _ _ X2 Y2 Hb Hd) as (-> & _ & _).
  apply (leb_fval _ _ _ _ _ _ X1 X2) in Hx.
  apply (leb_fval _ _ _ _ _ _ Y1 Y2) in Hy.
  apply RND_mono; [exact P1|lia|exact D1].
Qed.

Lemma sub_one_Between' (a : Z) (x : float) :
  Between a 0 x -> Between (-53) 1 (1 - x).
Proof.
  intros Hx. destruct (Between_fval _ _ _ Hx) as (m & e & Ex & Vx & _ & _ & G).
  destruct (SFsub_one_finite m e Vx ltac:(lia)) as (m' & e' & E & G').
  exists m', e'. rewrite FloatAxioms.sub_spec, Ex. split; [exact E|lia].
Qed.

Theorem sub_one_anti (a : Z) (x1 x2 : float) :
  Between a 0 x1 -> Between a 0 x2 ->
  (x1 <=? x2) = true -> (1 - x2 <=? 1 - x1) = true.
Proof.
  intros X1 X2 Hx.
  apply (leb_fval _ _ _ _ _ _ (sub_one_Between' _ _ X2) (sub_one_Between' _ _ X1)).
  destruct (sub_one_fval _ _ X1) as (-> & _ & _).
  destruct (sub_one_fval _ _ X2) as (-> & P2 & D2).
  apply (leb_fval _ _ _ _ _ _ X1 X2) in Hx.
  apply RND_mono; [exact P2|lia|exact D2].
Qed.

(** *** Intervals with float end points *)

(** A positive finite float between [2^-300] and [2^300]. *)
Definition in_range (x : float) : bool :=
  match Prim2SF x with
  | S754_finite false m e => ((-300 <? mag m e) && (mag m e <=? 300))%Z
  | _ => false
  end.

(** [x] lies between the floats [lo] and [hi]. *)
Definition PosIn (lo hi x : float) : Prop :=
  in_range lo = true /\ in_range hi = true /\
  (lo <=? x) = true /\ (x <=? hi) = true.

Lemma in_range_Between (x : float) :
  in_range x = true -> Between (-300) 300 x.
Proof.
  unfold in_range. destruct (Prim2SF x) as [| | |[|] m e] eqn:E; try discriminate.
  intros H. apply andb_true_iff in H as [H1 H2].
  apply Z.ltb_lt in H1. apply Z.leb_le in H2. exists m, e. split; [exact E|lia].
Qed.

Lemma Between_in_range (a b : Z) (x : float) :
  Between a b x -> (-300 <= a)%Z -> (b <= 300)%Z -> in_range x = true.
Proof.
  intros (m & e & E & G) Ha Hb. unfold in_range. rewrite E.
  apply andb_true_iff. split; [apply Z.ltb_lt|apply Z.leb_le]; lia.
Qed.

Lemma val_mag_mono (m1 : positive) (e1 : Z) (m2 : positive) (e2 : Z) :
  (- scale <= e1)%Z -> (- scale <= e2)%Z -> (val m1 e1 <= val m2 e2)%Z ->
  (mag m1 e1 <= mag m2 e2)%Z.
Proof.
  intros H1 H2 Hv.
  pose proof (Zdigits2_mono _ _ (val_pos m1 e1 H1) Hv) as Hd.
  rewrite !val_digits in Hd by assumption. lia.
Qed.

(** A float that is at least a positive finite float and at most a
    finite one is positive and finite. *)
Lemma Between_of_bounds (a b c d : Z) (lo hi x : float) :
  Between a b lo -> Between c d hi ->
  (lo <=? x) = true -> (x <=? hi) = true -> Between a d x.
Proof.
  intros Hlo Hhi H1 H2.
  destruct (Between_fval _ _ _ Hlo) as (ml & el & El & Vl & _ & Hel & Gl).
  destruct (Between_fval _ _ _ Hhi) as (mh & eh & Eh & Vh & _ & Heh & Gh).
  rewrite FloatAxioms.leb_spec, El in H1. rewrite FloatAxioms.leb_spec, Eh in H2.
  destruct (Prim2SF x) as [s|[|]| |[|] m e] eqn:E; try discriminate.
  pose proof (finite_valid _ _ _ _ E) as [_ V].
  pose proof (proj1 (valid_finite _ _ _ V)) as C. rewrite fexp_eq in C.
  apply SFleb_val_iff in H1; [|assumption|assumption].
  apply SFleb_val_iff in H2; [|assumption|assumption].
  apply val_mag_mono in H1; [|unfold scale; lia|unfold scale; lia].
  apply val_mag_mono in H2; [|unfold scale; lia|unfold scale; lia].
  exists m, e. split; [exact E|lia].
Qed.

Lemma PosIn_Between (lo hi x : float) : PosIn lo hi x -> Between (-300) 300 x.
Proof.
  intros (Hl & Hh & H1 & H2).
  exact (Between_of_bounds _ _ _ _ _ _ _ (in_range_Between _ Hl)
           (in_range_Between _ Hh) H1 H2).
Qed.

Lemma leb_refl_Between (a b : Z) (x : float) : Between a b x -> (x <=? x) = true.
Proof. intros H. apply (leb_fval _ _ _ _ _ _ H H). lia. Qed.

Lemma leb_trans_Between (a b c d e f : Z) (x y z : float) :
  Between a b x -> Between c d y -> Between e f z ->
  (x <=? y) = true -> (y <=? z) = true -> (x <=? z) = true.
Proof.
  intros X Y Zz H1 H2.
  apply (leb_fval _ _ _ _ _ _ X Y) in H1. apply (leb_fval _ _ _ _ _ _ Y Zz) in H2.
  apply (leb_fval _ _ _ _ _ _ X Zz). lia.
Qed.

Lemma PosIn_const (x : float) : in_range x = true -> PosIn x x x.
Proof.
  intros H. pose proof (leb_refl_Between _ _ _ (in_range_Between _ H)).
  repeat split; assumption.
Qed.

Lemma PosIn_mul (l1 h1 x l2 h2 y : float) :
  PosIn l1 h1 x -> PosIn l2 h2 y ->
  in_range (l1 * l2) = true -> in_range (h1 * h2) = true ->
  PosIn (l1 * l2) (h1 * h2) (x * y).
Proof.
  intros Hx Hy Rl Rh.
  pose proof (PosIn_Between _ _ _ Hx) as Bx. pose proof (PosIn_Between _ _ _ Hy) as By.
  destruct Hx as (Rl1 & Rh1 & Lx & Ux). destruct Hy as (Rl2 & Rh2 & Ly & Uy).
  apply in_range_Between in Rl1, Rh1, Rl2, Rh2.
  split; [exact Rl|]. split; [exact Rh|]. split.
  - apply (mul_mono (-300) 300 (-300) 300); try assumption; lia.
  - apply (mul_mono (-300) 300 (-300) 300); try assumption; lia.
Qed.

Lemma PosIn_add (l1 h1 x l2 h2 y : float) :
  PosIn l1 h1 x -> PosIn l2 h2 y ->
  in_range (l1 + l2) = true -> in_range (h1 + h2) = true ->
  PosIn (l1 + l2) (h1 + h2) (x + y).
Proof.
  intros Hx Hy Rl Rh.
  pose proof (PosIn_Between _ _ _ Hx) as Bx. pose proof (PosIn_Between _ _ _ Hy) as By.
  destruct Hx as (Rl1 & Rh1 & Lx & Ux). destruct Hy as (Rl2 & Rh2 & Ly & Uy).
  apply in_range_Between in Rl1, Rh1, Rl2, Rh2.
  split; [exact Rl|]. split; [exact Rh|]. split.
  - apply (add_mono (-300) 300 (-300) 300); try assumption; lia.
  - apply (add_mono (-300) 300 (-300) 300); try assumption; lia.
Qed.

(** Bounds by powers of two as an interval: [lo] lies below the binades
    of [x] and [hi] above them. *)
Lemma Between_PosIn (a b : Z) (lo hi x : float) :
  Between a b x ->
  Between (-300) a lo -> Between b 300 hi ->
  PosIn lo hi x.
Proof.
  intros Hx Hlo Hhi.
  destruct (Between_fval _ _ _ Hx) as (m & e & E & V & Fx & He & G).
  destruct (Between_fval _ _ _ Hlo) as (ml & el & El & Vl & Fl & Hel & Gl).
  destruct (Between_fval _ _ _ Hhi) as (mh & eh & Eh & Vh & Fh & Heh & Gh).
  split; [apply (Between_in_range _ _ _ Hlo); lia|].
  split; [apply (Between_in_range _ _ _ Hhi); lia|].
  assert (HK : forall m1 e1 m2 e2, (-1074 <= e1)%Z -> (-1074 <= e2)%Z ->
                 (mag m1 e1 < mag m2 e2)%Z -> (val m1 e1 <= val m2 e2)%Z).
  { intros m1 e1 m2 e2 H1 H2 Hg.
    pose proof (Zdigits2_bounds _ (val_pos m1 e1 ltac:(unfold scale; lia))) as [_ U1].
    pose proof (Zdigits2_bounds _ (val_pos m2 e2 ltac:(unfold scale; lia))) as [L2 _].
    rewrite val_digits in U1, L2 by (unfold scale; lia).
    assert (2 ^ (mag m1 e1 + scale) <= 2 ^ (mag m2 e2 + scale - 1))%Z
      by (apply Z.pow_le_mono_r; lia).
    lia. }
  split.
  - apply (leb_fval _ _ _ _ _ _ Hlo Hx). rewrite Fl, Fx. apply HK; lia.
  - apply (leb_fval _ _ _ _ _ _ Hx Hhi). rewrite Fx, Fh. apply HK; lia.
Qed.

Lemma PosIn_lt (l1 h1 x l2 h2 y : float) :
  PosIn l1 h1 x -> PosIn l2 h2 y -> (h1 <? l2) = true -> (x <? y) = true.
Proof.
  intros Hx Hy Hlt.
  pose proof (PosIn_Between _ _ _ Hx) as Bx. pose proof (PosIn_Between _ _ _ Hy) as By.
  destruct Hx as (_ & Rh1 & _ & Ux). destruct Hy as (Rl2 & _ & Ly & _).
  apply in_range_Between in Rh1, Rl2.
  apply (leb_fval _ _ _ _ _ _ Bx Rh1) in Ux.
  apply (leb_fval _ _ _ _ _ _ Rl2 By) in Ly.
  apply (ltb_fval _ _ _ _ _ _ Rh1 Rl2) in Hlt.
  apply (ltb_fval _ _ _ _ _ _ Bx By). lia.
Qed.

Lemma PosIn_not_lt (l1 h1 x l2 h2 y : float) :
  PosIn l1 h1 x -> PosIn l2 h2 y -> (h2 <? l1) = true -> (x <? y) = false.
Proof.
  intros Hx Hy Hlt.
  pose proof (PosIn_lt _ _ _ _ _ _ Hy Hx Hlt) as Hyx.
  pose proof (PosIn_Between _ _ _ Hx) as Bx. pose proof (PosIn_Between _ _ _ Hy) as By.
  apply (ltb_fval _ _ _ _ _ _ By Bx) in Hyx.
  destruct (x <? y) eqn:E; [|reflexivity].
  apply (ltb_fval _ _ _ _ _ _ Bx By) in E. lia.
Qed.

(** A float that is at least a positive float and below one. *)
Lemma below_one_Between (lo x : float) :
  in_range lo = true -> (lo <=? x) = true -> (x <? 1) = true ->
  Between (-300) 0 x.
Proof.
  intros Rl H1 H2. apply in_range_Between in Rl.
  destruct (Between_fval _ _ _ Rl) as (ml & el & El & Vl & _ & Hel & Gl).
  pose proof H1 as H1'. rewrite FloatAxioms.leb_spec, El in H1'.
  pose proof H2 as H2'. rewrite FloatAxioms.ltb_spec in H2'.
  change (Prim2SF 1) with (S754_finite false 4503599627370496 (-52)) in H2'.
  destruct (Prim2SF x) as [s|[|]| |[|] m e] eqn:E; try discriminate.
  pose proof (finite_valid _ _ _ _ E) as [_ V].
  pose proof (proj1 (valid_finite _ _ _ V)) as C. rewrite fexp_eq in C.
  apply SFleb_val_iff in H1'; [|assumption|assumption].
  apply val_mag_mono in H1'; [|unfold scale; lia|unfold scale; lia].
  exists m, e. split; [exact E|]. split; [lia|].
  apply SFltb_finite in H2' as [H2'|[H2' H3]]; [lia|].
  pose proof (digits_bounds m). subst e.
  assert (digits m = 53)%Z by (unfold mag in *; lia).
  replace (digits m - 1)%Z with 52%Z in * by lia.
  change (2 ^ 52)%Z with 4503599627370496%Z in *. lia.
Qed.

(** One minus a float in [[lo, 1)] is at most [1 - lo]. *)
Lemma sub_one_upper (lo x : float) :
  in_range lo = true -> (lo <=? x) = true -> (x <? 1) = true ->
  (1 - x <=? 1 - lo) = true /\ Between (-53) 1 (1 - x) /\ Between (-53) 1 (1 - lo).
Proof.
  intros Rl H1 H2.
  pose proof (below_one_Between lo x Rl H1 H2) as Bx.
  assert (Blo : Between (-300) 0 lo).
  { apply (below_one_Between lo lo Rl).
    - apply (leb_refl_Between _ _ _ (in_range_Between _ Rl)).
    - apply (ltb_fval _ _ _ _ _ _ (in_range_Between _ Rl) Between_one).
      apply (leb_fval _ _ _ _ _ _ (in_range_Between _ Rl) Bx) in H1.
      apply (ltb_fval _ _ _ _ _ _ Bx Between_one) in H2. lia. }
  split; [|split].
  - now apply (sub_one_anti (-300)).
  - now apply (sub_one_Between' (-300)).
  - now apply (sub_one_Between' (-300)).
Qed.

(** *** Conversion of a non-negative [int] *)

Lemma of_int_Between (Q : Z) :
  (1 <= Q < 2 ^ 63)%Z -> Between 0 64 (Float64.of_int Q).
Proof.
  intros HQ. unfold Float64.of_int.
  destruct (Z.leb_spec 0 Q) as [_|]; [|lia].
  unfold Between. rewrite of_uint63_spec, Uint63.of_Z_spec.
  rewrite Z.mod_small by (change wB with (2 ^ 63)%Z; lia).
  destruct Q as [|p|p]; try lia. cbn [binary_normalize].
  assert (Hd : (digits p <= 63)%Z) by (apply digits_le; lia).
  pose proof (digits_pos p).
  destruct (binary_round_mag p 0) as (m & e & -> & Hc);
    [unfold mag; lia|unfold mag; lia|].
  exists m, e. split; [reflexivity|]. unfold mag in *. lia.
Qed.

Lemma of_int_ZeroOrBelow (Q : Z) :
  Float64.nonneg_int Q -> ZeroOrBelow 64 (Float64.of_int Q).
Proof.
  intros [H0 H1]. destruct (Z.eq_dec Q 0%Z) as [->|].
  - left. exists false. reflexivity.
  - apply (Between_ZeroOrBelow 0%Z). apply of_int_Between. lia.
Qed.

End Float64_props.

(* ===================================================================== *)
(** ** Properties of the query optimizer *)

Module gcs_props.

Import gcs.
#[local] Open Scope float_scope.

(** A ratio strictly above 0 and at most 1, as float comparisons (both are
    false on NaN). *)
Definition ratio_in_unit (r : float) : bool := (0 <? r) && (r <=? 1).

Definition tag_is_zip_or_hash (t : MatchType) : bool :=
  match t with
  | MatchZip | MatchHash => true
  | MatchBlock => false
  end.

(** The closed forms of the specification, with the weights as
    parameters. *)
Definition spec_costZip (keyWeight sortWeight compareWeight readWeight : float)
  (log2 : float -> float) (Q expQ expN : float) : float :=
  Q * keyWeight + Q * log2 Q * sortWeight + (expQ + expN) * compareWeight
  + expN * readWeight.

Definition spec_costHash (insertWeight readWeight keyWeight lookupWeight : float)
  (N expQ : float) : float :=
  N * (insertWeight + readWeight) + expQ * keyWeight + expQ * lookupWeight.

Definition spec_expQ (m : float) (exp : float -> float) (Q : float) : float :=
  m * (1 - exp (- Q / m)).

Definition spec_expN (Q N expQ : float) : float :=
  ((N + 1) / (Q + 1)) * expQ.



(** *** NaN in binary64 arithmetic *)

Lemma nan_add_l (x : float) : nan + x = nan.
Proof. apply Prim2SF_inj. rewrite add_spec. reflexivity. Qed.

Lemma ltb_nan_l (x : float) : (nan <? x) = false.
Proof. rewrite ltb_spec. reflexivity. Qed.

Lemma div_nan_r (x : float) : x / nan = nan.
Proof.
  apply Prim2SF_inj. rewrite div_spec.
  change (Prim2SF nan) with S754_nan.
  destruct (Prim2SF x); reflexivity.
Qed.

Section Generic.

Variable math_Exp : float -> float.
Variable math_Log2 : float -> float.

Lemma Optimize_unfold (Q N : Z) :
  Optimize math_Exp math_Log2 Q N =
  if zipCost math_Exp math_Log2 Q N <? hashCost math_Exp Q N
  then (MatchZip, zipCost math_Exp math_Log2 Q N / hashCost math_Exp Q N)
  else (MatchHash, hashCost math_Exp Q N / zipCost math_Exp math_Log2 Q N).
Proof. reflexivity. Qed.

Lemma Optimize_tag (Q N : Z) :
  tag_is_zip_or_hash (fst (Optimize math_Exp math_Log2 Q N)) = true.
Proof.
  rewrite Optimize_unfold.
  destruct (zipCost math_Exp math_Log2 Q N <? hashCost math_Exp Q N);
    reflexivity.
Qed.

(** With [math.Log2(0) = -Inf], the sort term [0 * Log2(0)] is NaN and so
    is the whole Zip cost. *)
Lemma costZip_zero_query (expQ expN : float) :
  math_Log2 0 = neg_infinity ->
  costZip math_Log2 0 expQ expN = nan.
Proof.
  intros HL. unfold costZip. rewrite HL.
  change (0 * CostKey + 0 * neg_infinity * CostSort) with nan.
  now rewrite !nan_add_l.
Qed.

Lemma Optimize_zero_query (N : Z) :
  math_Log2 0 = neg_infinity ->
  Optimize math_Exp math_Log2 0 N = (MatchHash, nan).
Proof.
  intros HL. rewrite Optimize_unfold. unfold zipCost.
  change (Float64.of_int 0) with 0.
  rewrite (costZip_zero_query _ _ HL), ltb_nan_l, div_nan_r.
  reflexivity.
Qed.

End Generic.

(** *** Bounds on the cost model *)

Import Float64_props.

Ltac between_const :=
  eexists _, _; split; [vm_compute; reflexivity|vm_compute; split; congruence].

Lemma Between_M : Between 19 20 M.
Proof. between_const. Qed.
Lemma Between_CostKey : Between 1 2 CostKey.
Proof. between_const. Qed.
Lemma Between_CostSort : Between 7 8 CostSort.
Proof. between_const. Qed.
Lemma Between_CostComp : Between 0 1 CostComp.
Proof. between_const. Qed.
Lemma Between_CostRead : Between 4 5 CostRead.
Proof. between_const. Qed.
Lemma Between_CostLookup : Between 4 5 CostLookup.
Proof. between_const. Qed.
Lemma Between_CostInsertRead : Between 6 7 (CostInsert + CostRead).
Proof. between_const. Qed.

(** Neither the numerator [n + 1] nor the denominator [q + 1] of
    [expReads] is zero, and their quotient is a positive finite number. *)
Lemma expReads_quotient_Between (Q N : Z) :
  Float64.nonneg_int Q -> Float64.nonneg_int N ->
  Between 0 66 (Float64.of_int N + 1) /\
  Between 0 66 (Float64.of_int Q + 1) /\
  Between (-66) 67 ((Float64.of_int N + 1) / (Float64.of_int Q + 1)).
Proof.
  intros HQ HN.
  assert (Hn : Between 0 66 (Float64.of_int N + 1)).
  { eapply Between_weaken;
      [exact (add_ZeroOrBelow_Between _ _ _ _ _ (of_int_ZeroOrBelow N HN) Between_one
                ltac:(lia) ltac:(lia))|lia|lia]. }
  assert (Hq : Between 0 66 (Float64.of_int Q + 1)).
  { eapply Between_weaken;
      [exact (add_ZeroOrBelow_Between _ _ _ _ _ (of_int_ZeroOrBelow Q HQ) Between_one
                ltac:(lia) ltac:(lia))|lia|lia]. }
  split; [exact Hn|]. split; [exact Hq|].
  eapply Between_weaken;
    [exact (div_Between_Between _ _ _ _ _ _ Hn Hq ltac:(lia) ltac:(lia))|lia|lia].
Qed.

Section Ratio.

Variable math_Exp : float -> float.
Variable math_Log2 : float -> float.
Variable Q N : Z.

Hypothesis HQ : (1 <= Q < 2 ^ 63)%Z.
Hypothesis HN : Float64.nonneg_int N.

(** What the model needs of the two library functions at this query
    size: a logarithm in [[0, 64]] and an exponential in [[0, 1)]. *)
Hypothesis HLog2 :
  (0 <=? math_Log2 (Float64.of_int Q)) = true /\
  (math_Log2 (Float64.of_int Q) <=? 64) = true.
Hypothesis HExp :
  (0 <=? math_Exp (- Float64.of_int Q / M)) = true /\
  (math_Exp (- Float64.of_int Q / M) <? 1) = true.

Lemma expQueries_Between :
  Between (-34) 22 (expQueries math_Exp (Float64.of_int Q)).
Proof.
  unfold expQueries. destruct HExp as [H0 H1].
  eapply Between_weaken;
    [exact (mul_Between_Between _ _ _ _ _ _ Between_M (sub_one_Between _ H0 H1)
              ltac:(lia) ltac:(lia))|lia|lia].
Qed.

Lemma expReads_Between :
  Between (-100) 90
    (expReads (Float64.of_int Q) (Float64.of_int N)
       (expQueries math_Exp (Float64.of_int Q))).
Proof.
  unfold expReads. assert (HQ0 : Float64.nonneg_int Q) by (unfold Float64.nonneg_int; lia).
  destruct (expReads_quotient_Between Q N HQ0 HN) as (_ & _ & Hd).
  eapply Between_weaken;
    [exact (mul_Between_Between _ _ _ _ _ _ Hd expQueries_Between
              ltac:(lia) ltac:(lia))|lia|lia].
Qed.

Lemma zipCost_Between : Between 1 98 (zipCost math_Exp math_Log2 Q N).
Proof.
  unfold zipCost, costZip. destruct HLog2 as [L0 L1].
  pose proof (of_int_Between Q HQ) as Hq.
  pose proof expQueries_Between as HeQ. pose proof expReads_Between as HeN.
  pose proof (mul_Between_Between _ _ _ _ _ _ Hq Between_CostKey
                ltac:(lia) ltac:(lia)) as T1.
  pose proof (mul_Between_ZeroOrBelow _ _ _ _ _ Hq (log_range _ L0 L1)
                ltac:(lia) ltac:(lia)) as T2.
  pose proof (mul_ZeroOrBelow_Between _ _ _ _ _ T2 Between_CostSort
                ltac:(lia) ltac:(lia)) as T3.
  pose proof (add_Between_ZeroOrBelow _ _ _ _ _ T1 T3
                ltac:(lia) ltac:(lia)) as T4.
  pose proof (add_Between_Between _ _ _ _ _ _ HeQ HeN
                ltac:(lia) ltac:(lia)) as T5.
  pose proof (mul_Between_Between _ _ _ _ _ _ T5 Between_CostComp
                ltac:(lia) ltac:(lia)) as T6.
  pose proof (add_Between_Between _ _ _ _ _ _ T4 T6
                ltac:(lia) ltac:(lia)) as T7.
  pose proof (mul_Between_Between _ _ _ _ _ _ HeN Between_CostRead
                ltac:(lia) ltac:(lia)) as T8.
  eapply Between_weaken;
    [exact (add_Between_Between _ _ _ _ _ _ T7 T8 ltac:(lia) ltac:(lia))|lia|lia].
Qed.

Lemma hashCost_Between : Between (-30) 76 (hashCost math_Exp Q N).
Proof.
  unfold hashCost, costHash.
  pose proof expQueries_Between as HeQ.
  pose proof (mul_ZeroOrBelow_Between _ _ _ _ _ (of_int_ZeroOrBelow N HN)
                Between_CostInsertRead ltac:(lia) ltac:(lia)) as T1.
  pose proof (mul_Between_Between _ _ _ _ _ _ HeQ Between_CostKey
                ltac:(lia) ltac:(lia)) as T2.
  pose proof (add_ZeroOrBelow_Between _ _ _ _ _ T1 T2
                ltac:(lia) ltac:(lia)) as T3.
  pose proof (mul_Between_Between _ _ _ _ _ _ HeQ Between_CostLookup
                ltac:(lia) ltac:(lia)) as T4.
  eapply Between_weaken;
    [exact (add_Between_Between _ _ _ _ _ _ T3 T4 ltac:(lia) ltac:(lia))|lia|lia].
Qed.

Lemma Optimize_ratio_in_unit :
  ratio_in_unit (snd (Optimize math_Exp math_Log2 Q N)) = true.
Proof.
  rewrite Optimize_unfold.
  pose proof zipCost_Between as HZ. pose proof hashCost_Between as HH.
  unfold ratio_in_unit.
  destruct (zipCost math_Exp math_Log2 Q N <? hashCost math_Exp Q N)
    eqn:Hlt; cbn [snd]; apply andb_true_iff; split.
  - eapply Between_gt_zero.
    exact (div_Between_Between _ _ _ _ _ _ HZ HH ltac:(lia) ltac:(lia)).
  - exact (div_lt_le_one _ _ _ _ _ _ HZ HH ltac:(lia) Hlt).
  - eapply Between_gt_zero.
    exact (div_Between_Between _ _ _ _ _ _ HH HZ ltac:(lia) ltac:(lia)).
  - exact (div_not_gt_le_one _ _ _ _ _ _ HH HZ ltac:(lia) Hlt).
Qed.

End Ratio.

(** *** The selection at the two sizes of the concrete check *)

Ltac posin :=
  lazymatch goal with
  | |- PosIn _ _ (_ * _)%float =>
      first
        [ eassumption
        | eapply PosIn_mul;
          [posin|posin|vm_compute; reflexivity|vm_compute; reflexivity] ]
  | |- PosIn _ _ (_ + _)%float =>
      first
        [ eassumption
        | eapply PosIn_add;
          [posin|posin|vm_compute; reflexivity|vm_compute; reflexivity] ]
  | |- PosIn _ _ _ =>
      first [ eassumption | apply PosIn_const; vm_compute; reflexivity ]
  end.

Section ConcreteCheck.

Variable math_Exp : float -> float.
Variable math_Log2 : float -> float.

Lemma sub_one_PosIn (lo x : float) :
  in_range lo = true -> (lo <=? x) = true -> (x <? 1) = true ->
  PosIn 0x1p-54 (1 - lo) (1 - x).
Proof.
  intros Rl H1 H2.
  destruct (sub_one_upper lo x Rl H1 H2) as (Hu & Bx & Bl).
  assert (P : PosIn 0x1p-54 2 (1 - x)).
  { apply (Between_PosIn (-53) 1); [exact Bx| |];
      (eexists _, _; split; [vm_compute; reflexivity|vm_compute; split; congruence]). }
  destruct P as (R1 & _ & L & _).
  split; [exact R1|]. split; [|split; assumption].
  apply (Between_in_range _ _ _ Bl); lia.
Qed.

Lemma sub_one_PosIn_unit (x : float) :
  (0 <=? x) = true -> (x <? 1) = true -> PosIn 0x1p-54 2 (1 - x).
Proof.
  intros H0 H1.
  apply (Between_PosIn (-53) 1); [now apply sub_one_Between| |];
    (eexists _, _; split; [vm_compute; reflexivity|vm_compute; split; congruence]).
Qed.

(** One query against a filter of 1000: Zip, when [math.Log2(1)] is 0 and
    [math.Exp(-1/M)] is in [[1 - 2^-18, 1)]. *)
Lemma Optimize_one_query :
  math_Log2 (Float64.of_int 1) = 0 ->
  (0x1.ffff8p-1 <=? math_Exp (- Float64.of_int 1 / M)) = true ->
  (math_Exp (- Float64.of_int 1 / M) <? 1) = true ->
  fst (Optimize math_Exp math_Log2 1 1000) = MatchZip.
Proof.
  intros HL H1 H2.
  pose proof (sub_one_PosIn 0x1.ffff8p-1 _ ltac:(vm_compute; reflexivity) H1 H2) as HE.
  rewrite Optimize_unfold.
  assert (Hlt : (zipCost math_Exp math_Log2 1 1000
                 <? hashCost math_Exp 1 1000) = true).
  { unfold zipCost, hashCost, costZip, costHash,
      expReads, expQueries.
    rewrite HL.
    change (Float64.of_int 1 * CostKey + Float64.of_int 1 * 0 * CostSort)
      with 3.
    eapply PosIn_lt; [posin|posin|vm_compute; reflexivity]. }
  now rewrite Hlt.
Qed.

(** A million queries against a filter of 1000: Hash, when
    [math.Log2(10^6)] is in [[1, 64]] and [math.Exp(-10^6/M)] in
    [[0, 1)]. *)
Lemma Optimize_million_queries :
  (1 <=? math_Log2 (Float64.of_int 1000000)) = true ->
  (math_Log2 (Float64.of_int 1000000) <=? 64) = true ->
  (0 <=? math_Exp (- Float64.of_int 1000000 / M)) = true ->
  (math_Exp (- Float64.of_int 1000000 / M) <? 1) = true ->
  fst (Optimize math_Exp math_Log2 1000000 1000) = MatchHash.
Proof.
  intros L1 L2 H1 H2.
  pose proof (sub_one_PosIn_unit _ H1 H2) as HE.
  assert (HL : PosIn 1 64 (math_Log2 (Float64.of_int 1000000))).
  { repeat split; try assumption; vm_compute; reflexivity. }
  rewrite Optimize_unfold.
  assert (Hlt : (zipCost math_Exp math_Log2 1000000 1000
                 <? hashCost math_Exp 1000000 1000) = false).
  { unfold zipCost, hashCost, costZip, costHash,
      expReads, expQueries.
    eapply PosIn_not_lt; [posin|posin|vm_compute; reflexivity]. }
  now rewrite Hlt.
Qed.

End ConcreteCheck.

(** *** The reference instance *)

Lemma GoMath_Log2_zero : GoMath.Log2 0 = neg_infinity.
Proof. reflexivity. Qed.

Lemma GoMath_Exp_zero : GoMath.Exp (- 0) = 1.
Proof. reflexivity. Qed.

(** The reference functions on arguments with a known result. *)
Example GoMath_Exp_values :
  GoMath.Exp 1 = 0x1.5bf0a8b145769p+1 /\ GoMath.Exp (- 1) = 0x1.78b56362cef38p-2 /\
  GoMath.Exp neg_infinity = 0 /\ GoMath.Exp infinity = infinity.
Proof. repeat split. Qed.

Example GoMath_Log2_values :
  GoMath.Log2 1 = 0 /\ GoMath.Log2 8 = 3 /\ GoMath.Log2 0x1p63 = 63 /\
  GoMath.Log2 0x1p-3 = -3 /\ GoMath.Log2 infinity = infinity.
Proof. repeat split. Qed.

End gcs_props.

(* ===================================================================== *)
(** ** The reference sort *)

Module GoSort_props.

Import GoSort.

Section InsertionSort.

Context {A : Type}.
Variable less : A -> A -> bool.

(** The adjacent-pair check of [IsSorted], on a list held in reverse. *)
Fixpoint IsSortedRev (rp : list A) : bool :=
  match rp with
  | a :: (b :: _) as t => negb (less a b) && IsSortedRev t
  | _ => true
  end.

Lemma insert_back_perm (x : A) (rp : list A) :
  Permutation (insert_back less x rp) (x :: rp).
Proof.
  induction rp as [|y rp IH]; cbn.
  - reflexivity.
  - destruct (less x y).
    + rewrite IH. apply perm_swap.
    + reflexivity.
Qed.

Lemma fold_insert_back_perm (l acc : list A) :
  Permutation (fold_left (fun rp x => insert_back less x rp) l acc) (l ++ acc).
Proof.
  revert acc. induction l as [|x l IH]; intros acc; cbn.
  - reflexivity.
  - rewrite IH, insert_back_perm. symmetry. apply Permutation_middle.
Qed.

Lemma insertionSort_perm (l : list A) : Permutation (insertionSort less l) l.
Proof.
  unfold insertionSort. rewrite <- Permutation_rev, fold_insert_back_perm.
  now rewrite app_nil_r.
Qed.

Lemma insertionSort_length (l : list A) :
  length (insertionSort less l) = length l.
Proof. apply Permutation_length, insertionSort_perm. Qed.

Lemma IsSorted_snoc (l : list A) (x : A) :
  IsSorted less (l ++ [x]) =
  IsSorted less l && match last l with
                     | Some y => negb (less x y)
                     | None => true
                     end.
Proof.
  induction l as [|a [|b l] IH]; cbn in *.
  - reflexivity.
  - now rewrite !andb_true_r.
  - rewrite IH. now rewrite andb_assoc.
Qed.

Lemma IsSortedRev_rev (rp : list A) : IsSortedRev rp = IsSorted less (rev rp).
Proof.
  induction rp as [|a [|b rp] IH].
  - reflexivity.
  - reflexivity.
  - change (IsSortedRev (a :: b :: rp))
      with (negb (less a b) && IsSortedRev (b :: rp)).
    rewrite IH. change (rev (a :: b :: rp)) with (rev (b :: rp) ++ [a]).
    rewrite IsSorted_snoc. cbn [rev]. rewrite last_snoc. apply andb_comm.
Qed.

Hypothesis less_asym : forall x y, less x y = true -> less y x = false.

Lemma insert_back_sorted (x : A) (rp : list A) :
  IsSortedRev rp = true -> IsSortedRev (insert_back less x rp) = true.
Proof.
  induction rp as [|y rp IH]; intros Hs.
  - reflexivity.
  - cbn [insert_back]. destruct (less x y) eqn:Hxy.
    + assert (Hrp : IsSortedRev rp = true).
      { destruct rp; [reflexivity|]. cbn in Hs.
        now apply andb_true_iff in Hs. }
      specialize (IH Hrp).
      destruct rp as [|z rp].
      * cbn. now rewrite (less_asym _ _ Hxy).
      * cbn [insert_back] in *. cbn in Hs. apply andb_true_iff in Hs as [Hyz _].
        destruct (less x z).
        -- change (negb (less y z) && IsSortedRev (z :: insert_back less x rp) = true).
           now rewrite Hyz, IH.
        -- change (negb (less y x) && IsSortedRev (x :: z :: rp) = true).
           now rewrite (less_asym _ _ Hxy), IH.
    + change (negb (less x y) && IsSortedRev (y :: rp) = true).
      now rewrite Hxy, Hs.
Qed.

Lemma fold_insert_back_sorted (l acc : list A) :
  IsSortedRev acc = true ->
  IsSortedRev (fold_left (fun rp x => insert_back less x rp) l acc) = true.
Proof.
  revert acc. induction l as [|x l IH]; intros acc Hs; cbn.
  - exact Hs.
  - apply IH, insert_back_sorted, Hs.
Qed.

(** The result of [insertionSort] passes [sort.IsSorted]. *)
Lemma insertionSort_sorted (l : list A) :
  IsSorted less (insertionSort less l) = true.
Proof.
  unfold insertionSort. rewrite <- IsSortedRev_rev.
  now apply fold_insert_back_sorted.
Qed.

End InsertionSort.

End GoSort_props.

(* ===================================================================== *)
(** ** Properties of the transaction sort *)

Module txsort_props.

Import txsort.

(** The transaction [tx] is allocated in [h] with the given inputs and
    outputs. *)
Definition allocated (h : heap) (tx : MsgTx.t)
  (ins : list wire.TxIn) (outs : list wire.TxOut) : Prop :=
  txins h !! MsgTx.TxIn tx = Some ins /\
  txouts h !! MsgTx.TxOut tx = Some outs.

(** Every array of [h] is still in [h'], with the same content. *)
Definition preserved (h h' : heap) : Prop :=
  txins h ⊆ txins h' /\ txouts h ⊆ txouts h' /\ ctxouts h ⊆ ctxouts h'.

Definition mkContext (o : wire.TxOut) (c : list Byte.byte) : txOutWithContext :=
  {| TxOut := o; Context := c |}.

(** *** The store *)

Lemma fresh_lookup {V : Type} (m : gmap loc V) : m !! fresh (dom m) = None.
Proof. apply not_elem_of_dom, is_fresh. Qed.

Lemma fresh_insert_subseteq {V : Type} (m : gmap loc V) (v : V) :
  m ⊆ <[fresh (dom m) := v]> m.
Proof. apply insert_subseteq, fresh_lookup. Qed.

Lemma fresh_ne {V : Type} (m : gmap loc V) (l : loc) (v : V) :
  m !! l = Some v -> fresh (dom m) <> l.
Proof. intros H E. rewrite <- E, fresh_lookup in H. discriminate. Qed.

Lemma preserved_refl (h : heap) : preserved h h.
Proof. repeat split; reflexivity. Qed.

Lemma preserved_trans (h1 h2 h3 : heap) :
  preserved h1 h2 -> preserved h2 h3 -> preserved h1 h3.
Proof.
  intros (A1 & B1 & C1) (A2 & B2 & C2).
  repeat split; etransitivity; eassumption.
Qed.

Lemma preserved_allocated (h h' : heap) (tx : MsgTx.t) ins outs :
  preserved h h' -> allocated h tx ins outs -> allocated h' tx ins outs.
Proof.
  intros (A & B & _) (Hi & Ho). split.
  - eapply lookup_weaken; eassumption.
  - eapply lookup_weaken; eassumption.
Qed.

(** *** [wire.MsgTx.Copy] *)

Lemma Copy_spec (h : heap) (tx : MsgTx.t) ins outs :
  allocated h tx ins outs ->
  Copy tx h =
  Ok ({| MsgTx.Version := MsgTx.Version tx;
         MsgTx.TxIn := fresh (dom (txins h));
         MsgTx.TxOut := fresh (dom (txouts h));
         MsgTx.LockTime := MsgTx.LockTime tx |},
      {| txins := <[fresh (dom (txins h)) := ins]> (txins h);
         txouts := <[fresh (dom (txouts h)) := outs]> (txouts h);
         ctxouts := ctxouts h |}).
Proof.
  intros [Hi Ho]. unfold Copy, bind, load_ins, load_outs.
  rewrite Hi. cbn. rewrite Ho. reflexivity.
Qed.

(** *** The loop of [makeSortableOutputContextSlice] *)

Lemma zipContexts_drop (outs : list wire.TxOut) :
  forall (i : nat) (ctxts : list (list Byte.byte)),
  (i + length outs <= length ctxts)%nat ->
  zipContexts i outs ctxts = Some (zip_with mkContext outs (drop i ctxts)).
Proof.
  induction outs as [|o outs IH]; intros i ctxts Hlen; cbn in *.
  - reflexivity.
  - destruct (lookup_lt_is_Some_2 ctxts i ltac:(lia)) as [c Hc].
    rewrite Hc, (IH (S i)) by lia.
    now rewrite (drop_S _ _ _ Hc).
Qed.

Lemma zipContexts_zip (outs : list wire.TxOut) (ctxts : list (list Byte.byte)) :
  length outs = length ctxts ->
  zipContexts 0 outs ctxts = Some (zip_with mkContext outs ctxts).
Proof. intros H. rewrite zipContexts_drop by lia. now rewrite drop_0. Qed.

Lemma makeSortableOutputContextSlice_panic (h : heap) (l : loc) outs ctxts :
  txouts h !! l = Some outs ->
  length outs <> length ctxts ->
  makeSortableOutputContextSlice l ctxts h =
  Panic "length of txouts and contexts must be equal".
Proof.
  intros Ho Hne. unfold makeSortableOutputContextSlice, bind, load_outs.
  rewrite Ho.
  destruct (Nat.eqb_spec (length outs) (length ctxts)); [contradiction|].
  reflexivity.
Qed.

Lemma makeSortableOutputContextSlice_ok (h : heap) (l : loc) outs ctxts :
  txouts h !! l = Some outs ->
  length outs = length ctxts ->
  makeSortableOutputContextSlice l ctxts h =
  Ok (fresh (dom (ctxouts h)),
      {| txins := txins h; txouts := txouts h;
         ctxouts := <[fresh (dom (ctxouts h)) := zip_with mkContext outs ctxts]>
                      (ctxouts h) |}).
Proof.
  intros Ho Hlen. unfold makeSortableOutputContextSlice, bind, load_outs.
  rewrite Ho.
  destruct (Nat.eqb_spec (length outs) (length ctxts)); [|contradiction].
  cbn. now rewrite zipContexts_zip.
Qed.

Lemma zip_with_mkContext_lookup outs ctxts (i : nat) o c :
  outs !! i = Some o -> ctxts !! i = Some c ->
  zip_with mkContext outs ctxts !! i = Some {| TxOut := o; Context := c |}.
Proof. intros Ho Hc. rewrite lookup_zip_with, Ho. cbn. now rewrite Hc. Qed.

Section Sorting.

Variable sort_Sort : forall A : Type, (A -> A -> bool) -> list A -> list A.

Lemma sort_ins_spec (h : heap) (l : loc) ins :
  txins h !! l = Some ins ->
  sort_ins sort_Sort l h =
  Ok (tt, {| txins := <[l := sort_Sort _ sortableInputSlice_Less ins]> (txins h);
             txouts := txouts h; ctxouts := ctxouts h |}).
Proof. intros H. unfold sort_ins, bind, load_ins. now rewrite H. Qed.

Lemma sort_outs_spec (h : heap) (l : loc) outs :
  txouts h !! l = Some outs ->
  sort_outs sort_Sort l h =
  Ok (tt, {| txins := txins h;
             txouts := <[l := sort_Sort _ sortableOutputSlice_Less outs]> (txouts h);
             ctxouts := ctxouts h |}).
Proof. intros H. unfold sort_outs, bind, load_outs. now rewrite H. Qed.

Lemma sort_ctx_spec (h : heap) (l : loc) v :
  ctxouts h !! l = Some v ->
  sort_ctx sort_Sort l h =
  Ok (tt, {| txins := txins h; txouts := txouts h;
             ctxouts := <[l := sort_Sort _ sortableOutputContextSlice_Less v]>
                          (ctxouts h) |}).
Proof. intros H. unfold sort_ctx, bind, load_ctx. now rewrite H. Qed.

(** [InPlaceSort] overwrites the two arrays of its argument. *)
Lemma InPlaceSort_spec (h : heap) (tx : MsgTx.t) ins outs :
  allocated h tx ins outs ->
  InPlaceSort sort_Sort tx h =
  Ok (tt, {| txins := <[MsgTx.TxIn tx :=
                          sort_Sort _ sortableInputSlice_Less ins]> (txins h);
             txouts := <[MsgTx.TxOut tx :=
                          sort_Sort _ sortableOutputSlice_Less outs]> (txouts h);
             ctxouts := ctxouts h |}).
Proof.
  intros [Hi Ho]. unfold InPlaceSort, bind.
  rewrite (sort_ins_spec _ _ _ Hi).
  now rewrite (sort_outs_spec _ _ outs) by exact Ho.
Qed.

(** [Sort] returns a copy whose two arrays are the sorted arrays of the
    argument, and changes no array that existed before the call. *)
Lemma Sort_spec (h : heap) (tx : MsgTx.t) ins outs :
  allocated h tx ins outs ->
  exists tx' h',
    Sort sort_Sort tx h = Ok (tx', h') /\
    preserved h h' /\
    allocated h' tx'
      (sort_Sort _ sortableInputSlice_Less ins)
      (sort_Sort _ sortableOutputSlice_Less outs) /\
    MsgTx.TxIn tx' <> MsgTx.TxIn tx /\ MsgTx.TxOut tx' <> MsgTx.TxOut tx /\
    MsgTx.Version tx' = MsgTx.Version tx /\
    MsgTx.LockTime tx' = MsgTx.LockTime tx.
Proof.
  intros Ha. pose proof Ha as [Hi Ho].
  unfold Sort, bind. rewrite (Copy_spec _ _ _ _ Ha).
  rewrite (sort_ins_spec _ _ ins) by (cbn; apply lookup_insert_eq).
  rewrite (sort_outs_spec _ _ outs) by (cbn; apply lookup_insert_eq).
  cbn. eexists _, _. split; [reflexivity|].
  rewrite !insert_insert_eq.
  split; [|split].
  - repeat split; cbn; try reflexivity; apply fresh_insert_subseteq.
  - split; cbn; apply lookup_insert_eq.
  - cbn. repeat split; eauto using fresh_ne.
Qed.

(** [ContextualSort] sorts the inputs of the copy it returns, and a
    temporary slice of outputs with contexts; the outputs of the copy keep
    the order they have in the argument. *)
Lemma ContextualSort_spec (h : heap) (tx : MsgTx.t) ins outs ctxts :
  allocated h tx ins outs ->
  length outs = length ctxts ->
  exists tx' h',
    ContextualSort sort_Sort tx ctxts h = Ok (tx', h') /\
    preserved h h' /\
    allocated h' tx' (sort_Sort _ sortableInputSlice_Less ins) outs /\
    MsgTx.TxIn tx' <> MsgTx.TxIn tx /\ MsgTx.TxOut tx' <> MsgTx.TxOut tx.
Proof.
  intros Ha Hlen. pose proof Ha as [Hi Ho].
  unfold ContextualSort, bind. rewrite (Copy_spec _ _ _ _ Ha).
  rewrite (sort_ins_spec _ _ ins) by (cbn; apply lookup_insert_eq).
  rewrite (makeSortableOutputContextSlice_ok _ _ outs) by
    (cbn; first [assumption
                | rewrite lookup_insert_ne by eauto using fresh_ne; assumption]).
  cbn.
  rewrite (sort_ctx_spec _ _ (zip_with mkContext outs ctxts))
    by (cbn; apply lookup_insert_eq).
  cbn. eexists _, _. split; [reflexivity|].
  rewrite !insert_insert_eq.
  split; [|split].
  - repeat split; cbn; apply fresh_insert_subseteq.
  - split; cbn; apply lookup_insert_eq.
  - cbn. split; eauto using fresh_ne.
Qed.

Lemma ContextualSort_panic (h : heap) (tx : MsgTx.t) ins outs ctxts :
  allocated h tx ins outs ->
  length outs <> length ctxts ->
  ContextualSort sort_Sort tx ctxts h =
  Panic "length of txouts and contexts must be equal".
Proof.
  intros Ha Hne. pose proof Ha as [Hi Ho].
  unfold ContextualSort, bind. rewrite (Copy_spec _ _ _ _ Ha).
  rewrite (sort_ins_spec _ _ ins) by (cbn; apply lookup_insert_eq).
  rewrite (makeSortableOutputContextSlice_panic _ _ outs); [reflexivity| |assumption].
  cbn. now rewrite lookup_insert_ne by eauto using fresh_ne.
Qed.

(** [InPlaceContextualSort] sorts the inputs of its argument in place; its
    outputs stay as they are. *)
Lemma InPlaceContextualSort_spec (h : heap) (tx : MsgTx.t) ins outs ctxts :
  allocated h tx ins outs ->
  length outs = length ctxts ->
  exists h',
    InPlaceContextualSort sort_Sort tx ctxts h = Ok (tt, h') /\
    allocated h' tx (sort_Sort _ sortableInputSlice_Less ins) outs.
Proof.
  intros [Hi Ho] Hlen. unfold InPlaceContextualSort, bind.
  rewrite (sort_ins_spec _ _ _ Hi).
  rewrite (makeSortableOutputContextSlice_ok _ _ outs) by assumption.
  rewrite (sort_ctx_spec _ _ (zip_with mkContext outs ctxts))
    by (cbn; apply lookup_insert_eq).
  eexists. split; [reflexivity|].
  split; cbn; [apply lookup_insert_eq | assumption].
Qed.

Lemma InPlaceContextualSort_panic (h : heap) (tx : MsgTx.t) ins outs ctxts :
  allocated h tx ins outs ->
  length outs <> length ctxts ->
  InPlaceContextualSort sort_Sort tx ctxts h =
  Panic "length of txouts and contexts must be equal".
Proof.
  intros [Hi Ho] Hne. unfold InPlaceContextualSort, bind.
  rewrite (sort_ins_spec _ _ _ Hi).
  now rewrite (makeSortableOutputContextSlice_panic _ _ outs).
Qed.

End Sorting.

(** [IsContextualSorted] returns before it builds the contextual slice
    when the inputs are not sorted. *)
Lemma IsContextualSorted_unsorted_inputs (h : heap) (tx : MsgTx.t) ins ctxts :
  txins h !! MsgTx.TxIn tx = Some ins ->
  GoSort.IsSorted sortableInputSlice_Less ins = false ->
  IsContextualSorted tx ctxts h = Ok (false, h).
Proof.
  intros Hi Hs. unfold IsContextualSorted, bind, load_ins.
  rewrite Hi, Hs. reflexivity.
Qed.

Lemma IsContextualSorted_panic (h : heap) (tx : MsgTx.t) ins outs ctxts :
  allocated h tx ins outs ->
  GoSort.IsSorted sortableInputSlice_Less ins = true ->
  length outs <> length ctxts ->
  IsContextualSorted tx ctxts h =
  Panic "length of txouts and contexts must be equal".
Proof.
  intros [Hi Ho] Hs Hne. unfold IsContextualSorted, bind, load_ins.
  rewrite Hi, Hs. cbn.
  now rewrite (makeSortableOutputContextSlice_panic _ _ outs).
Qed.

Lemma IsContextualSorted_ok (h : heap) (tx : MsgTx.t) ins outs ctxts :
  allocated h tx ins outs ->
  length outs = length ctxts ->
  exists b h', IsContextualSorted tx ctxts h = Ok (b, h').
Proof.
  intros [Hi Ho] Hlen. unfold IsContextualSorted, bind, load_ins.
  rewrite Hi.
  destruct (GoSort.IsSorted sortableInputSlice_Less ins); cbn; [|eauto].
  rewrite (makeSortableOutputContextSlice_ok _ _ outs) by assumption.
  unfold load_ctx. cbn. rewrite lookup_insert_eq.
  destruct (GoSort.IsSorted _ _); cbn; eauto.
Qed.

(** *** The orders are asymmetric, so the reference sort sorts *)

Lemma bytes_Compare_antisym (a b : list Byte.byte) :
  bytes_Compare b a = - bytes_Compare a b.
Proof.
  revert b. induction a as [|x a IH]; intros [|y b]; cbn; try reflexivity.
  rewrite (N.compare_antisym (Byte.to_N x) (Byte.to_N y)).
  destruct (Byte.to_N x ?= Byte.to_N y)%N; cbn; auto.
Qed.

Lemma sortableInputSlice_Less_asym (a b : wire.TxIn) :
  sortableInputSlice_Less a b = true -> sortableInputSlice_Less b a = false.
Proof.
  unfold sortableInputSlice_Less.
  destruct (decide (wire.Hash (wire.PreviousOutPoint a) =
                    wire.Hash (wire.PreviousOutPoint b))) as [E|NE].
  - rewrite !bool_decide_eq_true_2 by congruence. lia.
  - rewrite !bool_decide_eq_false_2 by congruence.
    rewrite (bytes_Compare_antisym (rev (wire.Hash (wire.PreviousOutPoint a)))).
    lia.
Qed.

Lemma sortableOutputSlice_Less_asym (a b : wire.TxOut) :
  sortableOutputSlice_Less a b = true -> sortableOutputSlice_Less b a = false.
Proof.
  unfold sortableOutputSlice_Less.
  rewrite (bytes_Compare_antisym (wire.PkScript a)).
  destruct (Z.eqb_spec (wire.Value a) (wire.Value b)),
           (Z.eqb_spec (wire.Value b) (wire.Value a)); try congruence; lia.
Qed.

Lemma sortableOutputContextSlice_Less_asym (a b : txOutWithContext) :
  sortableOutputContextSlice_Less a b = true ->
  sortableOutputContextSlice_Less b a = false.
Proof.
  unfold sortableOutputContextSlice_Less.
  rewrite (bytes_Compare_antisym (wire.PkScript (TxOut a))).
  rewrite (bytes_Compare_antisym (Context a)).
  destruct (Z.eqb_spec (wire.Value (TxOut a)) (wire.Value (TxOut b))),
           (Z.eqb_spec (wire.Value (TxOut b)) (wire.Value (TxOut a)));
    try congruence; cbn; try lia.
  destruct (Z.eqb_spec (bytes_Compare (wire.PkScript (TxOut a))
                                      (wire.PkScript (TxOut b))) 0),
           (Z.eqb_spec (- bytes_Compare (wire.PkScript (TxOut a))
                                        (wire.PkScript (TxOut b))) 0);
    cbn; lia.
Qed.

(** With the reference sort, the transaction [Sort] returns passes
    [IsSorted], and the argument still holds what it held. *)
Lemma Sort_sorted (h : heap) (tx : MsgTx.t) ins outs :
  allocated h tx ins outs ->
  exists tx' h',
    Sort (@GoSort.insertionSort) tx h = Ok (tx', h') /\
    allocated h' tx ins outs /\
    IsSorted tx' h' = Ok (true, h').
Proof.
  intros Ha.
  destruct (Sort_spec (@GoSort.insertionSort) _ _ _ _ Ha)
    as (tx' & h' & HS & Hp & [Hi Ho] & _).
  exists tx', h'. split; [exact HS|]. split.
  - eapply preserved_allocated; eassumption.
  - unfold IsSorted, bind, load_ins, load_outs. rewrite Hi.
    rewrite GoSort_props.insertionSort_sorted
      by exact sortableInputSlice_Less_asym.
    cbn. rewrite Ho.
    rewrite GoSort_props.insertionSort_sorted
      by exact sortableOutputSlice_Less_asym.
    reflexivity.
Qed.

End txsort_props.

(* ===================================================================== *)
(** ** Properties of the matchers *)

Module matcher_props.
Import matcher.
#[local] Open Scope N_scope.

Definition intersects (filter queries : list N) : Prop :=
  exists x, x ∈ filter /\ x ∈ queries.

Lemma decode_lower (deltas : list N) :
  forall prev x, x ∈ decode prev deltas -> prev <= x.
Proof.
  induction deltas as [|d ds IH]; intros prev x Hx; cbn in Hx.
  - inversion Hx.
  - apply elem_of_cons in Hx as [->|Hx]; [lia|].
    apply IH in Hx. lia.
Qed.

Lemma decode_sorted (deltas : list N) :
  forall prev, StronglySorted N.le (decode prev deltas).
Proof.
  induction deltas as [|d ds IH]; intros prev; cbn; constructor.
  - apply IH.
  - apply Forall_forall. intros x Hx. now apply decode_lower in Hx.
Qed.

Lemma zipMatchAny_nil_r (filter : list N) : zipMatchAny filter [] = false.
Proof. now destruct filter. Qed.

Lemma zipMatchAny_intersects (filter : list N) :
  StronglySorted N.le filter ->
  forall queries, StronglySorted N.le queries ->
  zipMatchAny filter queries = true <-> intersects filter queries.
Proof.
  induction 1 as [|f filter Hf IHf Hall].
  - intros queries _. cbn. split; [now destruct queries|].
    intros (x & Hx & _). inversion Hx.
  - induction 1 as [|q queries Hq IHq Hallq].
    + cbn. split; [discriminate|]. intros (x & _ & Hx). inversion Hx.
    + cbn [zipMatchAny].
      assert (Hsq : StronglySorted N.le (q :: queries)) by now constructor.
      rewrite Forall_forall in Hall, Hallq.
      destruct (N.eqb_spec f q) as [->|Hne].
      { split; [|reflexivity]. intros _. exists q. split; left. }
      destruct (N.ltb_spec f q) as [Hlt|Hge].
      * rewrite IHf by exact Hsq.
        split; intros (x & Hx1 & Hx2).
        -- exists x. split; [now right|exact Hx2].
        -- exists x. split; [|exact Hx2].
           apply elem_of_cons in Hx1 as [->|Hx1]; [|exact Hx1].
           apply elem_of_cons in Hx2 as [->|Hx2]; [lia|].
           apply Hallq in Hx2. lia.
      * change ((fix walk (queries0 : list N) : bool :=
                   match queries0 with
                   | [] => false
                   | q0 :: queries' =>
                       if f =? q0 then true
                       else if f <? q0 then zipMatchAny filter queries0
                       else walk queries'
                   end) queries)
          with (zipMatchAny (f :: filter) queries).
        rewrite IHq.
        split; intros (x & Hx1 & Hx2).
        -- exists x. split; [exact Hx1|now right].
        -- exists x. split; [exact Hx1|].
           apply elem_of_cons in Hx2 as [->|Hx2]; [|exact Hx2].
           apply elem_of_cons in Hx1 as [->|Hx1]; [lia|].
           apply Hall in Hx1. lia.
Qed.

Lemma buildSet_elem (filter : list N) (x : N) :
  x ∈ buildSet filter <-> x ∈ filter.
Proof.
  unfold buildSet.
  assert (G : forall (s : gset N), x ∈ foldl (fun set v => {[ v ]} ∪ set) s filter
                       <-> x ∈ filter \/ x ∈ s).
  { induction filter as [|v filter IH]; intros s; cbn.
    - split; [now right|]. intros [H|H]; [inversion H|exact H].
    - rewrite IH, elem_of_cons, elem_of_union, elem_of_singleton. tauto. }
  rewrite G, elem_of_empty. tauto.
Qed.

Lemma probeAny_intersects (set : gset N) (queries : list N) :
  probeAny set queries = true <-> exists x, x ∈ set /\ x ∈ queries.
Proof.
  induction queries as [|q queries IH]; cbn.
  - split; [discriminate|]. intros (x & _ & Hx). inversion Hx.
  - destruct (decide (q ∈ set)) as [Hin|Hnin].
    + rewrite bool_decide_eq_true_2 by exact Hin.
      split; [|reflexivity]. intros _. exists q. split; [exact Hin|left].
    + rewrite bool_decide_eq_false_2 by exact Hnin. rewrite IH.
      split; intros (x & Hx1 & Hx2).
      * exists x. split; [exact Hx1|now right].
      * exists x. split; [exact Hx1|].
        apply elem_of_cons in Hx2 as [->|Hx2]; [contradiction|exact Hx2].
Qed.

Lemma HashMatcher_intersects (filter queries : list N) :
  HashMatcher filter queries = true <-> intersects filter queries.
Proof.
  unfold HashMatcher, intersects. rewrite probeAny_intersects.
  split; intros (x & Hx1 & Hx2); exists x; split; try exact Hx2;
    now apply buildSet_elem.
Qed.

Lemma bool_eq_iff (a b : bool) : (a = true <-> b = true) -> a = b.
Proof. destruct a, b; intuition congruence. Qed.

Lemma zipMatchAny_HashMatcher (filter queries : list N) :
  StronglySorted N.le filter -> StronglySorted N.le queries ->
  zipMatchAny filter queries = HashMatcher filter queries.
Proof.
  intros Hf Hq. apply bool_eq_iff.
  now rewrite zipMatchAny_intersects, HashMatcher_intersects.
Qed.

Lemma MergeMatcher_HashMatcher (filter queries : list N) :
  StronglySorted N.le filter ->
  MergeMatcher filter queries = HashMatcher filter queries.
Proof.
  intros Hf. apply bool_eq_iff. unfold MergeMatcher.
  rewrite zipMatchAny_intersects, HashMatcher_intersects.
  - unfold intersects. split; intros (x & Hx1 & Hx2); exists x; split; auto.
    + now rewrite merge_sort_Permutation in Hx2.
    + now rewrite merge_sort_Permutation.
  - exact Hf.
  - apply (StronglySorted_merge_sort N.le).
Qed.

End matcher_props.

(* ===================================================================== *)
(** ** The claims about the query optimizer *)

Module gcs_claims.
Import gcs gcs_props.
#[local] Open Scope float_scope.

(** The query and filter sizes of [TestOptimize]. *)
Definition test_filter_sizes : list Z := [1; 10; 100; 1000; 10000]%Z.
Definition test_query_sizes : list Z :=
  [1; 10; 100; 1000; 10000; 100000; 1000000]%Z.

(** C4: [Optimize] returns [(Zip, costZip / costHash)] exactly when
    [costZip < costHash], and [(Hash, costHash / costZip)] otherwise, where
    the two costs are the estimates for its arguments. *)
Theorem Optimize_selects_cheaper (math_Exp math_Log2 : float -> float)
  (Q N : Z) :
  let cZip := zipCost math_Exp math_Log2 Q N in
  let cHash := hashCost math_Exp Q N in
  Optimize math_Exp math_Log2 Q N =
    (if cZip <? cHash then (MatchZip, cZip / cHash)
     else (MatchHash, cHash / cZip)) /\
  (Optimize math_Exp math_Log2 Q N = (MatchZip, cZip / cHash)
   <-> (cZip <? cHash) = true) /\
  (Optimize math_Exp math_Log2 Q N = (MatchHash, cHash / cZip)
   <-> (cZip <? cHash) = false).
Proof.
  cbv zeta. rewrite Optimize_unfold.
  destruct (zipCost math_Exp math_Log2 Q N <? hashCost math_Exp Q N);
    repeat split; intros; try reflexivity; try discriminate.
Qed.

(** C5: the two cost estimates are the closed forms of the specification
    with the weights sort = 130, read = 30, insert = 45, lookup = 30,
    compare = 1 and key = 3; the query-side terms of [costHash] are
    weighted by [expQ], and its first argument [q] is not used. *)
Theorem cost_closed_forms (math_Log2 : float -> float)
  (Q N expQ expN : float) :
  costZip math_Log2 Q expQ expN =
    spec_costZip 3 130 1 30 math_Log2 Q expQ expN /\
  costHash Q N expQ = spec_costHash 45 30 3 30 N expQ /\
  (CostSort, CostRead, CostInsert, CostLookup, CostComp, CostKey) =
    (130, 30, 45, 30, 1, 3) /\
  (forall Q', costHash Q' N expQ = costHash Q N expQ).
Proof. repeat split. Qed.

(** With the reference [math.Exp] and [math.Log2], by evaluation. *)
Lemma Optimize_reference_selection :
  Optimize GoMath.Exp GoMath.Log2 1 1000
    = (MatchZip, 0x1.a799628b7d764p-3) /\
  Optimize GoMath.Exp GoMath.Log2 1000000 1000
    = (MatchHash, 0x1.d923bdb587fa9p-8).
Proof. split; vm_compute; reflexivity. Qed.

(** C7: with [M = 784931] and a filter of 1000 elements, [Optimize]
    selects Zip for one query and Hash for a million, for every library
    whose [math.Log2] gives 0 at 1 and a value in [[1, 64]] at a million,
    and whose [math.Exp] gives a value in [[1 - 2^-18, 1)] at [-1/M] and
    in [[0, 1)] at [-10^6/M]. *)
Theorem Optimize_concrete_selection (math_Exp math_Log2 : float -> float)
  (HLog2_one : math_Log2 (Float64.of_int 1) = 0)
  (HExp_one :
     (0x1.ffff8p-1 <=? math_Exp (- Float64.of_int 1 / M)) = true /\
     (math_Exp (- Float64.of_int 1 / M) <? 1) = true)
  (HLog2_million :
     (1 <=? math_Log2 (Float64.of_int 1000000)) = true /\
     (math_Log2 (Float64.of_int 1000000) <=? 64) = true)
  (HExp_million :
     (0 <=? math_Exp (- Float64.of_int 1000000 / M)) = true /\
     (math_Exp (- Float64.of_int 1000000 / M) <? 1) = true) :
  M = 784931 /\
  fst (Optimize math_Exp math_Log2 1 1000) = MatchZip /\
  fst (Optimize math_Exp math_Log2 1000000 1000) = MatchHash.
Proof.
  split; [reflexivity|]. split.
  - destruct HExp_one. now apply Optimize_one_query.
  - destruct HLog2_million, HExp_million. now apply Optimize_million_queries.
Qed.

Lemma Optimize_concrete_selection_witness :
  M = 784931 /\
  fst (Optimize GoMath.Exp GoMath.Log2 1 1000) = MatchZip /\
  fst (Optimize GoMath.Exp GoMath.Log2 1000000 1000) = MatchHash.
Proof.
  apply (Optimize_concrete_selection GoMath.Exp GoMath.Log2).
  - vm_compute. reflexivity.
  - split; vm_compute; reflexivity.
  - split; vm_compute; reflexivity.
  - split; vm_compute; reflexivity.
Defined.


(** C1, at the input that refutes it: for an empty query the ratio is NaN,
    which is not in (0, 1]. *)
Lemma Optimize_empty_query_ratio :
  Float64.nonneg_int 0 /\ Float64.nonneg_int 1000 /\
  Optimize GoMath.Exp GoMath.Log2 0 1000 = (MatchHash, nan) /\
  ratio_in_unit (snd (Optimize GoMath.Exp GoMath.Log2 0 1000)) = false.
Proof. repeat split; try (vm_compute; congruence). Qed.

(** C2, at the input that refutes it: for an empty query and an empty
    filter [Optimize] selects Hash, not Zip. *)
Lemma Optimize_empty_query_tag :
  Optimize GoMath.Exp GoMath.Log2 0 0 = (MatchHash, nan) /\
  MatchType_value (fst (Optimize GoMath.Exp GoMath.Log2 0 0)) =
    MatchType_value MatchHash /\
  (MatchType_value MatchHash =? MatchType_value MatchZip)%Z = false.
Proof. repeat split. Qed.

(** C2, as amended: for an empty query the Zip cost is NaN
    ([0 * Log2(0)] with [Log2(0) = -Inf]), the comparison fails and
    [Optimize] returns Hash with a NaN ratio, whatever the filter size; for
    an empty filter the tag is Zip or Hash and the term of [costHash]
    weighted by [N] is zero, which leaves the two terms in [expQ]. *)
Theorem Optimize_boundaries (math_Exp math_Log2 : float -> float)
  (HLog2 : math_Log2 0 = neg_infinity) (Q N : Z) :
  Optimize math_Exp math_Log2 0 N = (MatchHash, nan) /\
  zipCost math_Exp math_Log2 0 N = nan /\
  tag_is_zip_or_hash (fst (Optimize math_Exp math_Log2 Q 0)) = true /\
  Float64.of_int 0 * (CostInsert + CostRead) = 0 /\
  hashCost math_Exp Q 0 =
    0 + expQueries math_Exp (Float64.of_int Q) * CostKey
      + expQueries math_Exp (Float64.of_int Q) * CostLookup.
Proof.
  split; [|split; [|split; [|split]]].
  - now apply Optimize_zero_query.
  - unfold zipCost. change (Float64.of_int 0) with 0.
    now apply costZip_zero_query.
  - apply Optimize_tag.
  - reflexivity.
  - reflexivity.
Qed.

Lemma Optimize_boundaries_witness :
  Optimize GoMath.Exp GoMath.Log2 0 1000 = (MatchHash, nan) /\
  zipCost GoMath.Exp GoMath.Log2 0 1000 = nan /\
  tag_is_zip_or_hash (fst (Optimize GoMath.Exp GoMath.Log2 5 0)) = true /\
  Float64.of_int 0 * (CostInsert + CostRead) = 0 /\
  hashCost GoMath.Exp 5 0 =
    0 + expQueries GoMath.Exp (Float64.of_int 5) * CostKey
      + expQueries GoMath.Exp (Float64.of_int 5) * CostLookup.
Proof.
  apply (Optimize_boundaries GoMath.Exp GoMath.Log2 GoMath_Log2_zero 5 1000).
Defined.

(** C1, as amended: for every query size [Q >= 1] and filter size
    [N >= 0] in the range of [int], [Optimize] returns the tag Zip or Hash
    (never Block; this holds for all integers) and a ratio strictly above 0
    and at most 1, given that at this [Q] the library returns a logarithm
    [math.Log2(Q)] in [[0, 64]] and an exponential [math.Exp(-Q/M)] in
    [[0, 1)]. *)
Theorem Optimize_tag_and_ratio (math_Exp math_Log2 : float -> float)
  (Q N : Z)
  (HQ : (1 <= Q < 2 ^ 63)%Z)
  (HN : Float64.nonneg_int N)
  (HLog2 : (0 <=? math_Log2 (Float64.of_int Q)) = true /\
           (math_Log2 (Float64.of_int Q) <=? 64) = true)
  (HExp : (0 <=? math_Exp (- Float64.of_int Q / M)) = true /\
          (math_Exp (- Float64.of_int Q / M) <? 1) = true) :
  tag_is_zip_or_hash (fst (Optimize math_Exp math_Log2 Q N)) = true /\
  ratio_in_unit (snd (Optimize math_Exp math_Log2 Q N)) = true /\
  (forall Q' N' : Z,
     tag_is_zip_or_hash (fst (Optimize math_Exp math_Log2 Q' N')) = true).
Proof.
  split; [apply Optimize_tag|]. split; [|intros; apply Optimize_tag].
  now apply Optimize_ratio_in_unit.
Qed.

Lemma Optimize_tag_and_ratio_witness :
  tag_is_zip_or_hash (fst (Optimize GoMath.Exp GoMath.Log2 1 1000)) = true /\
  ratio_in_unit (snd (Optimize GoMath.Exp GoMath.Log2 1 1000)) = true /\
  (forall Q' N' : Z,
     tag_is_zip_or_hash (fst (Optimize GoMath.Exp GoMath.Log2 Q' N')) = true).
Proof.
  apply (Optimize_tag_and_ratio GoMath.Exp GoMath.Log2 1 1000).
  - lia.
  - unfold Float64.nonneg_int. lia.
  - split; vm_compute; reflexivity.
  - split; vm_compute; reflexivity.
Defined.

(** With the reference library, every call of [TestOptimize] returns Zip
    or Hash and a ratio in (0, 1]. *)
Lemma TestOptimize_grid :
  forallb (fun n =>
    forallb (fun q =>
      tag_is_zip_or_hash (fst (Optimize GoMath.Exp GoMath.Log2 q n)) &&
      ratio_in_unit (snd (Optimize GoMath.Exp GoMath.Log2 q n)))
      test_query_sizes) test_filter_sizes = true.
Proof. vm_compute. reflexivity. Qed.

(** C6: [expQueries] and [expReads] are the closed forms of the
    specification with [M = 784931], and for non-negative sizes the
    [+ 1] terms make the numerator and the denominator of [expReads]
    positive finite numbers, so that no division by zero occurs, also
    when [Q] or [N] is zero. *)
Theorem expectation_closed_forms (math_Exp : float -> float) (Q N : Z)
  (HQ : Float64.nonneg_int Q) (HN : Float64.nonneg_int N) :
  (forall q, expQueries math_Exp q = spec_expQ 784931 math_Exp q) /\
  (forall q n expQ, expReads q n expQ = spec_expN q n expQ) /\
  M = 784931 /\
  (Float64.of_int Q + 1 =? 0) = false /\
  Float64_props.Between 0 66 (Float64.of_int Q + 1) /\
  Float64_props.Between 0 66 (Float64.of_int N + 1) /\
  Float64_props.Between (-66) 67
    ((Float64.of_int N + 1) / (Float64.of_int Q + 1)).
Proof.
  destruct (expReads_quotient_Between Q N HQ HN) as (Hn & Hq & Hd).
  repeat split; try assumption; try reflexivity.
  exact (Float64_props.Between_not_zero _ _ _ Hq).
Qed.

Lemma expectation_closed_forms_witness :
  (forall q, expQueries GoMath.Exp q = spec_expQ 784931 GoMath.Exp q) /\
  (forall q n expQ, expReads q n expQ = spec_expN q n expQ) /\
  M = 784931 /\
  (Float64.of_int 0 + 1 =? 0) = false /\
  Float64_props.Between 0 66 (Float64.of_int 0 + 1) /\
  Float64_props.Between 0 66 (Float64.of_int 0 + 1) /\
  Float64_props.Between (-66) 67
    ((Float64.of_int 0 + 1) / (Float64.of_int 0 + 1)).
Proof.
  apply (expectation_closed_forms GoMath.Exp 0 0);
    unfold Float64.nonneg_int; lia.
Defined.

End gcs_claims.

(* ===================================================================== *)
(** ** The claims about the transaction sort *)

Module txsort_claims.

Import txsort txsort_props.

(** A transaction with two inputs and two outputs, both out of order. *)
Definition out (v : Z) : wire.TxOut :=
  {| wire.Value := v; wire.PkScript := [] |}.

Definition inp (i : Z) : wire.TxIn :=
  {| wire.PreviousOutPoint := {| wire.Hash := []; wire.Index := i |};
     wire.SignatureScript := []; wire.Witness := []; wire.Sequence := 0 |}.

Definition tx0 : MsgTx.t :=
  {| MsgTx.Version := 1; MsgTx.TxIn := 1%positive;
     MsgTx.TxOut := 1%positive; MsgTx.LockTime := 0 |}.

Definition h0 : heap :=
  {| txins := {[ 1%positive := [inp 1; inp 0] ]};
     txouts := {[ 1%positive := [out 2; out 1] ]};
     ctxouts := ∅ |}.

(** What a caller observes of [ContextualSort]: the outputs of the
    argument after the call, the outputs of the returned transaction, and
    whether [IsContextualSorted] accepts the returned transaction. *)
Definition observe_ContextualSort (tx : MsgTx.t)
  (ctxts : list (list Byte.byte)) (h : heap)
  : option (option (list wire.TxOut) * option (list wire.TxOut) * bool) :=
  match ContextualSort (@GoSort.insertionSort) tx ctxts h with
  | Ok (tx', h') =>
      match IsContextualSorted tx' ctxts h' with
      | Ok (b, _) =>
          Some (txouts h' !! MsgTx.TxOut tx, txouts h' !! MsgTx.TxOut tx', b)
      | Panic _ => None
      end
  | Panic _ => None
  end.

(** C9, where the code departs from it: [ContextualSort] leaves its
    argument as it was, but the transaction it returns still has the
    outputs in the order of the argument, and [IsContextualSorted] rejects
    it. *)
Theorem ContextualSort_returns_unsorted_outputs :
  observe_ContextualSort tx0 [[]; []] h0 =
  Some (Some [out 2; out 1], Some [out 2; out 1], false).
Proof. vm_compute. reflexivity. Qed.

(** C10, at the input that refutes it: with unsorted inputs
    [IsContextualSorted] returns false and does not panic, although there
    are two outputs and one context. *)
Lemma IsContextualSorted_no_panic :
  txouts h0 !! MsgTx.TxOut tx0 = Some [out 2; out 1] /\
  (length [out 2; out 1] =? length [[] : list Byte.byte])%nat = false /\
  IsContextualSorted tx0 [[]] h0 = Ok (false, h0) /\
  is_panic (IsContextualSorted tx0 [[]] h0) = false.
Proof. repeat split. Qed.

(** C10, as amended: [makeSortableOutputContextSlice], [ContextualSort]
    and [InPlaceContextualSort] panic if and only if the number of outputs
    differs from the number of contexts; [IsContextualSorted] panics if and
    only if, in addition, the inputs are sorted (it returns false before it
    builds the slice otherwise); with equal lengths none of them panics and
    the slice pairs output [i] with context [i]. *)
Theorem contextual_panic_iff
  (sort_Sort : forall A : Type, (A -> A -> bool) -> list A -> list A)
  (h : heap) (tx : MsgTx.t) (ins : list wire.TxIn) (outs : list wire.TxOut)
  (ctxts : list (list Byte.byte))
  (Halloc : allocated h tx ins outs) :
  let differ := negb (length outs =? length ctxts)%nat in
  is_panic (makeSortableOutputContextSlice (MsgTx.TxOut tx) ctxts h) = differ /\
  is_panic (ContextualSort sort_Sort tx ctxts h) = differ /\
  is_panic (InPlaceContextualSort sort_Sort tx ctxts h) = differ /\
  is_panic (IsContextualSorted tx ctxts h) =
    GoSort.IsSorted sortableInputSlice_Less ins && differ /\
  (differ = false ->
   exists s h' v,
     makeSortableOutputContextSlice (MsgTx.TxOut tx) ctxts h = Ok (s, h') /\
     ctxouts h' !! s = Some v /\
     length v = length outs /\
     forall (i : nat) o c,
       outs !! i = Some o -> ctxts !! i = Some c ->
       v !! i = Some {| TxOut := o; Context := c |}).
Proof.
  cbv zeta. pose proof Halloc as [Hi Ho].
  destruct (Nat.eqb_spec (length outs) (length ctxts)) as [Heq|Hne]; cbn [negb].
  - split; [|split; [|split; [|split]]].
    + now rewrite (makeSortableOutputContextSlice_ok _ _ outs).
    + destruct (ContextualSort_spec sort_Sort _ _ _ _ _ Halloc Heq)
        as (tx' & h' & -> & _). reflexivity.
    + destruct (InPlaceContextualSort_spec sort_Sort _ _ _ _ _ Halloc Heq)
        as (h' & -> & _). reflexivity.
    + destruct (IsContextualSorted_ok _ _ _ _ _ Halloc Heq) as (b & h' & ->).
      cbn. now rewrite andb_false_r.
    + intros _. eexists _, _, _.
      split; [now apply (makeSortableOutputContextSlice_ok _ _ outs)|].
      cbn. split; [apply lookup_insert_eq|]. split.
      * rewrite length_zip_with. lia.
      * intros i o c. apply zip_with_mkContext_lookup.
  - split; [|split; [|split; [|split]]].
    + now rewrite (makeSortableOutputContextSlice_panic _ _ outs).
    + now rewrite (ContextualSort_panic sort_Sort _ _ ins outs).
    + now rewrite (InPlaceContextualSort_panic sort_Sort _ _ ins outs).
    + destruct (GoSort.IsSorted sortableInputSlice_Less ins) eqn:Hs.
      * now rewrite (IsContextualSorted_panic _ _ ins outs).
      * now rewrite (IsContextualSorted_unsorted_inputs _ _ ins).
    + discriminate.
Qed.

Lemma h0_allocated : allocated h0 tx0 [inp 1; inp 0] [out 2; out 1].
Proof. split; reflexivity. Defined.

Lemma contextual_panic_iff_witness :
  is_panic (makeSortableOutputContextSlice (MsgTx.TxOut tx0) [[]; []] h0)
    = false /\
  is_panic (ContextualSort (@GoSort.insertionSort) tx0 [[]; []] h0) = false /\
  is_panic (InPlaceContextualSort (@GoSort.insertionSort) tx0 [[]; []] h0)
    = false /\
  is_panic (IsContextualSorted tx0 [[]; []] h0) = false /\
  is_panic (ContextualSort (@GoSort.insertionSort) tx0 [[]] h0) = true.
Proof.
  pose proof (contextual_panic_iff (@GoSort.insertionSort) h0 tx0
                [inp 1; inp 0] [out 2; out 1] [[]; []] h0_allocated)
    as (A & B & C & D & _).
  pose proof (contextual_panic_iff (@GoSort.insertionSort) h0 tx0
                [inp 1; inp 0] [out 2; out 1] [[]] h0_allocated)
    as (_ & B' & _).
  repeat split; assumption.
Defined.

End txsort_claims.

(* ===================================================================== *)
(** ** The claim about the matchers *)

Module matcher_claims.

Import matcher matcher_props.

(** C3: for every filter (the values decoded from any sequence of gaps)
    and every query set, the Merge Matcher and the Hash Matcher return the
    same existence result, for the set and for each single query item, and
    the matcher run for the tag [Optimize] returns gives that same result
    for every query and filter size. *)
Theorem matchers_agree (deltas queries : list N) :
  let filter := decode 0 deltas in
  MergeMatcher filter queries = HashMatcher filter queries /\
  (forall q : N,
     MergeMatcher filter [q] = HashMatcher filter [q] /\
     (HashMatcher filter [q] = true <-> q ∈ filter)) /\
  (forall (math_Exp math_Log2 : float -> float) (Q N : Z),
     runMatcher (fst (gcs.Optimize math_Exp math_Log2 Q N)) filter queries
     = Some (HashMatcher filter queries)).
Proof.
  cbv zeta. pose proof (decode_sorted deltas 0%N) as Hs.
  split; [|split].
  - now apply MergeMatcher_HashMatcher.
  - intros q. split; [now apply MergeMatcher_HashMatcher|].
    rewrite HashMatcher_intersects. unfold intersects. split.
    + intros (x & Hx & Hq). apply list_elem_of_singleton in Hq. now subst.
    + intros Hq. exists q. split; [exact Hq|]. now apply list_elem_of_singleton.
  - intros math_Exp math_Log2 Q N.
    pose proof (gcs_props.Optimize_tag math_Exp math_Log2 Q N) as Ht.
    destruct (fst (gcs.Optimize math_Exp math_Log2 Q N)); cbn in *.
    + discriminate.
    + now rewrite MergeMatcher_HashMatcher.
    + reflexivity.
Qed.

End matcher_claims.

(* ===================================================================== *)
(** ** More binary64 arithmetic: exact results and monotone conversion *)

Module Float64_exact.

Import Float64_props.
#[local] Open Scope float_scope.

(** *** Exact results *)

(** A representable value rounds to itself. *)
Lemma RND_val (m : positive) (e : Z) :
  valid_binary (S754_finite false m e) = true -> (-1074 <= e)%Z ->
  RND (val m e) = val m e.
Proof.
  intros V He. apply valid_finite in V as [C _].
  unfold RND. rewrite val_digits by (unfold scale; lia).
  replace (mag m e + scale - scale)%Z with (mag m e) by lia. rewrite C.
  apply rne_at_multiple; [unfold scale; lia|].
  unfold val. apply Z.mod_mul.
  assert (0 < 2 ^ (e + scale))%Z by (apply Z.pow_pos_nonneg; unfold scale; lia).
  lia.
Qed.

Lemma RND_fval (a b : Z) (x : float) : Between a b x -> RND (fval x) = fval x.
Proof.
  intros Hx. destruct (Between_fval _ _ _ Hx) as (m & e & _ & V & -> & He & _).
  now apply RND_val.
Qed.

Lemma fval_inj (a b c d : Z) (x y : float) :
  Between a b x -> Between c d y -> fval x = fval y -> x = y.
Proof.
  intros Hx Hy E.
  assert (H1 : (x <? y) = false).
  { destruct (x <? y) eqn:L; [|reflexivity].
    apply (ltb_fval _ _ _ _ _ _ Hx Hy) in L. lia. }
  assert (H2 : (y <? x) = false).
  { destruct (y <? x) eqn:L; [|reflexivity].
    apply (ltb_fval _ _ _ _ _ _ Hy Hx) in L. lia. }
  destruct Hx as (mx & ex & Ex & _). destruct Hy as (my & ey & Ey & _).
  rewrite FloatAxioms.ltb_spec, Ex, Ey in H1.
  rewrite FloatAxioms.ltb_spec, Ex, Ey in H2.
  apply Prim2SF_inj. rewrite Ex, Ey.
  apply SFcompare_finite_cases in H1 as [[-> ->]|H1]; [reflexivity|].
  congruence.
Qed.

Lemma fval_one : fval 1 = (2 ^ scale)%Z.
Proof. vm_compute. reflexivity. Qed.


(** A sum of positive numbers is at least each of them. *)
Lemma add_ge_r (a b c d : Z) (x y : float) :
  Between a b x -> Between c d y -> (b <= 970)%Z -> (d <= 970)%Z ->
  (y <=? x + y) = true.
Proof.
  intros Hx Hy Hb Hd.
  apply (leb_fval _ _ _ _ _ _ Hy (add_Between_Between _ _ _ _ _ _ Hx Hy Hb Hd)).
  destruct (add_fval _ _ _ _ _ _ Hx Hy Hb Hd) as (-> & _ & _).
  rewrite <- (RND_fval _ _ _ Hy) at 1.
  pose proof (fval_pos _ _ _ Hx). pose proof (fval_pos _ _ _ Hy) as Py.
  apply RND_mono; [exact Py|lia|].
  destruct (Between_fval _ _ _ Hy) as (m & e & E & V & -> & He & G).
  rewrite val_digits by (unfold scale; lia).
  pose proof (finite_valid _ _ _ _ E) as [L _]. lia.
Qed.

(** *** Zero and NaN operands *)




Lemma mul_nan_r (x : float) : x * nan = nan.
Proof.
  apply Prim2SF_inj. rewrite FloatAxioms.mul_spec.
  change (Prim2SF nan) with S754_nan. now destruct (Prim2SF x).
Qed.

Lemma nan_mul_l (x : float) : nan * x = nan.
Proof. apply Prim2SF_inj. rewrite FloatAxioms.mul_spec. reflexivity. Qed.

Lemma add_nan_r (x : float) : x + nan = nan.
Proof.
  apply Prim2SF_inj. rewrite FloatAxioms.add_spec.
  change (Prim2SF nan) with S754_nan. now destruct (Prim2SF x).
Qed.

Lemma Between_finite (a b : Z) (x : float) :
  Between a b x -> (x <? infinity) = true.
Proof.
  intros (m & e & E & _). rewrite FloatAxioms.ltb_spec, E. reflexivity.
Qed.

(** *** One minus a float in [[0, 1)] is at most one *)

Lemma sub_one_le_one (x : float) :
  (0 <=? x) = true -> (x <? 1) = true -> (1 - x <=? 1) = true.
Proof.
  intros H0 H1. destruct (unit_range x H0 H1) as [[s Hx]|(m & e & Hx & G)].
  - assert (E : 1 - x = 1).
    { apply Prim2SF_inj. rewrite FloatAxioms.sub_spec, Hx. now destruct s. }
    rewrite E. reflexivity.
  - pose proof (finite_valid _ _ _ _ Hx) as [L _].
    assert (Bx : Between (-1075) 0 x) by (exists m, e; split; [exact Hx|lia]).
    apply (leb_fval _ _ _ _ _ _ (sub_one_Between' _ _ Bx) Between_one).
    destruct (sub_one_fval _ _ Bx) as (-> & P & D).
    rewrite <- (RND_fval _ _ _ Between_one), fval_one.
    pose proof (fval_pos _ _ _ Bx).
    apply RND_mono; [exact P|lia|exact D].
Qed.

(** *** Conversion of a positive [int] is monotone *)

Lemma of_int_fval (Q : Z) :
  (1 <= Q < 2 ^ 63)%Z -> fval (Float64.of_int Q) = RND (Q * 2 ^ scale).
Proof.
  intros HQ. unfold Float64.of_int, fval.
  destruct (Z.leb_spec 0 Q) as [_|]; [|lia].
  rewrite of_uint63_spec, Uint63.of_Z_spec.
  rewrite Z.mod_small by (change wB with (2 ^ 63)%Z; lia).
  destruct Q as [|p|p]; try lia. cbn [binary_normalize].
  assert (Hd : (digits p <= 63)%Z) by (apply digits_le; lia).
  pose proof (digits_pos p).
  destruct (binary_round_value p 0) as (m & e & -> & Hv);
    [lia|unfold mag; lia|unfold mag; lia|].
  rewrite Hv. unfold val. now rewrite Z.add_0_l.
Qed.

Lemma of_int_mono (Q1 Q2 : Z) :
  (1 <= Q1)%Z -> (Q1 <= Q2)%Z -> (Q2 < 2 ^ 63)%Z ->
  (Float64.of_int Q1 <=? Float64.of_int Q2) = true.
Proof.
  intros H1 H12 H2.
  apply (leb_fval _ _ _ _ _ _ (of_int_Between Q1 ltac:(lia))
           (of_int_Between Q2 ltac:(lia))).
  rewrite !of_int_fval by lia.
  assert (0 < 2 ^ scale)%Z by (apply Z.pow_pos_nonneg; unfold scale; lia).
  apply RND_mono; [nia|nia|].
  destruct Q1 as [|p|p]; try lia.
  change (Zpos p * 2 ^ scale)%Z with (val p 0).
  rewrite val_digits by (unfold scale; lia).
  pose proof (digits_pos p). unfold mag. lia.
Qed.

(** *** Exact conversion of sizes up to [2^53] *)

(** An integer of at most 53 bits, and [2^53], convert exactly. *)
Lemma of_int_fval_exact (Q : Z) :
  (1 <= Q <= 2 ^ 53)%Z -> fval (Float64.of_int Q) = (Q * 2 ^ scale)%Z.
Proof.
  intros HQ. rewrite of_int_fval by lia.
  assert (Hs : (0 < 2 ^ scale)%Z) by (apply Z.pow_pos_nonneg; unfold scale; lia).
  destruct Q as [|p|p]; try lia.
  unfold RND. change (Zpos p * 2 ^ scale)%Z with (val p 0).
  rewrite val_digits by (unfold scale; lia).
  replace (mag p 0 + scale - scale)%Z with (digits p) by (unfold mag; lia).
  rewrite fexp_eq. pose proof (digits_pos p) as Hd.
  destruct (Z.eq_dec (Zpos p) (2 ^ 53)) as [E|NE].
  - assert (Hd54 : digits p = 54%Z).
    { apply digits_unique. rewrite E. change (54 - 1)%Z with 53%Z.
      split; [lia|]. apply Z.pow_lt_mono_r; lia. }
    rewrite Hd54. apply rne_at_multiple; [unfold scale; lia|].
    unfold val. rewrite E, Z.add_0_l, <- Z.pow_add_r by (unfold scale; lia).
    replace (53 + scale)%Z
      with ((53 + scale - (Z.max (54 - 53) (-1074) + scale))
            + (Z.max (54 - 53) (-1074) + scale))%Z by lia.
    rewrite Z.pow_add_r by (unfold scale; lia).
    apply Z.mod_mul.
    assert (0 < 2 ^ (Z.max (54 - 53) (-1074) + scale))%Z
      by (apply Z.pow_pos_nonneg; unfold scale; lia).
    lia.
  - assert (Hd53 : (digits p <= 53)%Z) by (apply digits_le; lia).
    apply rne_at_multiple; [unfold scale; lia|].
    unfold val. rewrite Z.add_0_l.
    replace scale
      with ((scale - (Z.max (digits p - 53) (-1074) + scale))
            + (Z.max (digits p - 53) (-1074) + scale))%Z at 1 by lia.
    rewrite Z.pow_add_r by (unfold scale; lia).
    rewrite Z.mul_assoc. apply Z.mod_mul.
    assert (0 < 2 ^ (Z.max (digits p - 53) (-1074) + scale))%Z
      by (apply Z.pow_pos_nonneg; unfold scale; lia).
    lia.
Qed.

Lemma of_int_strict (Q1 Q2 : Z) :
  (0 <= Q1)%Z -> (Q1 < Q2)%Z -> (Q2 <= 2 ^ 53)%Z ->
  (Float64.of_int Q1 <? Float64.of_int Q2) = true.
Proof.
  intros H1 H12 H2.
  assert (HB2 : Between 0 64 (Float64.of_int Q2)) by (apply of_int_Between; lia).
  destruct (Z.eq_dec Q1 0%Z) as [->|HN].
  - exact (Between_gt_zero _ _ _ HB2).
  - assert (HB1 : Between 0 64 (Float64.of_int Q1)) by (apply of_int_Between; lia).
    apply (ltb_fval _ _ _ _ _ _ HB1 HB2).
    rewrite !of_int_fval_exact by lia.
    assert (0 < 2 ^ scale)%Z by (apply Z.pow_pos_nonneg; unfold scale; lia).
    nia.
Qed.

Lemma of_int_weak (Q1 Q2 : Z) :
  (0 <= Q1)%Z -> (Q1 <= Q2)%Z -> (Q2 < 2 ^ 63)%Z ->
  (Float64.of_int Q1 <=? Float64.of_int Q2) = true.
Proof.
  intros H1 H12 H2. destruct (Z.eq_dec Q1 0%Z) as [->|HN].
  - destruct (Z.eq_dec Q2 0%Z) as [->|HN2]; [reflexivity|].
    destruct (of_int_Between Q2 ltac:(lia)) as (m & e & E & _).
    change (Float64.of_int 0) with 0.
    rewrite FloatAxioms.leb_spec, E. reflexivity.
  - apply of_int_mono; lia.
Qed.

End Float64_exact.

(* ===================================================================== *)
(** ** Binary64 division: the value of a quotient *)

Module Float64_div.

Import Float64_props Float64_exact.

(** *** Rounding a quotient of integers *)

(** Round to nearest, ties to even, of the rational [n / w]. *)
Definition rneq (n w : Z) : Z :=
  let q := n / w in
  let r := n mod w in
  if 2 * r <? w then q
  else if w <? 2 * r then q + 1
  else if Z.even q then q else q + 1.

(** [k] is [n / w] rounded to nearest, ties to even. *)
Definition nearest_even (k n w : Z) : Prop :=
  (2 * k - 1) * w <= 2 * n <= (2 * k + 1) * w /\
  (2 * n = (2 * k + 1) * w -> Z.even k = true) /\
  (2 * n = (2 * k - 1) * w -> Z.even k = true).

Lemma rneq_nearest (n w : Z) : 0 < w -> nearest_even (rneq n w) n w.
Proof.
  intros Hw. unfold rneq, nearest_even.
  pose proof (Z.div_mod n w ltac:(lia)) as E.
  pose proof (Z.mod_pos_bound n w Hw) as B.
  set (q := n / w) in *. set (r := n mod w) in *.
  destruct (Z.ltb_spec (2 * r) w) as [L|L].
  - split; [nia|]. split; intros H; exfalso; nia.
  - destruct (Z.ltb_spec w (2 * r)) as [G|G].
    + split; [nia|]. split; intros H; exfalso; nia.
    + assert (2 * r = w) by lia.
      destruct (Z.even q) eqn:Ev.
      * split; [nia|]. split; intros _; exact Ev.
      * assert (Ev' : Z.even (q + 1) = true).
        { rewrite Z.even_add, Ev. reflexivity. }
        split; [nia|]. split; intros _; exact Ev'.
Qed.

Lemma nearest_even_mono (k1 n1 w1 k2 n2 w2 : Z) :
  0 < w1 -> 0 < w2 -> n1 * w2 <= n2 * w1 ->
  nearest_even k1 n1 w1 -> nearest_even k2 n2 w2 -> k1 <= k2.
Proof.
  intros Hw1 Hw2 Hle ([L1 U1] & T1 & T1') ([L2 U2] & T2 & T2').
  destruct (Z.le_gt_cases k1 k2) as [|Hgt]; [assumption|exfalso].
  assert (H1 : (2 * k1 - 1) * w1 * w2 <= 2 * n1 * w2) by nia.
  assert (H2 : 2 * n2 * w1 <= (2 * k2 + 1) * w2 * w1) by nia.
  assert (H3 : (2 * k1 - 1) * (w1 * w2) <= (2 * k2 + 1) * (w1 * w2)) by nia.
  assert (Hp : 0 < w1 * w2) by nia.
  assert (Hk : k1 = k2 + 1) by nia.
  subst k1.
  assert (E1 : 2 * n1 = (2 * (k2 + 1) - 1) * w1) by nia.
  assert (E2 : 2 * n2 = (2 * k2 + 1) * w2) by nia.
  specialize (T1' E1). specialize (T2 E2).
  rewrite Z.even_add, T2 in T1'. discriminate.
Qed.

Lemma rneq_mono (n1 w1 n2 w2 : Z) :
  0 < w1 -> 0 < w2 -> n1 * w2 <= n2 * w1 -> rneq n1 w1 <= rneq n2 w2.
Proof.
  intros Hw1 Hw2 Hle.
  exact (nearest_even_mono _ _ _ _ _ _ Hw1 Hw2 Hle
           (rneq_nearest n1 w1 Hw1) (rneq_nearest n2 w2 Hw2)).
Qed.

Lemma nearest_even_unique (k n w : Z) :
  0 < w -> nearest_even k n w -> rneq n w = k.
Proof.
  intros Hw Hk. pose proof (rneq_nearest n w Hw) as Hr.
  pose proof (nearest_even_mono _ _ _ _ _ _ Hw Hw (Z.le_refl (n * w)) Hk Hr).
  pose proof (nearest_even_mono _ _ _ _ _ _ Hw Hw (Z.le_refl (n * w)) Hr Hk).
  lia.
Qed.

(** Equal quotients round alike. *)
Lemma rneq_ext (n1 w1 n2 w2 : Z) :
  0 < w1 -> 0 < w2 -> n1 * w2 = n2 * w1 -> rneq n1 w1 = rneq n2 w2.
Proof.
  intros Hw1 Hw2 E.
  pose proof (rneq_mono n1 w1 n2 w2 Hw1 Hw2 ltac:(lia)).
  pose proof (rneq_mono n2 w2 n1 w1 Hw2 Hw1 ltac:(lia)).
  lia.
Qed.

Lemma rneq_multiple (k w : Z) : 0 < w -> rneq (k * w) w = k.
Proof.
  intros Hw. apply nearest_even_unique; [exact Hw|].
  split; [nia|]. split; intros H; exfalso; nia.
Qed.

Lemma rne_shift_rneq (m n : Z) : 1 <= n -> rne_shift m n = rneq m (2 ^ n).
Proof.
  intros Hn. unfold rne_shift, rneq.
  assert (E : 2 ^ n = 2 * 2 ^ (n - 1)).
  { replace n with (1 + (n - 1)) at 1 by lia. now rewrite Z.pow_add_r by lia. }
  assert (0 < 2 ^ (n - 1)) by (apply Z.pow_pos_nonneg; lia).
  set (r := m mod 2 ^ n). set (q := m / 2 ^ n). rewrite E.
  destruct (Z.ltb_spec r (2 ^ (n - 1))), (Z.ltb_spec (2 * r) (2 * 2 ^ (n - 1)));
    try lia; try reflexivity.
  destruct (Z.ltb_spec (2 ^ (n - 1)) r), (Z.ltb_spec (2 * 2 ^ (n - 1)) (2 * r));
    try lia; reflexivity.
Qed.

(** The two bits that stand for the remainder of a division: 0 for no
    remainder, 1 for less than half the divisor, 2 for half of it, 3 for
    more. *)
Definition sticky (r w : Z) : Z :=
  if r =? 0 then 0
  else if 2 * r <? w then 1
  else if 2 * r =? w then 2
  else 3.

(** The quotient with its two sticky bits rounds as the exact quotient
    does. *)
Lemma rneq_sticky (q r w K : Z) :
  0 < w -> 0 <= r < w -> 0 <= K ->
  rneq (4 * q + sticky r w) (2 ^ (K + 2)) = rneq (q * w + r) (w * 2 ^ K).
Proof.
  intros Hw Hr HK. symmetry.
  assert (HP : 0 < 2 ^ K) by (apply Z.pow_pos_nonneg; lia).
  assert (E4 : 2 ^ (K + 2) = 4 * 2 ^ K).
  { rewrite Z.pow_add_r by lia. change (2 ^ 2) with 4. lia. }
  apply nearest_even_unique; [nia|].
  pose proof (rneq_nearest (4 * q + sticky r w) (2 ^ (K + 2)) ltac:(lia))
    as ([L U] & T & T').
  set (k := rneq (4 * q + sticky r w) (2 ^ (K + 2))) in *.
  rewrite E4 in L, U, T, T'.
  set (P := 2 ^ K) in *.
  set (Lo := (2 * k - 1) * P) in *.
  set (Hi := (2 * k + 1) * P) in *.
  assert (HL : (2 * k - 1) * (4 * P) = 4 * Lo) by (unfold Lo; ring).
  assert (HH : (2 * k + 1) * (4 * P) = 4 * Hi) by (unfold Hi; ring).
  rewrite HL in L, T'. rewrite HH in U, T.
  assert (GL : (2 * k - 1) * (w * P) = Lo * w) by (unfold Lo; ring).
  assert (GH : (2 * k + 1) * (w * P) = Hi * w) by (unfold Hi; ring).
  unfold nearest_even. rewrite GL, GH.
  clearbody Lo Hi k P.
  unfold sticky in *.
  destruct (Z.eqb_spec r 0) as [R0|R0].
  - subst r. split; [nia|]. split; intros HT; [apply T|apply T']; nia.
  - destruct (Z.ltb_spec (2 * r) w) as [R1|R1].
    + assert (Lo <= 2 * q) by lia. assert (2 * q + 1 <= Hi) by lia.
      split; [nia|]. split; intros HT; exfalso; nia.
    + destruct (Z.eqb_spec (2 * r) w) as [R2|R2].
      * assert (Lo <= 2 * q + 1) by lia. assert (2 * q + 1 <= Hi) by lia.
        split; [nia|]. split; intros HT; [apply T|apply T']; nia.
      * assert (Lo <= 2 * q + 1) by lia. assert (2 * q + 2 <= Hi) by lia.
        split; [nia|]. split; intros HT; exfalso; nia.
Qed.


(** *** The location of a remainder as two more bits of the quotient *)

Lemma sticky_range (r w : Z) : 0 <= sticky r w <= 3.
Proof.
  unfold sticky. destruct (r =? 0); [lia|]. destruct (2 * r <? w); [lia|].
  destruct (2 * r =? w); lia.
Qed.

Lemma two_bits (q c : Z) :
  0 <= c <= 3 ->
  (4 * q + c) / 2 ^ 2 = q /\
  Z.odd ((4 * q + c) / 2 ^ (2 - 1)) = (2 <=? c) /\
  negb ((4 * q + c) mod 2 ^ (2 - 1) =? 0) = Z.odd c.
Proof.
  intros Hc. change (2 ^ 2) with 4. change (2 ^ (2 - 1)) with 2.
  assert (H4 : (4 * q + c) / 4 = q)
    by (symmetry; apply (Z.div_unique _ _ _ c); lia).
  split; [exact H4|].
  assert (Hcases : c = 0 \/ c = 1 \/ c = 2 \/ c = 3) by lia.
  destruct Hcases as [-> | [-> | [-> | ->]]].
  - replace ((4 * q + 0) / 2) with (2 * q)
      by (apply (Z.div_unique _ _ _ 0); lia).
    replace ((4 * q + 0) mod 2) with 0
      by (apply (Z.mod_unique _ _ (2 * q)); lia).
    rewrite Z.odd_mul. now split.
  - replace ((4 * q + 1) / 2) with (2 * q)
      by (apply (Z.div_unique _ _ _ 1); lia).
    replace ((4 * q + 1) mod 2) with 1
      by (apply (Z.mod_unique _ _ (2 * q)); lia).
    rewrite Z.odd_mul. now split.
  - replace ((4 * q + 2) / 2) with (2 * q + 1)
      by (apply (Z.div_unique _ _ _ 0); lia).
    replace ((4 * q + 2) mod 2) with 0
      by (apply (Z.mod_unique _ _ (2 * q + 1)); lia).
    rewrite Z.odd_add, Z.odd_mul. now split.
  - replace ((4 * q + 3) / 2) with (2 * q + 1)
      by (apply (Z.div_unique _ _ _ 1); lia).
    replace ((4 * q + 3) mod 2) with 1
      by (apply (Z.mod_unique _ _ (2 * q + 1)); lia).
    rewrite Z.odd_add, Z.odd_mul. now split.
Qed.

Lemma shr_record_sticky (q r w : Z) :
  0 <= q -> 0 < w -> 0 <= r < w ->
  shr_record_of_loc q (new_location w r) =
  SpecFloat.iter_pos shr_1 2 (Build_shr_record (4 * q + sticky r w) false false).
Proof.
  intros Hq Hw Hr. pose proof (sticky_range r w) as Hc.
  rewrite shr_iter_bits by lia.
  destruct (two_bits q (sticky r w) Hc) as (-> & -> & ->).
  unfold new_location.
  destruct (Z.even w) eqn:Ev; unfold new_location_even, new_location_odd, sticky;
    destruct (Z.eqb_spec r 0) as [R0|R0]; try reflexivity.
  - destruct (Z.compare_spec (2 * r) w) as [E|L|G].
    + destruct (Z.ltb_spec (2 * r) w); [lia|].
      destruct (Z.eqb_spec (2 * r) w); [reflexivity|lia].
    + destruct (Z.ltb_spec (2 * r) w); [reflexivity|lia].
    + destruct (Z.ltb_spec (2 * r) w); [lia|].
      destruct (Z.eqb_spec (2 * r) w); [lia|reflexivity].
  - assert (Hodd : 2 * r <> w).
    { intros E. rewrite <- E, Z.even_mul in Ev. discriminate. }
    destruct (Z.compare_spec (2 * r + 1) w) as [E|L|G].
    + destruct (Z.ltb_spec (2 * r) w); [reflexivity|lia].
    + destruct (Z.ltb_spec (2 * r) w); [reflexivity|lia].
    + destruct (Z.ltb_spec (2 * r) w); [lia|].
      destruct (Z.eqb_spec (2 * r) w); [lia|reflexivity].
Qed.

Lemma iter_pos_two_more {A : Type} (f : A -> A) (p : positive) (x : A) :
  SpecFloat.iter_pos f (p + 2) x = SpecFloat.iter_pos f p (SpecFloat.iter_pos f 2 x).
Proof.
  replace (p + 2)%positive with (Pos.succ (Pos.succ p)) by lia.
  rewrite !iter_pos_succ. cbn [SpecFloat.iter_pos]. now rewrite !iter_pos_comm.
Qed.

(** Rounding a mantissa with a location is rounding the mantissa extended
    by the two sticky bits. *)
Lemma binary_round_aux_sticky (q p : positive) (e : Z) (l : location) :
  fexp prec emax (mag q e) - e >= 0 ->
  digits p = digits q + 2 ->
  shr_record_of_loc (Zpos q) l =
    SpecFloat.iter_pos shr_1 2 (Build_shr_record (Zpos p) false false) ->
  binary_round_aux prec emax false (Zpos q) e l =
  binary_round_aux prec emax false (Zpos p) (e - 2) loc_Exact.
Proof.
  intros Hk Hd Hrec. unfold binary_round_aux.
  assert (E : shr_fexp prec emax (Zpos q) e l =
              shr_fexp prec emax (Zpos p) (e - 2) loc_Exact).
  { unfold shr_fexp.
    change (Zdigits2 (Zpos q) + e) with (mag q e).
    change (Zdigits2 (Zpos p) + (e - 2)) with (digits p + (e - 2)).
    replace (digits p + (e - 2)) with (mag q e) by (unfold mag; lia).
    cbn [shr_record_of_loc]. rewrite Hrec. unfold shr.
    destruct (fexp prec emax (mag q e) - e) as [|k|k] eqn:Ek; try lia.
    - replace (fexp prec emax (mag q e) - (e - 2)) with 2 by lia.
      f_equal. lia.
    - replace (fexp prec emax (mag q e) - (e - 2)) with (Zpos (k + 2)) by lia.
      rewrite iter_pos_two_more. f_equal. lia. }
  now rewrite E.
Qed.


(** *** The value of a quotient *)

(** The binary64 rounding of the positive rational [n / d]. *)
Definition RNDQ (n d : Z) : Z :=
  let G := fexp prec emax (Zdigits2 (n / d) - scale) + scale in
  rneq n (d * 2 ^ G) * 2 ^ G.

Lemma SFdiv_core_loc (mx : positive) (ex : Z) (my : positive) (ey : Z) :
  let e' := Z.min (fexp prec emax (mag mx ex - mag my ey)) (ex - ey) in
  let m' := Zpos mx * 2 ^ (ex - ey - e') in
  SFdiv_core_binary prec emax (Zpos mx) ex (Zpos my) ey =
  (m' / Zpos my, e', new_location (Zpos my) (m' mod Zpos my)).
Proof.
  cbv zeta. unfold SFdiv_core_binary.
  change (Zdigits2 (Zpos mx) + ex - (Zdigits2 (Zpos my) + ey))
    with (mag mx ex - mag my ey).
  set (e' := Z.min (fexp prec emax (mag mx ex - mag my ey)) (ex - ey)).
  set (sh := ex - ey - e').
  assert (Hsh : 0 <= sh) by (unfold sh, e'; lia).
  set (m' := match sh with
             | 0 => Zpos mx
             | Zpos _ => Z.shiftl (Zpos mx) sh
             | Zneg _ => 0
             end).
  assert (Hm' : m' = Zpos mx * 2 ^ sh).
  { unfold m'. destruct sh as [|p|p] eqn:E; try lia.
    now rewrite Z.shiftl_mul_pow2 by lia. }
  rewrite <- Hm'. clearbody m'.
  assert (Hq : fst (Z.div_eucl m' (Zpos my)) = m' / Zpos my) by reflexivity.
  assert (Hr : snd (Z.div_eucl m' (Zpos my)) = m' mod Zpos my) by reflexivity.
  destruct (Z.div_eucl m' (Zpos my)) as [q r]. cbn [fst snd] in *.
  now rewrite Hq, Hr.
Qed.

Lemma Zdigits2_unique (X k : Z) :
  0 < X -> 2 ^ (k - 1) <= X < 2 ^ k -> Zdigits2 X = k.
Proof.
  intros HX HB. destruct X as [|p|p]; try lia.
  change (Zdigits2 (Zpos p)) with (digits p). now apply digits_unique.
Qed.

Lemma SFdiv_value (mx : positive) (ex : Z) (my : positive) (ey : Z) :
  valid_binary (S754_finite false mx ex) = true ->
  valid_binary (S754_finite false my ey) = true ->
  -1074 < mag mx ex - mag my ey -> mag mx ex - mag my ey + 1 <= 971 ->
  exists m e,
    SF64div (S754_finite false mx ex) (S754_finite false my ey)
    = S754_finite false m e /\
    val m e = RNDQ (val mx ex * 2 ^ scale) (val my ey) /\
    0 < val mx ex * 2 ^ scale / val my ey /\
    -1074 < Zdigits2 (val mx ex * 2 ^ scale / val my ey) - scale.
Proof.
  intros Vx Vy Hlo Hhi.
  apply valid_finite in Vx as [Cx Bx]. apply valid_finite in Vy as [Cy By].
  rewrite fexp_eq in Cx, Cy.
  unfold SF64div, SFdiv. cbn [xorb].
  destruct (SFdiv_core_spec mx ex my ey Hlo)
    as (q & e' & l & Hcore & He' & Hq & _ & Hg).
  pose proof (SFdiv_core_loc mx ex my ey) as Hloc. cbv zeta in Hloc.
  rewrite <- He' in Hloc. rewrite Hcore in Hloc. rewrite Hcore.
  injection Hloc as _ Hl.
  set (m' := Zpos mx * 2 ^ (ex - ey - e')) in *.
  set (r := m' mod Zpos my) in *.
  assert (Hsh : 0 <= ex - ey - e') by lia.
  assert (Hm'pos : 0 < m').
  { unfold m'. assert (0 < 2 ^ (ex - ey - e')) by (apply Z.pow_pos_nonneg; lia).
    lia. }
  pose proof (Z.div_mod m' (Zpos my) ltac:(lia)) as Hdm.
  pose proof (Z.mod_pos_bound m' (Zpos my) ltac:(lia)) as Hrb.
  fold r in Hdm, Hrb. rewrite <- Hq in Hdm.
  pose proof (sticky_range r (Zpos my)) as Hc.
  set (c := sticky r (Zpos my)) in *.
  destruct (4 * Zpos q + c) as [|p|p] eqn:Ep; try lia.
  pose proof (digits_bounds q) as [Lq Uq]. pose proof (digits_pos q) as Pq.
  assert (Hdp : digits p = digits q + 2).
  { apply digits_unique. rewrite <- Ep.
    replace (digits q + 2 - 1) with (2 + (digits q - 1)) by lia.
    replace (digits q + 2) with (2 + digits q) by lia.
    rewrite !Z.pow_add_r by lia. change (2 ^ 2) with 4. lia. }
  assert (Hk : fexp prec emax (mag q e') - e' >= 0).
  { rewrite He' at 2. rewrite !fexp_eq. lia. }
  rewrite (binary_round_aux_sticky q p e' l Hk Hdp).
  2:{ rewrite Hl, <- Ep. apply shr_record_sticky; lia. }
  assert (He'lo : -2045 <= e').
  { rewrite He', fexp_eq. lia. }
  destruct (binary_round_aux_value p (e' - 2)) as (m & e & -> & _ & Hv);
    [unfold scale; lia|unfold mag in *; lia|unfold mag in *; lia|].
  exists m, e. split; [reflexivity|].
  (* the exact quotient, in units of [2^-scale] *)
  set (g := e' + scale).
  assert (Hg1 : 2 <= g) by (unfold g, scale; lia).
  set (V := val my ey). set (U := val mx ex * 2 ^ scale).
  assert (HV : V = Zpos my * 2 ^ (ey + scale)) by reflexivity.
  assert (HVpos : 0 < V) by (apply val_pos; unfold scale; lia).
  assert (HU : U = m' * 2 ^ g * 2 ^ (ey + scale)).
  { unfold U, val, m', g. rewrite <- !Z.mul_assoc. f_equal.
    rewrite <- !Z.pow_add_r by (unfold scale; lia). f_equal. lia. }
  assert (Hp2 : 0 < 2 ^ (ey + scale)) by (apply Z.pow_pos_nonneg; unfold scale; lia).
  assert (Hpg : 0 < 2 ^ g) by (apply Z.pow_pos_nonneg; lia).
  assert (HUV : U / V = m' * 2 ^ g / Zpos my).
  { rewrite HU, HV. apply Z.div_mul_cancel_r; lia. }
  assert (Hlow : Zpos q * 2 ^ g <= U / V).
  { rewrite HUV. apply Z.div_le_lower_bound; [lia|]. nia. }
  assert (Hupp : U / V < (Zpos q + 1) * 2 ^ g).
  { rewrite HUV. apply Z.div_lt_upper_bound; [lia|]. nia. }
  assert (HdX : Zdigits2 (U / V) = digits q + g).
  { apply Zdigits2_unique; [nia|].
    replace (digits q + g - 1) with (digits q - 1 + g) by lia.
    rewrite !Z.pow_add_r by lia. split; nia. }
  split; [|split; [nia|rewrite HdX; unfold g, mag in *; lia]].
  rewrite Hv. unfold RND, RNDQ. fold U V.
  rewrite val_digits by (unfold scale; lia). rewrite HdX.
  replace (mag p (e' - 2) + scale - scale) with (mag q e') by (unfold mag; lia).
  replace (digits q + g - scale) with (mag q e') by (unfold mag, g; lia).
  set (G := fexp prec emax (mag q e') + scale).
  set (K := G - g).
  assert (HK : 0 <= K) by (unfold K, G, g; lia).
  unfold rne_at. f_equal.
  assert (Hval : val p (e' - 2) = (4 * Zpos q + c) * 2 ^ (g - 2)).
  { unfold val. rewrite <- Ep. f_equal. f_equal. unfold g. lia. }
  rewrite Hval.
  replace G with (K + 2 + (g - 2)) at 1 by (unfold K; lia).
  rewrite rne_shift_scale by lia.
  rewrite rne_shift_rneq by lia.
  unfold c. rewrite (rneq_sticky (Zpos q) r (Zpos my) K) by lia.
  apply rneq_ext.
  - assert (0 < 2 ^ K) by (apply Z.pow_pos_nonneg; lia). nia.
  - assert (0 < 2 ^ G)
      by (apply Z.pow_pos_nonneg; [lia|]; unfold G, scale; rewrite fexp_eq; lia).
    nia.
  - rewrite HU, HV. replace G with (K + g) by (unfold K; lia).
    rewrite (Z.pow_add_r 2 K g) by lia.
    replace (Zpos q * Zpos my + r) with m' by lia. ring.
Qed.


(** *** Rounding a quotient is monotone *)

Lemma div_floor_mono (n1 d1 n2 d2 : Z) :
  0 < d1 -> 0 < d2 -> n1 * d2 <= n2 * d1 -> n1 / d1 <= n2 / d2.
Proof.
  intros H1 H2 H. apply Z.div_le_lower_bound; [lia|].
  pose proof (Z.mul_div_le n1 d1 H1). nia.
Qed.

Theorem RNDQ_mono (n1 d1 n2 d2 : Z) :
  0 < d1 -> 0 < d2 -> 0 < n1 / d1 -> n1 * d2 <= n2 * d1 ->
  -1074 < Zdigits2 (n1 / d1) - scale ->
  RNDQ n1 d1 <= RNDQ n2 d2.
Proof.
  intros Hd1 Hd2 HX1 Hle Hlo. unfold RNDQ.
  pose proof (div_floor_mono n1 d1 n2 d2 Hd1 Hd2 Hle) as HX.
  pose proof (Zdigits2_mono _ _ HX1 HX) as HD.
  pose proof (Zdigits2_bounds _ HX1) as [L1 U1].
  pose proof (Zdigits2_bounds (n2 / d2) ltac:(lia)) as [L2 U2].
  set (D1 := Zdigits2 (n1 / d1)) in *. set (D2 := Zdigits2 (n2 / d2)) in *.
  rewrite !fexp_eq.
  set (G1 := Z.max (D1 - scale - 53) (-1074) + scale).
  set (G2 := Z.max (D2 - scale - 53) (-1074) + scale).
  assert (HG1 : 1 <= G1 <= D1) by (unfold G1, scale in *; lia).
  assert (HG2 : 1 <= G2) by (unfold G2, scale in *; lia).
  assert (P1 : 0 < 2 ^ G1) by (apply Z.pow_pos_nonneg; lia).
  assert (P2 : 0 < 2 ^ G2) by (apply Z.pow_pos_nonneg; lia).
  destruct (Z.eq_dec G1 G2) as [E|NE].
  - rewrite <- E. apply Z.mul_le_mono_nonneg_r; [lia|].
    apply rneq_mono; nia.
  - assert (Hlt : D1 < D2) by (unfold G1, G2 in *; lia).
    assert (HG2' : G2 <= D2 - 1) by (unfold G2, scale in *; lia).
    assert (Hn1 : n1 < 2 ^ D1 * d1).
    { pose proof (Z.mul_succ_div_gt n1 d1 Hd1). nia. }
    assert (Hn2 : 2 ^ (D2 - 1) * d2 <= n2).
    { pose proof (Z.mul_div_le n2 d2 Hd2). nia. }
    transitivity (2 ^ D1).
    + replace (2 ^ D1) with (rneq (2 ^ (D1 - G1) * 2 ^ G1) (2 ^ G1) * 2 ^ G1).
      * apply Z.mul_le_mono_nonneg_r; [lia|].
        apply rneq_mono; [nia|lia|].
        rewrite <- Z.pow_add_r by lia.
        replace (D1 - G1 + G1) with D1 by lia. nia.
      * rewrite rneq_multiple by lia. rewrite <- Z.pow_add_r by lia.
        f_equal. lia.
    + transitivity (2 ^ (D2 - 1)); [apply Z.pow_le_mono_r; lia|].
      replace (2 ^ (D2 - 1))
        with (rneq (2 ^ (D2 - 1 - G2) * 2 ^ G2) (2 ^ G2) * 2 ^ G2).
      * apply Z.mul_le_mono_nonneg_r; [lia|].
        apply rneq_mono; [lia|nia|].
        rewrite <- Z.pow_add_r by lia.
        replace (D2 - 1 - G2 + G2) with (D2 - 1) by lia. nia.
      * rewrite rneq_multiple by lia. rewrite <- Z.pow_add_r by lia.
        f_equal. lia.
Qed.

(** Rounding an integer as a quotient by one. *)
Lemma RNDQ_one (n : Z) : 0 < n -> -1074 < Zdigits2 n - scale -> RNDQ n 1 = RND n.
Proof.
  intros Hn Hlo. unfold RNDQ, RND, rne_at. rewrite Z.div_1_r, Z.mul_1_l.
  rewrite rne_shift_rneq; [reflexivity|].
  rewrite fexp_eq. unfold scale in *. lia.
Qed.

(** *** Quotients of positive floats *)

#[local] Open Scope float_scope.

Lemma div_fval (a b c d : Z) (x y : float) :
  Between a b x -> Between c d y -> (-1074 <= a - d)%Z -> (b - c <= 971)%Z ->
  fval (x / y) = RNDQ (fval x * 2 ^ scale) (fval y) /\
  (0 < fval x * 2 ^ scale / fval y)%Z /\
  (-1074 < Zdigits2 (fval x * 2 ^ scale / fval y) - scale)%Z.
Proof.
  intros Hx Hy Hlo Hhi.
  destruct (Between_fval _ _ _ Hx) as (mx & ex & Ex & Vx & -> & Hex & Gx).
  destruct (Between_fval _ _ _ Hy) as (my & ey & Ey & Vy & -> & Hey & Gy).
  destruct (SFdiv_value mx ex my ey Vx Vy) as (m & e & E & Hv & Hp); [lia|lia|].
  unfold fval. rewrite FloatAxioms.div_spec, Ex, Ey, E.
  split; [exact Hv|exact Hp].
Qed.

(** A quotient does not decrease when the dividend grows and the divisor
    shrinks. *)
Theorem div_mono (a b c d : Z) (x1 x2 y1 y2 : float) :
  Between a b x1 -> Between a b x2 -> Between c d y1 -> Between c d y2 ->
  (-1074 <= a - d)%Z -> (b - c <= 971)%Z ->
  (x1 <=? x2) = true -> (y2 <=? y1) = true ->
  (x1 / y1 <=? x2 / y2) = true.
Proof.
  intros X1 X2 Y1 Y2 Hlo Hhi Hx Hy.
  apply (leb_fval _ _ _ _ _ _ (div_Between_Between _ _ _ _ _ _ X1 Y1 Hlo Hhi)
           (div_Between_Between _ _ _ _ _ _ X2 Y2 Hlo Hhi)).
  destruct (div_fval _ _ _ _ _ _ X1 Y1 Hlo Hhi) as (-> & P1 & D1).
  destruct (div_fval _ _ _ _ _ _ X2 Y2 Hlo Hhi) as (-> & _ & _).
  apply (leb_fval _ _ _ _ _ _ X1 X2) in Hx.
  apply (leb_fval _ _ _ _ _ _ Y2 Y1) in Hy.
  pose proof (fval_pos _ _ _ X1). pose proof (fval_pos _ _ _ X2).
  pose proof (fval_pos _ _ _ Y1). pose proof (fval_pos _ _ _ Y2).
  assert (0 < 2 ^ scale)%Z by (apply Z.pow_pos_nonneg; unfold scale; lia).
  apply RNDQ_mono; try assumption.
  assert (Hc : (fval x1 * fval y2 <= fval x2 * fval y1)%Z) by nia.
  replace (fval x1 * 2 ^ scale * fval y2)%Z
    with (fval x1 * fval y2 * 2 ^ scale)%Z by ring.
  replace (fval x2 * 2 ^ scale * fval y1)%Z
    with (fval x2 * fval y1 * 2 ^ scale)%Z by ring.
  apply Z.mul_le_mono_nonneg_r; lia.
Qed.

(** The quotient of a positive float by a greater one is below one. *)
Theorem div_lt_one (a b c d : Z) (x y : float) :
  Between a b x -> Between c d y -> (-1074 <= a - d)%Z -> (b - c <= 971)%Z ->
  (x <? y) = true -> (x / y <? 1) = true.
Proof.
  intros Hx Hy Hlo Hhi Hlt.
  pose proof (div_Between_Between _ _ _ _ _ _ Hx Hy Hlo Hhi) as Hq.
  apply (ltb_fval _ _ _ _ _ _ Hq Between_one).
  destruct (div_fval _ _ _ _ _ _ Hx Hy Hlo Hhi) as (-> & P & D).
  rewrite fval_one.
  destruct (Between_fval _ _ _ Hx) as (mx & ex & Ex & Vx & Fx & Hex & Gx).
  destruct (Between_fval _ _ _ Hy) as (my & ey & Ey & Vy & Fy & Hey & Gy).
  rewrite FloatAxioms.ltb_spec, Ex, Ey in Hlt. apply SFltb_finite in Hlt.
  pose proof (fval_pos _ _ _ Hx) as Px. pose proof (fval_pos _ _ _ Hy) as Py.
  (* the float before one *)
  set (P1 := (9007199254740991 * 2 ^ (scale - 53))%Z).
  assert (HP1 : RND P1 = P1).
  { change P1 with (val 9007199254740991 (-53)). now apply RND_val. }
  assert (Hs : (2 ^ scale = 9007199254740992 * 2 ^ (scale - 53))%Z).
  { change 9007199254740992%Z with (2 ^ 53)%Z.
    rewrite <- Z.pow_add_r by (unfold scale; lia). f_equal. }
  assert (Hps : (0 < 2 ^ (scale - 53))%Z)
    by (apply Z.pow_pos_nonneg; unfold scale; lia).
  assert (Hrat : (fval x * 9007199254740992 <= 9007199254740991 * fval y)%Z).
  { rewrite Fx, Fy. unfold val.
    apply valid_finite in Vx as [Cx _]. apply valid_finite in Vy as [Cy _].
    rewrite fexp_eq in Cx, Cy.
    pose proof (digits_bounds mx) as [Lx Ux]. pose proof (digits_bounds my) as [Ly Uy].
    pose proof (digits_pos mx). pose proof (digits_pos my).
    assert (Hmx : (Zpos mx < 9007199254740992)%Z).
    { change 9007199254740992%Z with (2 ^ 53)%Z.
      assert (2 ^ digits mx <= 2 ^ 53)%Z
        by (apply Z.pow_le_mono_r; unfold mag in *; lia). lia. }
    assert (Hmy : (Zpos my < 9007199254740992)%Z).
    { change 9007199254740992%Z with (2 ^ 53)%Z.
      assert (2 ^ digits my <= 2 ^ 53)%Z
        by (apply Z.pow_le_mono_r; unfold mag in *; lia). lia. }
    destruct Hlt as [Hlt|[-> Hlt]].
    - assert (Hdy : digits my = 53%Z) by (unfold mag in *; lia).
      rewrite Hdy in Ly. change (2 ^ (53 - 1))%Z with 4503599627370496%Z in Ly.
      set (A := (2 ^ (ex + scale))%Z). set (B := (2 ^ (ey + scale))%Z).
      assert (HA : (0 < A)%Z)
        by (apply Z.pow_pos_nonneg; unfold scale; lia).
      assert (HB : (2 * A <= B)%Z).
      { assert (E2 : (B = 2 ^ (ey - ex - 1) * (2 * A))%Z).
        { unfold A, B.
          rewrite <- (Z.pow_succ_r 2 (ex + scale)) by (unfold scale; lia).
          rewrite <- Z.pow_add_r by (unfold scale; lia). f_equal. lia. }
        assert (0 < 2 ^ (ey - ex - 1))%Z by (apply Z.pow_pos_nonneg; lia).
        rewrite E2. nia. }
      assert (T1 : (Zpos mx * A <= 9007199254740991 * A)%Z)
        by (apply Z.mul_le_mono_nonneg_r; lia).
      assert (T2 : (4503599627370496 * (2 * A) <= Zpos my * B)%Z)
        by (apply Z.mul_le_mono_nonneg; lia).
      lia.
    - set (B := (2 ^ (ey + scale))%Z).
      assert (HB : (0 < B)%Z)
        by (apply Z.pow_pos_nonneg; unfold scale; lia).
      assert (T : (Zpos mx * 9007199254740992 <= 9007199254740991 * Zpos my)%Z)
        by lia.
      replace (Zpos mx * B * 9007199254740992)%Z
        with (Zpos mx * 9007199254740992 * B)%Z by ring.
      replace (9007199254740991 * (Zpos my * B))%Z
        with (9007199254740991 * Zpos my * B)%Z by ring.
      apply Z.mul_le_mono_nonneg_r; lia. }
  assert (Hle : (RNDQ (fval x * 2 ^ scale) (fval y) <= P1)%Z).
  { rewrite <- HP1.
    rewrite <- (RNDQ_one P1).
    - apply RNDQ_mono; [exact Py|lia|exact P| |exact D].
      rewrite Hs. unfold P1.
      replace (fval x * (9007199254740992 * 2 ^ (scale - 53)) * 1)%Z
        with (fval x * 9007199254740992 * 2 ^ (scale - 53))%Z by ring.
      replace (9007199254740991 * 2 ^ (scale - 53) * fval y)%Z
        with (9007199254740991 * fval y * 2 ^ (scale - 53))%Z by ring.
      apply Z.mul_le_mono_nonneg_r; lia.
    - unfold P1. lia.
    - change P1 with (val 9007199254740991 (-53)).
      rewrite val_digits by (unfold scale; lia). vm_compute. reflexivity. }
  assert (HP1lt : (P1 < 2 ^ scale)%Z) by (rewrite Hs; unfold P1; lia).
  lia.
Qed.

End Float64_div.

(* ===================================================================== *)
(** ** Monotone costs and the ratio of the two costs *)

Module gcs_cost_props.

Import gcs gcs_props Float64_props Float64_exact Float64_div.
#[local] Open Scope float_scope.

Lemma SFeqb_leb_ltb (a b : spec_float) :
  SFeqb a b = SFleb a b && negb (SFltb a b).
Proof.
  unfold SFeqb, SFleb, SFltb. now destruct (SFcompare a b) as [[| |]|].
Qed.

Lemma eqb_leb_ltb (x y : float) : (x =? y) = (x <=? y) && negb (x <? y).
Proof.
  rewrite FloatAxioms.eqb_spec, FloatAxioms.leb_spec, FloatAxioms.ltb_spec.
  apply SFeqb_leb_ltb.
Qed.

Lemma ltb_not_eqb (a b c d : Z) (x y : float) :
  Between a b x -> Between c d y -> (x <? y) = true ->
  (x =? y) = false /\ (y =? x) = false.
Proof.
  intros Hx Hy L. rewrite !eqb_leb_ltb, L. split.
  - apply andb_false_r.
  - apply (ltb_fval _ _ _ _ _ _ Hx Hy) in L.
    destruct (y <=? x) eqn:E; [|reflexivity].
    apply (leb_fval _ _ _ _ _ _ Hy Hx) in E. lia.
Qed.

Lemma eqb_refl_Between (a b : Z) (x : float) : Between a b x -> (x =? x) = true.
Proof.
  intros Hx. rewrite eqb_leb_ltb, (leb_refl_Between _ _ _ Hx).
  destruct (x <? x) eqn:L; [|reflexivity].
  apply (ltb_fval _ _ _ _ _ _ Hx Hx) in L. lia.
Qed.

(** Positive floats of which neither is below the other are equal. *)
Lemma not_ltb_eq (a b c d : Z) (x y : float) :
  Between a b x -> Between c d y ->
  (x <? y) = false -> (y <? x) = false -> x = y.
Proof.
  intros Hx Hy L1 L2. apply (fval_inj _ _ _ _ _ _ Hx Hy).
  destruct (Z.lt_trichotomy (fval x) (fval y)) as [L|[E|L]]; [|exact E|].
  - apply (ltb_fval _ _ _ _ _ _ Hx Hy) in L. congruence.
  - apply (ltb_fval _ _ _ _ _ _ Hy Hx) in L. congruence.
Qed.

(** The conversion of a size plus one does not decrease with the size. *)
Lemma of_int_succ_mono (N1 N2 : Z) :
  (0 <= N1)%Z -> (N1 <= N2)%Z -> (N2 < 2 ^ 63)%Z ->
  (Float64.of_int N1 + 1 <=? Float64.of_int N2 + 1) = true.
Proof.
  intros H1 H12 H2.
  destruct (Z.eq_dec N1 0%Z) as [->|HN1].
  - change (Float64.of_int 0 + 1) with 1.
    destruct (Z.eq_dec N2 0%Z) as [->|HN2]; [reflexivity|].
    exact (add_ge_r _ _ _ _ _ _ (of_int_Between N2 ltac:(lia)) Between_one
             ltac:(lia) ltac:(lia)).
  - apply (add_mono 0 64 0 1); try lia.
    + apply of_int_Between; lia.
    + apply of_int_Between; lia.
    + exact Between_one.
    + exact Between_one.
    + apply of_int_mono; lia.
    + reflexivity.
Qed.

Section Costs.

Variable math_Exp : float -> float.
Variable math_Log2 : float -> float.
Variable Q : Z.

Hypothesis HQ : (1 <= Q < 2 ^ 63)%Z.
Hypothesis HLog2 :
  (0 <=? math_Log2 (Float64.of_int Q)) = true /\
  (math_Log2 (Float64.of_int Q) <=? 64) = true.
Hypothesis HExp :
  (0 <=? math_Exp (- Float64.of_int Q / M)) = true /\
  (math_Exp (- Float64.of_int Q / M) <? 1) = true.

Lemma expReads_mono (N1 N2 : Z) :
  (0 <= N1)%Z -> (N1 <= N2)%Z -> (N2 < 2 ^ 63)%Z ->
  (expReads (Float64.of_int Q) (Float64.of_int N1)
     (expQueries math_Exp (Float64.of_int Q)) <=?
   expReads (Float64.of_int Q) (Float64.of_int N2)
     (expQueries math_Exp (Float64.of_int Q))) = true.
Proof.
  intros H1 H12 H2. unfold expReads.
  assert (HQ0 : Float64.nonneg_int Q) by (unfold Float64.nonneg_int; lia).
  destruct (expReads_quotient_Between Q N1 HQ0 ltac:(unfold Float64.nonneg_int; lia))
    as (Hn1 & Hq & Hd1).
  destruct (expReads_quotient_Between Q N2 HQ0 ltac:(unfold Float64.nonneg_int; lia))
    as (Hn2 & _ & Hd2).
  pose proof (expQueries_Between math_Exp Q HExp) as HeQ.
  apply (mul_mono (-66) 67 (-34) 22); try assumption; try lia.
  - apply (div_mono 0 66 0 66); try assumption; try lia.
    + now apply of_int_succ_mono.
    + exact (leb_refl_Between _ _ _ Hq).
  - exact (leb_refl_Between _ _ _ HeQ).
Qed.

Lemma zipCost_mono (N1 N2 : Z) :
  (0 <= N1)%Z -> (N1 <= N2)%Z -> (N2 < 2 ^ 63)%Z ->
  (zipCost math_Exp math_Log2 Q N1 <=? zipCost math_Exp math_Log2 Q N2) = true.
Proof.
  intros H1 H12 H2.
  pose proof (expReads_mono N1 N2 H1 H12 H2) as HN.
  unfold zipCost, costZip. destruct HLog2 as [L0 L1].
  pose proof (of_int_Between Q HQ) as Hq.
  pose proof (expQueries_Between math_Exp Q HExp) as HeQ.
  assert (HeN : forall N, (0 <= N < 2 ^ 63)%Z ->
            Between (-100) 90
              (expReads (Float64.of_int Q) (Float64.of_int N)
                 (expQueries math_Exp (Float64.of_int Q)))).
  { intros N HN'. now apply expReads_Between. }
  set (eQ := expQueries math_Exp (Float64.of_int Q)) in *.
  set (eN1 := expReads (Float64.of_int Q) (Float64.of_int N1) eQ) in *.
  set (eN2 := expReads (Float64.of_int Q) (Float64.of_int N2) eQ) in *.
  assert (B1 : Between (-100) 90 eN1) by (apply HeN; lia).
  assert (B2 : Between (-100) 90 eN2) by (apply HeN; lia).
  pose proof (mul_Between_Between _ _ _ _ _ _ Hq Between_CostKey
                ltac:(lia) ltac:(lia)) as T1.
  pose proof (mul_Between_ZeroOrBelow _ _ _ _ _ Hq (log_range _ L0 L1)
                ltac:(lia) ltac:(lia)) as T2.
  pose proof (mul_ZeroOrBelow_Between _ _ _ _ _ T2 Between_CostSort
                ltac:(lia) ltac:(lia)) as T3.
  pose proof (add_Between_ZeroOrBelow _ _ _ _ _ T1 T3
                ltac:(lia) ltac:(lia)) as T4.
  assert (T5 : forall eN, Between (-100) 90 eN -> Between (-34) 92 (eQ + eN)).
  { intros eN B. eapply Between_weaken;
      [exact (add_Between_Between _ _ _ _ _ _ HeQ B ltac:(lia) ltac:(lia))
      |lia|lia]. }
  assert (T6 : forall eN, Between (-100) 90 eN ->
            Between (-34) 94 ((eQ + eN) * CostComp)).
  { intros eN B. eapply Between_weaken;
      [exact (mul_Between_Between _ _ _ _ _ _ (T5 eN B) Between_CostComp
                ltac:(lia) ltac:(lia))|lia|lia]. }
  set (fixed := Float64.of_int Q * CostKey
                + Float64.of_int Q * math_Log2 (Float64.of_int Q) * CostSort) in *.
  assert (T4' : Between 1 83 fixed)
    by (eapply Between_weaken; [exact T4|lia|lia]).
  assert (T7 : forall eN, Between (-100) 90 eN ->
            Between 1 96 (fixed + (eQ + eN) * CostComp)).
  { intros eN B. eapply Between_weaken;
      [exact (add_Between_Between _ _ _ _ _ _ T4' (T6 eN B) ltac:(lia) ltac:(lia))
      |lia|lia]. }
  assert (T8 : forall eN, Between (-100) 90 eN -> Between (-96) 96 (eN * CostRead)).
  { intros eN B. eapply Between_weaken;
      [exact (mul_Between_Between _ _ _ _ _ _ B Between_CostRead
                ltac:(lia) ltac:(lia))|lia|lia]. }
  assert (M5 : (eQ + eN1 <=? eQ + eN2) = true).
  { apply (add_mono (-34) 22 (-100) 90);
      first [assumption|lia|exact (leb_refl_Between _ _ _ HeQ)]. }
  assert (M6 : ((eQ + eN1) * CostComp <=? (eQ + eN2) * CostComp) = true).
  { apply (mul_mono (-34) 92 0 1);
      first [assumption|lia|exact Between_CostComp|reflexivity
            |apply T5; assumption]. }
  assert (M7 : (fixed + (eQ + eN1) * CostComp <=?
                fixed + (eQ + eN2) * CostComp) = true).
  { apply (add_mono 1 83 (-34) 94);
      first [assumption|lia|exact (leb_refl_Between _ _ _ T4')
            |apply T6; assumption]. }
  assert (M8 : (eN1 * CostRead <=? eN2 * CostRead) = true).
  { apply (mul_mono (-100) 90 4 5);
      first [assumption|lia|exact Between_CostRead|reflexivity]. }
  apply (add_mono 1 96 (-96) 96);
    first [assumption|lia|apply T7; assumption|apply T8; assumption].
Qed.

Variable N : Z.
Hypothesis HN : Float64.nonneg_int N.

(** The ratio is one exactly on a tie of the two costs, which selects
    Hash, and below one otherwise. *)
Lemma Optimize_ratio_tie :
  (snd (Optimize math_Exp math_Log2 Q N) <? 1) =
    negb (zipCost math_Exp math_Log2 Q N =? hashCost math_Exp Q N) /\
  (snd (Optimize math_Exp math_Log2 Q N) =? 1) =
    (zipCost math_Exp math_Log2 Q N =? hashCost math_Exp Q N) /\
  (fst (Optimize math_Exp math_Log2 Q N) = MatchZip ->
   (snd (Optimize math_Exp math_Log2 Q N) <? 1) = true).
Proof.
  pose proof (zipCost_Between math_Exp math_Log2 Q N HQ HN HLog2 HExp) as HZ.
  pose proof (hashCost_Between math_Exp Q N HN HExp) as HH.
  rewrite Optimize_unfold.
  set (z := zipCost math_Exp math_Log2 Q N) in *.
  set (h := hashCost math_Exp Q N) in *.
  destruct (z <? h) eqn:Lzh; cbn [fst snd].
  - pose proof (div_lt_one _ _ _ _ _ _ HZ HH ltac:(lia) ltac:(lia) Lzh) as Hr.
    pose proof (div_Between_Between _ _ _ _ _ _ HZ HH ltac:(lia) ltac:(lia)) as Br.
    destruct (ltb_not_eqb _ _ _ _ _ _ HZ HH Lzh) as [-> _].
    destruct (ltb_not_eqb _ _ _ _ _ _ Br Between_one Hr) as [-> _].
    rewrite Hr. repeat split.
  - destruct (h <? z) eqn:Lhz.
    + pose proof (div_lt_one _ _ _ _ _ _ HH HZ ltac:(lia) ltac:(lia) Lhz) as Hr.
      pose proof (div_Between_Between _ _ _ _ _ _ HH HZ ltac:(lia) ltac:(lia)) as Br.
      destruct (ltb_not_eqb _ _ _ _ _ _ HH HZ Lhz) as [_ ->].
      destruct (ltb_not_eqb _ _ _ _ _ _ Br Between_one Hr) as [-> _].
      rewrite Hr. split; [reflexivity|]. split; [reflexivity|discriminate].
    + assert (E : z = h) by exact (not_ltb_eq _ _ _ _ _ _ HZ HH Lzh Lhz).
      rewrite E, (div_self_one _ _ _ HH), (eqb_refl_Between _ _ _ HH).
      split; [reflexivity|]. split; [reflexivity|discriminate].
Qed.

(** The factor [TestOptimize] prints, one over the ratio, is finite and at
    least one. *)
Lemma Optimize_speedup :
  (1 <=? 1 / snd (Optimize math_Exp math_Log2 Q N)) = true /\
  (1 / snd (Optimize math_Exp math_Log2 Q N) <? infinity) = true.
Proof.
  pose proof (zipCost_Between math_Exp math_Log2 Q N HQ HN HLog2 HExp) as HZ.
  pose proof (hashCost_Between math_Exp Q N HN HExp) as HH.
  pose proof (Optimize_ratio_in_unit math_Exp math_Log2 Q N HQ HN HLog2 HExp) as HR.
  unfold ratio_in_unit in HR. apply andb_true_iff in HR as [_ HR].
  assert (Br : Between (-128) 129 (snd (Optimize math_Exp math_Log2 Q N))).
  { rewrite Optimize_unfold.
    destruct (zipCost math_Exp math_Log2 Q N <? hashCost math_Exp Q N);
      cbn [snd]; eapply Between_weaken.
    - exact (div_Between_Between _ _ _ _ _ _ HZ HH ltac:(lia) ltac:(lia)).
    - lia.
    - lia.
    - exact (div_Between_Between _ _ _ _ _ _ HH HZ ltac:(lia) ltac:(lia)).
    - lia.
    - lia. }
  set (r := snd (Optimize math_Exp math_Log2 Q N)) in *.
  assert (B1 : Between (-128) 129 1)
    by (eapply Between_weaken; [exact Between_one|lia|lia]).
  split.
  - change 1 with (1 / 1) at 1.
    apply (div_mono 0 1 (-128) 129);
      first [assumption|lia|exact Between_one|reflexivity].
  - eapply Between_finite.
    exact (div_Between_Between _ _ _ _ _ _ Between_one Br ltac:(lia) ltac:(lia)).
Qed.

End Costs.

End gcs_cost_props.

(* ===================================================================== *)
(** ** Further properties of the cost model *)

Module gcs_properties.

Import gcs gcs_props Float64_props Float64_exact gcs_cost_props.
#[local] Open Scope float_scope.

(** X1: [TestOptimize] prints the tag [Optimize] returns as "Zip" when the
    Zip cost is the smaller one and as "Hash" otherwise, never as "Block"
    or "Unknown"; [String] gives "Unknown" exactly for the values that are
    none of the three declared tags. *)
Theorem Optimize_tag_name (math_Exp math_Log2 : float -> float) (Q N : Z) :
  MatchType_String (MatchType_value (fst (Optimize math_Exp math_Log2 Q N))) =
    (if zipCost math_Exp math_Log2 Q N <? hashCost math_Exp Q N
     then "Zip"%string else "Hash"%string) /\
  forall m : Z,
    MatchType_String m = "Unknown"%string <->
    m <> MatchType_value MatchBlock /\ m <> MatchType_value MatchZip /\
    m <> MatchType_value MatchHash.
Proof.
  split.
  - rewrite Optimize_unfold.
    now destruct (zipCost math_Exp math_Log2 Q N <? hashCost math_Exp Q N).
  - intros m. unfold MatchType_String. cbn [MatchType_value].
    destruct (Z.eqb_spec m 0); [split; [discriminate|lia]|].
    destruct (Z.eqb_spec m 1); [split; [discriminate|lia]|].
    destruct (Z.eqb_spec m 2); [split; [discriminate|lia]|].
    split; [lia|reflexivity].
Qed.

(** X2: When [math.Log2] of the query size is NaN, as it is for a negative
    size, the Zip cost is NaN and [Optimize] returns Hash with a NaN
    ratio, whatever the filter size. *)
Theorem Optimize_nan_logarithm (math_Exp math_Log2 : float -> float) (Q N : Z)
  (HLog2 : math_Log2 (Float64.of_int Q) = nan) :
  zipCost math_Exp math_Log2 Q N = nan /\
  Optimize math_Exp math_Log2 Q N = (MatchHash, nan).
Proof.
  assert (E : zipCost math_Exp math_Log2 Q N = nan).
  { unfold zipCost, costZip. rewrite HLog2.
    now rewrite mul_nan_r, nan_mul_l, add_nan_r, !nan_add_l. }
  split; [exact E|].
  rewrite Optimize_unfold, E, ltb_nan_l, div_nan_r. reflexivity.
Qed.

Lemma Optimize_nan_logarithm_witness :
  zipCost GoMath.Exp GoMath.Log2 (-5) 1000 = nan /\
  Optimize GoMath.Exp GoMath.Log2 (-5) 1000 = (MatchHash, nan).
Proof.
  apply (Optimize_nan_logarithm GoMath.Exp GoMath.Log2 (-5) 1000).
  vm_compute. reflexivity.
Defined.

(** X3: The expected number of distinct slots is positive and at most [M],
    whenever [math.Exp] returns a value in [[0, 1)]. *)
Theorem expQueries_range (math_Exp : float -> float) (q : float)
  (HExp : (0 <=? math_Exp (- q / M)) = true /\
          (math_Exp (- q / M) <? 1) = true) :
  (0 <? expQueries math_Exp q) = true /\
  (expQueries math_Exp q <=? M) = true.
Proof.
  destruct HExp as [H0 H1]. unfold expQueries.
  pose proof (sub_one_Between _ H0 H1) as B.
  pose proof (sub_one_le_one _ H0 H1) as L.
  split.
  - eapply Between_gt_zero.
    exact (mul_Between_Between _ _ _ _ _ _ Between_M B ltac:(lia) ltac:(lia)).
  - assert (HM : (M * (1 - math_Exp (- q / M)) <=? M * 1) = true);
      [|exact HM].
    apply (mul_mono 19 20 (-53) 1); try assumption; try lia.
    + exact Between_M.
    + exact Between_M.
    + eapply Between_weaken; [exact Between_one|lia|lia].
    + reflexivity.
Qed.

Lemma expQueries_range_witness :
  (0 <? expQueries GoMath.Exp 1000) = true /\
  (expQueries GoMath.Exp 1000 <=? M) = true.
Proof.
  apply (expQueries_range GoMath.Exp 1000).
  split; vm_compute; reflexivity.
Defined.







(** X7: The Zip cost does not decrease when the filter grows. *)
Theorem zipCost_monotone_in_filter (math_Exp math_Log2 : float -> float)
  (Q N1 N2 : Z)
  (HQ : (1 <= Q < 2 ^ 63)%Z)
  (HN1 : (0 <= N1)%Z) (HN12 : (N1 <= N2)%Z) (HN2 : (N2 < 2 ^ 63)%Z)
  (HLog2 : (0 <=? math_Log2 (Float64.of_int Q)) = true /\
           (math_Log2 (Float64.of_int Q) <=? 64) = true)
  (HExp : (0 <=? math_Exp (- Float64.of_int Q / M)) = true /\
          (math_Exp (- Float64.of_int Q / M) <? 1) = true) :
  (expReads (Float64.of_int Q) (Float64.of_int N1)
     (expQueries math_Exp (Float64.of_int Q)) <=?
   expReads (Float64.of_int Q) (Float64.of_int N2)
     (expQueries math_Exp (Float64.of_int Q))) = true /\
  (zipCost math_Exp math_Log2 Q N1 <=? zipCost math_Exp math_Log2 Q N2) = true.
Proof.
  split.
  - now apply expReads_mono.
  - now apply zipCost_mono.
Qed.

Lemma zipCost_monotone_in_filter_witness :
  (expReads (Float64.of_int 100) (Float64.of_int 0)
     (expQueries GoMath.Exp (Float64.of_int 100)) <=?
   expReads (Float64.of_int 100) (Float64.of_int 1000)
     (expQueries GoMath.Exp (Float64.of_int 100))) = true /\
  (zipCost GoMath.Exp GoMath.Log2 100 0 <=?
   zipCost GoMath.Exp GoMath.Log2 100 1000) = true.
Proof.
  apply (zipCost_monotone_in_filter GoMath.Exp GoMath.Log2 100 0 1000); try lia.
  - split; vm_compute; reflexivity.
  - split; vm_compute; reflexivity.
Defined.

(** X8: The ratio [Optimize] returns is exactly one if and only if the two
    costs are equal, in which case the tag is Hash; otherwise it is
    strictly below one.  In particular Zip comes with a ratio strictly
    below one. *)
Theorem Optimize_ratio_one_iff_tie (math_Exp math_Log2 : float -> float)
  (Q N : Z)
  (HQ : (1 <= Q < 2 ^ 63)%Z)
  (HN : Float64.nonneg_int N)
  (HLog2 : (0 <=? math_Log2 (Float64.of_int Q)) = true /\
           (math_Log2 (Float64.of_int Q) <=? 64) = true)
  (HExp : (0 <=? math_Exp (- Float64.of_int Q / M)) = true /\
          (math_Exp (- Float64.of_int Q / M) <? 1) = true) :
  (snd (Optimize math_Exp math_Log2 Q N) <? 1) =
    negb (zipCost math_Exp math_Log2 Q N =? hashCost math_Exp Q N) /\
  (snd (Optimize math_Exp math_Log2 Q N) =? 1) =
    (zipCost math_Exp math_Log2 Q N =? hashCost math_Exp Q N) /\
  (fst (Optimize math_Exp math_Log2 Q N) = MatchZip ->
   (snd (Optimize math_Exp math_Log2 Q N) <? 1) = true).
Proof. now apply Optimize_ratio_tie. Qed.

Lemma Optimize_ratio_one_iff_tie_witness :
  (snd (Optimize GoMath.Exp GoMath.Log2 1 1000) <? 1) =
    negb (zipCost GoMath.Exp GoMath.Log2 1 1000 =? hashCost GoMath.Exp 1 1000) /\
  (snd (Optimize GoMath.Exp GoMath.Log2 1 1000) =? 1) =
    (zipCost GoMath.Exp GoMath.Log2 1 1000 =? hashCost GoMath.Exp 1 1000) /\
  (fst (Optimize GoMath.Exp GoMath.Log2 1 1000) = MatchZip ->
   (snd (Optimize GoMath.Exp GoMath.Log2 1 1000) <? 1) = true).
Proof.
  apply (Optimize_ratio_one_iff_tie GoMath.Exp GoMath.Log2 1 1000).
  - lia.
  - unfold Float64.nonneg_int. lia.
  - split; vm_compute; reflexivity.
  - split; vm_compute; reflexivity.
Defined.

(** X9: The factor [TestOptimize] prints for each pair of sizes, one over the
    ratio, is a finite number that is at least one. *)
Theorem TestOptimize_factor (math_Exp math_Log2 : float -> float)
  (Q N : Z)
  (HQ : (1 <= Q < 2 ^ 63)%Z)
  (HN : Float64.nonneg_int N)
  (HLog2 : (0 <=? math_Log2 (Float64.of_int Q)) = true /\
           (math_Log2 (Float64.of_int Q) <=? 64) = true)
  (HExp : (0 <=? math_Exp (- Float64.of_int Q / M)) = true /\
          (math_Exp (- Float64.of_int Q / M) <? 1) = true) :
  (1 <=? 1 / snd (Optimize math_Exp math_Log2 Q N)) = true /\
  (1 / snd (Optimize math_Exp math_Log2 Q N) <? infinity) = true.
Proof. now apply Optimize_speedup. Qed.

Lemma TestOptimize_factor_witness :
  (1 <=? 1 / snd (Optimize GoMath.Exp GoMath.Log2 1000 100)) = true /\
  (1 / snd (Optimize GoMath.Exp GoMath.Log2 1000 100) <? infinity) = true.
Proof.
  apply (TestOptimize_factor GoMath.Exp GoMath.Log2 1000 100).
  - lia.
  - unfold Float64.nonneg_int. lia.
  - split; vm_compute; reflexivity.
  - split; vm_compute; reflexivity.
Defined.

(** X10: The conversions [float64(querySize)] and [float64(filterSize)] at the
    head of [Optimize] keep the order of the sizes, and keep sizes up to
    [2^53] apart: a smaller size gives a strictly smaller float. *)
Theorem size_conversion_monotone (Q1 Q2 : Z)
  (H1 : (0 <= Q1)%Z) (H12 : (Q1 <= Q2)%Z) (H2 : (Q2 < 2 ^ 63)%Z) :
  (Float64.of_int Q1 <=? Float64.of_int Q2) = true /\
  ((Q1 < Q2)%Z -> (Q2 <= 2 ^ 53)%Z ->
   (Float64.of_int Q1 <? Float64.of_int Q2) = true).
Proof.
  split; [now apply of_int_weak|]. intros. now apply of_int_strict.
Qed.

Lemma size_conversion_monotone_witness :
  (Float64.of_int 999 <=? Float64.of_int 1000) = true /\
  ((999 < 1000)%Z -> (1000 <= 2 ^ 53)%Z ->
   (Float64.of_int 999 <? Float64.of_int 1000) = true).
Proof. apply (size_conversion_monotone 999 1000); lia. Defined.

End gcs_properties.

(* ===================================================================== *)
(** ** Properties of the benchmark loops *)

Module gcs_bench_props.

Import gcs_bench.

Lemma compareWalk_returns (s1 s2 : list Z) (n idx1 idx2 : nat) :
  (idx1 <= length s1)%nat -> (idx2 <= length s2)%nat ->
  (length s1 - idx1 + (length s2 - idx2) < n)%nat ->
  exists i1 i2,
    compareWalk n s1 s2 idx1 idx2 = Returned i1 i2 /\
    (idx1 <= i1 <= length s1)%nat /\ (idx2 <= i2 <= length s2)%nat /\
    (i1 = length s1 \/ i2 = length s2).
Proof.
  revert idx1 idx2. induction n as [|n IH]; intros idx1 idx2 H1 H2 Hn; [lia|].
  cbn [compareWalk].
  destruct (Nat.eqb_spec idx1 (length s1)) as [E1|N1].
  { exists idx1, idx2. split; [reflexivity|]. split; [lia|]. split; [lia|]. now left. }
  destruct (Nat.eqb_spec idx2 (length s2)) as [E2|N2].
  { exists idx1, idx2. split; [reflexivity|]. split; [lia|]. split; [lia|]. now right. }
  destruct (lookup_lt_is_Some_2 s1 idx1 ltac:(lia)) as [a ->].
  destruct (lookup_lt_is_Some_2 s2 idx2 ltac:(lia)) as [b ->].
  destruct (a <? b).
  - destruct (IH (S idx1) idx2 ltac:(lia) ltac:(lia) ltac:(lia))
      as (i1 & i2 & -> & A & B & C).
    exists i1, i2. split; [reflexivity|]. split; [lia|]. split; [lia|]. exact C.
  - destruct (IH idx1 (S idx2) ltac:(lia) ltac:(lia) ltac:(lia))
      as (i1 & i2 & -> & A & B & C).
    exists i1, i2. split; [reflexivity|]. split; [lia|]. split; [lia|]. exact C.
Qed.

(** More iterations than needed change nothing. *)
Lemma compareWalk_more (s1 s2 : list Z) (n k idx1 idx2 i1 i2 : nat) :
  compareWalk n s1 s2 idx1 idx2 = Returned i1 i2 ->
  compareWalk (n + k) s1 s2 idx1 idx2 = Returned i1 i2.
Proof.
  revert idx1 idx2. induction n as [|n IH]; intros idx1 idx2; [discriminate|].
  cbn [compareWalk Nat.add].
  destruct (idx1 =? length s1)%nat; [auto|].
  destruct (idx2 =? length s2)%nat; [auto|].
  destruct (s1 !! idx1); [|auto]. destruct (s2 !! idx2); [|auto].
  destruct (_ <? _); apply IH.
Qed.

Lemma inserted_elem (s : list Z) (m : gset Z) (v : Z) :
  v ∈ fold_left (fun (m : gset Z) v => {[ v ]} ∪ m) s m <-> v ∈ s \/ v ∈ m.
Proof.
  revert m. induction s as [|x s IH]; intros m; cbn.
  - rewrite elem_of_nil. tauto.
  - rewrite IH, elem_of_union, elem_of_singleton, elem_of_cons. tauto.
Qed.

Lemma lookups_hit (m : gset Z) (s : list Z) (ok : bool) :
  (forall v, v ∈ s -> v ∈ m) ->
  fold_left (fun _ v => bool_decide (v ∈ m)) s ok =
  match s with
  | [] => ok
  | _ => true
  end.
Proof.
  revert ok. induction s as [|x s IH]; intros ok Hin; cbn.
  - reflexivity.
  - rewrite IH by (intros v Hv; apply Hin; now right).
    destruct s; [|reflexivity]. apply bool_decide_eq_true_2, Hin. now left.
Qed.

End gcs_bench_props.

Module gcs_bench_properties.

Import gcs_bench gcs_bench_props.

(** X11: The loop of [BenchmarkCostComp] ends within [len(s1) + len(s2) + 1]
    iterations, whatever the two slices hold: it returns with one of the
    indices at the end of its slice and the other within its slice, and
    no index is ever out of range. *)
Theorem compareWalk_terminates (s1 s2 : list Z) (k : nat) :
  exists i1 i2,
    compareWalk (length s1 + length s2 + 1 + k) s1 s2 0 0 = Returned i1 i2 /\
    (i1 <= length s1)%nat /\ (i2 <= length s2)%nat /\
    (i1 = length s1 \/ i2 = length s2).
Proof.
  destruct (compareWalk_returns s1 s2 (length s1 + length s2 + 1) 0 0
              ltac:(lia) ltac:(lia) ltac:(lia)) as (i1 & i2 & E & A & B & C).
  exists i1, i2. split; [now apply compareWalk_more|].
  split; [lia|]. split; [lia|]. exact C.
Qed.

(** X12: In [BenchmarkCostLookup] every lookup hits: the loop leaves the
    package variable [ok] true when the slice is not empty, and as it was
    when the slice is empty. *)
Theorem BenchmarkCostLookup_ok (s : list Z) (ok : bool) :
  BenchmarkCostLookup s ok =
  match s with
  | [] => ok
  | _ => true
  end.
Proof.
  unfold BenchmarkCostLookup. apply lookups_hit.
  intros v Hv. apply inserted_elem. now left.
Qed.

End gcs_bench_properties.

(* ===================================================================== *)
(** ** The three orders of package txsort *)

Module txsort_order.

Import txsort txsort_props.

(** *** [bytes.Compare] is a three-way comparison of a total order *)

Lemma Byte_to_N_inj (x y : Byte.byte) : Byte.to_N x = Byte.to_N y -> x = y.
Proof.
  intros H. apply (f_equal Byte.of_N) in H.
  rewrite !Byte.of_to_N in H. congruence.
Qed.

Lemma bytes_Compare_cases (a b : list Byte.byte) :
  bytes_Compare a b = -1 \/ bytes_Compare a b = 0 \/ bytes_Compare a b = 1.
Proof.
  revert b. induction a as [|x a IH]; intros [|y b]; cbn; auto.
  destruct (Byte.to_N x ?= Byte.to_N y)%N; auto.
Qed.

Lemma bytes_Compare_eq (a b : list Byte.byte) :
  bytes_Compare a b = 0 <-> a = b.
Proof.
  revert b. induction a as [|x a IH]; intros [|y b]; cbn; try (split; congruence).
  destruct (N.compare_spec (Byte.to_N x) (Byte.to_N y)) as [E|L|L].
  - apply Byte_to_N_inj in E. subst y. rewrite IH. split; congruence.
  - split; [discriminate|]. intros [= -> _]. lia.
  - split; [discriminate|]. intros [= -> _]. lia.
Qed.

Lemma bytes_Compare_refl (a : list Byte.byte) : bytes_Compare a a = 0.
Proof. now apply bytes_Compare_eq. Qed.

Lemma bytes_Compare_trans (a b c : list Byte.byte) :
  bytes_Compare a b = -1 -> bytes_Compare b c = -1 -> bytes_Compare a c = -1.
Proof.
  revert b c. induction a as [|x a IH]; intros [|y b] [|z c]; cbn;
    try discriminate; try reflexivity.
  destruct (N.compare_spec (Byte.to_N x) (Byte.to_N y)) as [E1|L1|L1];
    destruct (N.compare_spec (Byte.to_N y) (Byte.to_N z)) as [E2|L2|L2];
    try discriminate; intros H1 H2.
  - rewrite E1, E2, N.compare_refl. eauto.
  - rewrite E1. now rewrite (proj2 (N.compare_lt_iff _ _) L2).
  - rewrite <- E2. now rewrite (proj2 (N.compare_lt_iff _ _) L1).
  - now rewrite (proj2 (N.compare_lt_iff _ _) (N.lt_trans _ _ _ L1 L2)).
Qed.

(** Neither slice below the other: the slices are equal. *)
Lemma bytes_Compare_total (a b : list Byte.byte) :
  bytes_Compare a b <> -1 -> bytes_Compare b a <> -1 -> a = b.
Proof.
  intros H1 H2. apply bytes_Compare_eq.
  rewrite (bytes_Compare_antisym a b) in H2.
  destruct (bytes_Compare_cases a b) as [?|[?|?]]; lia.
Qed.

(** *** The orders [sort.Sort] asks for

    A [Less] method must be a transitive ordering: irreflexive,
    transitive, and with a transitive "not less". *)
Definition ordering {A : Type} (less : A -> A -> bool) : Prop :=
  (forall x, less x x = false) /\
  (forall x y z, less x y = true -> less y z = true -> less x z = true) /\
  (forall x y z, less x y = false -> less y z = false -> less x z = false).

Lemma ordering_asym {A : Type} (less : A -> A -> bool) :
  ordering less -> forall x y, less x y = true -> less y x = false.
Proof.
  intros (Hirr & Htr & _) x y Hxy.
  destruct (less y x) eqn:Hyx; [|reflexivity].
  rewrite <- (Hirr x). symmetry. eauto.
Qed.

(** The key an input is ordered by: the reversed hash, then the index. *)
Definition input_lt (a b : wire.TxIn) : Prop :=
  let ha := rev (wire.Hash (wire.PreviousOutPoint a)) in
  let hb := rev (wire.Hash (wire.PreviousOutPoint b)) in
  bytes_Compare ha hb = -1 \/
  (ha = hb /\ wire.Index (wire.PreviousOutPoint a) < wire.Index (wire.PreviousOutPoint b)).

Lemma rev_inj' {A : Type} (l1 l2 : list A) : rev l1 = rev l2 -> l1 = l2.
Proof. intros H. apply (f_equal (@rev A)) in H. now rewrite !rev_involutive in H. Qed.

Lemma sortableInputSlice_Less_lt (a b : wire.TxIn) :
  sortableInputSlice_Less a b = true <-> input_lt a b.
Proof.
  unfold sortableInputSlice_Less, input_lt. cbv zeta.
  destruct (decide (wire.Hash (wire.PreviousOutPoint a) =
                    wire.Hash (wire.PreviousOutPoint b))) as [E|NE].
  - rewrite bool_decide_eq_true_2 by exact E. rewrite E, bytes_Compare_refl.
    rewrite Z.ltb_lt. split; [auto|]. intros [H|[_ H]]; [discriminate|exact H].
  - rewrite bool_decide_eq_false_2 by exact NE. rewrite Z.eqb_eq.
    split; [auto|]. intros [H|[H _]]; [exact H|]. now apply rev_inj' in H.
Qed.

Lemma input_lt_irrefl (a : wire.TxIn) : ~ input_lt a a.
Proof. unfold input_lt. rewrite bytes_Compare_refl. lia. Qed.

Lemma input_lt_trans (a b c : wire.TxIn) :
  input_lt a b -> input_lt b c -> input_lt a c.
Proof.
  unfold input_lt. cbv zeta. intros [H1|[E1 I1]] [H2|[E2 I2]].
  - left. eapply bytes_Compare_trans; eassumption.
  - left. now rewrite <- E2.
  - left. now rewrite E1.
  - right. split; [congruence|lia].
Qed.

Lemma input_lt_total (a b : wire.TxIn) :
  ~ input_lt a b -> ~ input_lt b a ->
  wire.PreviousOutPoint a = wire.PreviousOutPoint b.
Proof.
  unfold input_lt. cbv zeta. intros H1 H2.
  assert (E : rev (wire.Hash (wire.PreviousOutPoint a)) =
              rev (wire.Hash (wire.PreviousOutPoint b))).
  { apply bytes_Compare_total; tauto. }
  assert (wire.Index (wire.PreviousOutPoint a) =
          wire.Index (wire.PreviousOutPoint b)).
  { destruct (Z.lt_trichotomy (wire.Index (wire.PreviousOutPoint a))
                (wire.Index (wire.PreviousOutPoint b))) as [L|[L|L]];
      [exfalso; apply H1; right; split; assumption | exact L
      |exfalso; apply H2; right; split; [symmetry|]; assumption]. }
  apply rev_inj' in E.
  destruct (wire.PreviousOutPoint a), (wire.PreviousOutPoint b); cbn in *.
  congruence.
Qed.

Lemma input_lt_same (a b c : wire.TxIn) :
  wire.PreviousOutPoint a = wire.PreviousOutPoint b ->
  (input_lt a c <-> input_lt b c) /\ (input_lt c a <-> input_lt c b).
Proof. unfold input_lt. intros ->. tauto. Qed.


(** An order given by a key: what is neither less nor greater has the same
    key, and elements with the same key compare alike. *)
Lemma ordering_intro {A : Type} (less : A -> A -> bool) (same : A -> A -> Prop) :
  (forall x, less x x = false) ->
  (forall x y z, less x y = true -> less y z = true -> less x z = true) ->
  (forall x y, less x y = false -> less y x = false -> same x y) ->
  (forall x y z, same x y -> less x z = less y z) ->
  ordering less.
Proof.
  intros Hirr Htr Htot Hsame. split; [exact Hirr|]. split; [exact Htr|].
  intros x y z Hxy Hyz. destruct (less x z) eqn:Hxz; [|reflexivity].
  destruct (less y x) eqn:Hyx.
  - rewrite <- Hyz. symmetry. eauto.
  - rewrite <- Hyz, <- Hxz. symmetry. apply Hsame. now apply Htot.
Qed.

Lemma not_true_iff (b : bool) (P : Prop) : (b = true <-> P) -> b = false -> ~ P.
Proof. intros H Hb HP. apply H in HP. congruence. Qed.

Lemma sortableInputSlice_Less_total (a b : wire.TxIn) :
  sortableInputSlice_Less a b = false -> sortableInputSlice_Less b a = false ->
  wire.PreviousOutPoint a = wire.PreviousOutPoint b.
Proof.
  intros H1 H2. apply input_lt_total.
  - exact (not_true_iff _ _ (sortableInputSlice_Less_lt a b) H1).
  - exact (not_true_iff _ _ (sortableInputSlice_Less_lt b a) H2).
Qed.

Lemma sortableInputSlice_Less_ordering : ordering sortableInputSlice_Less.
Proof.
  apply (ordering_intro _
           (fun a b => wire.PreviousOutPoint a = wire.PreviousOutPoint b)).
  - intros x. destruct (sortableInputSlice_Less x x) eqn:E; [|reflexivity].
    apply sortableInputSlice_Less_lt in E. now apply input_lt_irrefl in E.
  - intros x y z H1 H2. apply sortableInputSlice_Less_lt.
    apply sortableInputSlice_Less_lt in H1, H2.
    eapply input_lt_trans; eassumption.
  - exact sortableInputSlice_Less_total.
  - intros x y z E. unfold sortableInputSlice_Less. now rewrite E.
Qed.

Lemma TxOut_eq (a b : wire.TxOut) :
  wire.Value a = wire.Value b -> wire.PkScript a = wire.PkScript b -> a = b.
Proof. destruct a, b; cbn; congruence. Qed.

Lemma sortableOutputSlice_Less_total (a b : wire.TxOut) :
  sortableOutputSlice_Less a b = false -> sortableOutputSlice_Less b a = false ->
  a = b.
Proof.
  unfold sortableOutputSlice_Less.
  destruct (Z.eqb_spec (wire.Value a) (wire.Value b)) as [E|NE].
  - rewrite Z.eqb_sym, (proj2 (Z.eqb_eq _ _) E).
    intros H1 H2. apply TxOut_eq; [exact E|].
    apply bytes_Compare_total; lia.
  - rewrite Z.eqb_sym, (proj2 (Z.eqb_neq _ _) NE). lia.
Qed.

Lemma sortableOutputSlice_Less_ordering : ordering sortableOutputSlice_Less.
Proof.
  apply (ordering_intro _ eq).
  - intros x. unfold sortableOutputSlice_Less.
    now rewrite Z.eqb_refl, bytes_Compare_refl.
  - intros x y z. unfold sortableOutputSlice_Less.
    destruct (Z.eqb_spec (wire.Value x) (wire.Value y)) as [E1|N1];
      destruct (Z.eqb_spec (wire.Value y) (wire.Value z)) as [E2|N2];
      destruct (Z.eqb_spec (wire.Value x) (wire.Value z)) as [E3|N3];
      try lia.
    intros H1 H2.
    pose proof (bytes_Compare_cases (wire.PkScript x) (wire.PkScript y)).
    pose proof (bytes_Compare_cases (wire.PkScript y) (wire.PkScript z)).
    rewrite (bytes_Compare_trans (wire.PkScript x) (wire.PkScript y)
               (wire.PkScript z)); [reflexivity|lia|lia].
  - exact sortableOutputSlice_Less_total.
  - now intros x y z ->.
Qed.

Lemma txOutWithContext_eq (a b : txOutWithContext) :
  TxOut a = TxOut b -> Context a = Context b -> a = b.
Proof. destruct a, b; cbn; congruence. Qed.

#[global] Instance TxOut_eq_dec : EqDecision wire.TxOut.
Proof. solve_decision. Defined.

(** The contextual order is the order of the outputs, with the context
    breaking the tie between equal outputs. *)
Lemma sortableOutputContextSlice_Less_cases (a b : txOutWithContext) :
  sortableOutputContextSlice_Less a b =
  if bool_decide (TxOut a = TxOut b)
  then bytes_Compare (Context a) (Context b) =? -1
  else sortableOutputSlice_Less (TxOut a) (TxOut b).
Proof.
  unfold sortableOutputContextSlice_Less, sortableOutputSlice_Less.
  destruct (decide (TxOut a = TxOut b)) as [E|NE].
  - rewrite bool_decide_eq_true_2 by exact E.
    rewrite E, Z.eqb_refl, bytes_Compare_refl. reflexivity.
  - rewrite bool_decide_eq_false_2 by exact NE.
    destruct (Z.eqb_spec (wire.Value (TxOut a)) (wire.Value (TxOut b)))
      as [EV|NV]; cbn [negb]; [|reflexivity].
    destruct (Z.eqb_spec (bytes_Compare (wire.PkScript (TxOut a))
                            (wire.PkScript (TxOut b))) 0) as [E0|N0]; cbn [negb].
    + exfalso. apply NE, TxOut_eq; [exact EV|]. now apply bytes_Compare_eq.
    + pose proof (bytes_Compare_cases (wire.PkScript (TxOut a))
                    (wire.PkScript (TxOut b))). lia.
Qed.

Lemma sortableOutputContextSlice_Less_total (a b : txOutWithContext) :
  sortableOutputContextSlice_Less a b = false ->
  sortableOutputContextSlice_Less b a = false -> a = b.
Proof.
  rewrite !sortableOutputContextSlice_Less_cases.
  destruct (decide (TxOut a = TxOut b)) as [E|NE].
  - rewrite !bool_decide_eq_true_2 by congruence. intros H1 H2.
    apply txOutWithContext_eq; [exact E|]. apply bytes_Compare_total; lia.
  - rewrite !bool_decide_eq_false_2 by congruence. intros H1 H2.
    exfalso. apply NE. now apply sortableOutputSlice_Less_total.
Qed.

Lemma sortableOutputContextSlice_Less_ordering :
  ordering sortableOutputContextSlice_Less.
Proof.
  destruct sortableOutputSlice_Less_ordering as (Oirr & Otr & _).
  apply (ordering_intro _ eq).
  - intros x. rewrite sortableOutputContextSlice_Less_cases.
    rewrite bool_decide_eq_true_2 by reflexivity.
    rewrite bytes_Compare_refl. reflexivity.
  - intros x y z. rewrite !sortableOutputContextSlice_Less_cases.
    destruct (decide (TxOut x = TxOut y)) as [E1|N1];
      destruct (decide (TxOut y = TxOut z)) as [E2|N2].
    + rewrite !bool_decide_eq_true_2 by congruence. intros H1 H2.
      apply Z.eqb_eq in H1, H2. apply Z.eqb_eq.
      eapply bytes_Compare_trans; eassumption.
    + rewrite (bool_decide_eq_true_2 _ E1).
      rewrite !bool_decide_eq_false_2 by congruence. rewrite E1. auto.
    + rewrite (bool_decide_eq_true_2 _ E2).
      rewrite !bool_decide_eq_false_2 by congruence. rewrite E2. auto.
    + rewrite (bool_decide_eq_false_2 _ N1), (bool_decide_eq_false_2 _ N2).
      intros H1 H2. pose proof (Otr _ _ _ H1 H2) as H3.
      destruct (decide (TxOut x = TxOut z)) as [E3|N3].
      * rewrite E3 in H1.
        pose proof (ordering_asym _ sortableOutputSlice_Less_ordering _ _ H1).
        congruence.
      * now rewrite bool_decide_eq_false_2 by exact N3.
  - exact sortableOutputContextSlice_Less_total.
  - now intros x y z ->.
Qed.

End txsort_order.

(* ===================================================================== *)
(** ** Sorted slices and the contract of [sort.Sort] *)

Module txsort_sorted.

Import txsort txsort_props txsort_order.

(** *** Slices that pass [sort.IsSorted] *)

Section Sorted.

Context {A : Type}.
Variable less : A -> A -> bool.

(** [x] may stand before [y]. *)
Definition precedes (x y : A) : Prop := less y x = false.

(** No element of the slice is less than an element before it. *)
Definition pairwise_sorted (l : list A) : Prop :=
  forall (i j : nat) (x y : A),
    (i < j)%nat -> l !! i = Some x -> l !! j = Some y -> less y x = false.

Lemma IsSorted_Sorted (l : list A) :
  GoSort.IsSorted less l = true <-> Sorted precedes l.
Proof.
  induction l as [|x [|y l] IH].
  - split; [constructor|reflexivity].
  - split; [repeat constructor|reflexivity].
  - change (GoSort.IsSorted less (x :: y :: l))
      with (negb (less y x) && GoSort.IsSorted less (y :: l)).
    rewrite andb_true_iff, negb_true_iff, IH. split.
    + intros [H1 H2]. constructor; [exact H2|]. now constructor.
    + intros H. inversion H as [|? ? H2 H1]; subst.
      inversion H1; subst. auto.
Qed.

Lemma StronglySorted_pairwise (l : list A) :
  StronglySorted precedes l <-> pairwise_sorted l.
Proof.
  unfold pairwise_sorted. induction l as [|x l IH].
  - split; [|constructor]. intros _ i j a b _ H. now rewrite lookup_nil in H.
  - split.
    + intros H. inversion H as [|? ? HS HF]; subst.
      rewrite Forall_lookup in HF.
      intros [|i] [|j] a b Hij Hi Hj; cbn in *; try lia.
      * injection Hi as <-. exact (HF _ _ Hj).
      * apply (proj1 IH HS i j); [lia|assumption|assumption].
    + intros H. constructor.
      * apply IH. intros i j a b Hij Hi Hj.
        apply (H (S i) (S j)); [lia|exact Hi|exact Hj].
      * apply Forall_lookup. intros j b Hj.
        apply (H 0%nat (S j) x b); [lia|reflexivity|exact Hj].
Qed.

Hypothesis Hord : ordering less.

Lemma precedes_trans : Transitive precedes.
Proof.
  intros x y z Hxy Hyz. unfold precedes in *.
  destruct Hord as (_ & _ & Hn). eapply Hn; eassumption.
Qed.

Lemma IsSorted_StronglySorted (l : list A) :
  GoSort.IsSorted less l = true <-> StronglySorted precedes l.
Proof.
  rewrite IsSorted_Sorted. split.
  - apply Sorted_StronglySorted. exact precedes_trans.
  - apply StronglySorted_Sorted.
Qed.

Lemma IsSorted_pairwise (l : list A) :
  GoSort.IsSorted less l = true <-> pairwise_sorted l.
Proof. now rewrite IsSorted_StronglySorted, StronglySorted_pairwise. Qed.

(** Two sorted slices with the same elements are equal, when the order
    tells the elements apart. *)
Lemma StronglySorted_perm_eq (l1 l2 : list A) :
  (forall x y, x ∈ l1 -> y ∈ l1 ->
     less x y = false -> less y x = false -> x = y) ->
  StronglySorted precedes l1 -> StronglySorted precedes l2 ->
  Permutation l1 l2 -> l1 = l2.
Proof.
  revert l2. induction l1 as [|x l1 IH]; intros l2 Hanti S1 S2 HP.
  - now apply Permutation_nil in HP.
  - destruct l2 as [|y l2].
    { symmetry in HP. now apply Permutation_nil in HP. }
    inversion S1 as [|? ? S1' F1]; subst.
    inversion S2 as [|? ? S2' F2]; subst.
    rewrite Forall_forall in F1, F2.
    assert (Hx : x ∈ y :: l2) by (rewrite <- HP; left).
    assert (Hy : y ∈ x :: l1) by (rewrite HP; left).
    assert (E : x = y).
    { apply elem_of_cons in Hx as [Hx|Hx]; [exact Hx|].
      pose proof Hy as Hy'.
      apply elem_of_cons in Hy as [Hy|Hy]; [now symmetry|].
      apply Hanti; [left|exact Hy'| |].
      - exact (F2 _ Hx).
      - exact (F1 _ Hy). }
    subst y. f_equal. apply IH; try assumption.
    + intros a b Ha Hb. apply Hanti; now right.
    + now apply Permutation_cons_inv in HP.
Qed.

Lemma IsSorted_perm_eq (l1 l2 : list A) :
  (forall x y, x ∈ l1 -> y ∈ l1 ->
     less x y = false -> less y x = false -> x = y) ->
  GoSort.IsSorted less l1 = true -> GoSort.IsSorted less l2 = true ->
  Permutation l1 l2 -> l1 = l2.
Proof.
  rewrite !IsSorted_StronglySorted. apply StronglySorted_perm_eq.
Qed.

End Sorted.

Lemma IsSorted_map {A B : Type} (f : A -> B) (lessA : A -> A -> bool)
  (lessB : B -> B -> bool) (l : list A) :
  (forall x y, lessB (f x) (f y) = lessA x y) ->
  GoSort.IsSorted lessB (map f l) = GoSort.IsSorted lessA l.
Proof.
  intros H. induction l as [|x [|y l] IH]; try reflexivity.
  change (negb (lessB (f y) (f x)) && GoSort.IsSorted lessB (map f (y :: l)) =
          negb (lessA y x) && GoSort.IsSorted lessA (y :: l)).
  now rewrite H, IH.
Qed.

(** A slice sorted by a finer order is sorted by a coarser one. *)
Lemma IsSorted_map_weaken {A B : Type} (f : A -> B) (lessA : A -> A -> bool)
  (lessB : B -> B -> bool) (l : list A) :
  (forall x y, lessB (f x) (f y) = true -> lessA x y = true) ->
  GoSort.IsSorted lessA l = true ->
  GoSort.IsSorted lessB (map f l) = true.
Proof.
  intros H. induction l as [|x [|y l] IH]; try reflexivity.
  change (GoSort.IsSorted lessA (x :: y :: l))
    with (negb (lessA y x) && GoSort.IsSorted lessA (y :: l)).
  change (GoSort.IsSorted lessB (map f (x :: y :: l)))
    with (negb (lessB (f y) (f x)) && GoSort.IsSorted lessB (map f (y :: l))).
  rewrite !andb_true_iff, !negb_true_iff. intros [H1 H2]. split; [|auto].
  destruct (lessB (f y) (f x)) eqn:E; [|reflexivity].
  apply H in E. congruence.
Qed.

(** *** What [sort.Sort] guarantees

    For a [Less] that is a transitive ordering, [sort.Sort] leaves a
    permutation of the slice that passes [sort.IsSorted]. *)
Definition sort_contract
  (sort_Sort : forall A : Type, (A -> A -> bool) -> list A -> list A) : Prop :=
  forall (A : Type) (less : A -> A -> bool) (l : list A),
    ordering less ->
    Permutation (sort_Sort A less l) l /\
    GoSort.IsSorted less (sort_Sort A less l) = true.

Lemma insertionSort_contract : sort_contract (@GoSort.insertionSort).
Proof.
  intros A less l Hord. split.
  - apply GoSort_props.insertionSort_perm.
  - apply GoSort_props.insertionSort_sorted. now apply ordering_asym.
Qed.

End txsort_sorted.

(* ===================================================================== *)
(** ** The transaction sort on the store *)

Module txsort_heap.

Import txsort txsort_props txsort_order txsort_sorted.

Lemma heap_eta (h : heap) :
  {| txins := txins h; txouts := txouts h; ctxouts := ctxouts h |} = h.
Proof. now destruct h. Qed.

Lemma IsSorted_spec (h : heap) (tx : MsgTx.t) ins outs :
  allocated h tx ins outs ->
  IsSorted tx h =
  Ok (GoSort.IsSorted sortableInputSlice_Less ins &&
      GoSort.IsSorted sortableOutputSlice_Less outs, h).
Proof.
  intros [Hi Ho]. unfold IsSorted, bind, load_ins, load_outs. rewrite Hi.
  destruct (GoSort.IsSorted sortableInputSlice_Less ins); cbn; [|reflexivity].
  rewrite Ho. now destruct (GoSort.IsSorted sortableOutputSlice_Less outs).
Qed.

(** [IsContextualSorted] checks the inputs, then a temporary slice of the
    outputs with their contexts; it writes no array that existed. *)
Lemma IsContextualSorted_spec (h : heap) (tx : MsgTx.t) ins outs ctxts :
  allocated h tx ins outs ->
  length outs = length ctxts ->
  exists h',
    IsContextualSorted tx ctxts h =
    Ok (GoSort.IsSorted sortableInputSlice_Less ins &&
        GoSort.IsSorted sortableOutputContextSlice_Less
          (zip_with mkContext outs ctxts), h') /\
    txins h' = txins h /\ txouts h' = txouts h /\ ctxouts h ⊆ ctxouts h'.
Proof.
  intros [Hi Ho] Hlen. unfold IsContextualSorted, bind, load_ins.
  rewrite Hi.
  destruct (GoSort.IsSorted sortableInputSlice_Less ins); cbn.
  - rewrite (makeSortableOutputContextSlice_ok _ _ outs) by assumption.
    unfold load_ctx. cbn. rewrite lookup_insert_eq.
    eexists. split; [now destruct (GoSort.IsSorted _ _)|].
    cbn. split; [reflexivity|]. split; [reflexivity|].
    apply fresh_insert_subseteq.
  - exists h. split; [reflexivity|]. split; [reflexivity|].
    split; reflexivity.
Qed.

Lemma zip_with_replicate (outs : list wire.TxOut) (c : list Byte.byte) :
  zip_with mkContext outs (replicate (length outs) c) =
  map (fun o => mkContext o c) outs.
Proof. induction outs as [|o outs IH]; cbn; [reflexivity|now rewrite IH]. Qed.

Lemma zip_with_TxOut (outs : list wire.TxOut) (ctxts : list (list Byte.byte)) :
  length outs = length ctxts ->
  map TxOut (zip_with mkContext outs ctxts) = outs.
Proof.
  revert ctxts. induction outs as [|o outs IH]; intros [|c ctxts] H; cbn in *;
    try discriminate; [reflexivity|]. f_equal. apply IH. lia.
Qed.

(** The order of the outputs is coarser than the contextual order. *)
Lemma sortableOutputSlice_Less_context (a b : txOutWithContext) :
  sortableOutputSlice_Less (TxOut a) (TxOut b) = true ->
  sortableOutputContextSlice_Less a b = true.
Proof.
  intros H. rewrite sortableOutputContextSlice_Less_cases.
  destruct (decide (TxOut a = TxOut b)) as [E|NE].
  - rewrite E in H.
    destruct sortableOutputSlice_Less_ordering as (Hirr & _).
    rewrite Hirr in H. discriminate.
  - now rewrite bool_decide_eq_false_2 by exact NE.
Qed.

Lemma contextual_sorted_outputs (outs : list wire.TxOut) ctxts :
  length outs = length ctxts ->
  GoSort.IsSorted sortableOutputContextSlice_Less
    (zip_with mkContext outs ctxts) = true ->
  GoSort.IsSorted sortableOutputSlice_Less outs = true.
Proof.
  intros Hlen H. rewrite <- (zip_with_TxOut outs ctxts Hlen).
  apply (IsSorted_map_weaken TxOut sortableOutputContextSlice_Less); [|exact H].
  apply sortableOutputSlice_Less_context.
Qed.

Lemma same_context_sorted (outs : list wire.TxOut) (c : list Byte.byte) :
  GoSort.IsSorted sortableOutputContextSlice_Less
    (zip_with mkContext outs (replicate (length outs) c)) =
  GoSort.IsSorted sortableOutputSlice_Less outs.
Proof.
  rewrite zip_with_replicate. apply IsSorted_map. intros x y.
  rewrite sortableOutputContextSlice_Less_cases. cbn [TxOut Context mkContext].
  destruct (decide (x = y)) as [->|NE].
  - rewrite bool_decide_eq_true_2 by reflexivity. rewrite bytes_Compare_refl.
    destruct sortableOutputSlice_Less_ordering as (Hirr & _). now rewrite Hirr.
  - now rewrite bool_decide_eq_false_2 by exact NE.
Qed.

Lemma NoDup_map_inj {A B : Type} (f : A -> B) (l : list A) (x y : A) :
  NoDup (map f l) -> x ∈ l -> y ∈ l -> f x = f y -> x = y.
Proof.
  induction l as [|a l IH]; intros HN Hx Hy E.
  - now apply elem_of_nil in Hx.
  - cbn in HN. apply NoDup_cons in HN as [Hna HN].
    assert (Hin : forall z, z ∈ l -> f z ∈ map f l).
    { intros z Hz. apply list_elem_of_In, in_map, list_elem_of_In, Hz. }
    apply elem_of_cons in Hx as [->|Hx]; apply elem_of_cons in Hy as [->|Hy].
    + reflexivity.
    + exfalso. apply Hna. rewrite E. now apply Hin.
    + exfalso. apply Hna. rewrite <- E. now apply Hin.
    + now apply IH.
Qed.

(** Inputs that spend distinct outpoints are told apart by the order. *)
Lemma inputs_told_apart (ins : list wire.TxIn) :
  NoDup (map wire.PreviousOutPoint ins) ->
  forall x y, x ∈ ins -> y ∈ ins ->
    sortableInputSlice_Less x y = false ->
    sortableInputSlice_Less y x = false -> x = y.
Proof.
  intros HN x y Hx Hy H1 H2.
  apply (NoDup_map_inj wire.PreviousOutPoint ins); try assumption.
  now apply sortableInputSlice_Less_total.
Qed.

Section Contract.

Variable sort_Sort : forall A : Type, (A -> A -> bool) -> list A -> list A.
Hypothesis Hsort : sort_contract sort_Sort.

Lemma sort_ins_perm (ins : list wire.TxIn) :
  Permutation (sort_Sort _ sortableInputSlice_Less ins) ins /\
  GoSort.IsSorted sortableInputSlice_Less
    (sort_Sort _ sortableInputSlice_Less ins) = true.
Proof. apply Hsort, sortableInputSlice_Less_ordering. Qed.

Lemma sort_outs_perm (outs : list wire.TxOut) :
  Permutation (sort_Sort _ sortableOutputSlice_Less outs) outs /\
  GoSort.IsSorted sortableOutputSlice_Less
    (sort_Sort _ sortableOutputSlice_Less outs) = true.
Proof. apply Hsort, sortableOutputSlice_Less_ordering. Qed.

(** The sorted outputs depend on the outputs only, not on their order. *)
Lemma sort_outs_canonical (outs1 outs2 : list wire.TxOut) :
  Permutation outs1 outs2 ->
  sort_Sort _ sortableOutputSlice_Less outs1 =
  sort_Sort _ sortableOutputSlice_Less outs2.
Proof.
  intros HP.
  destruct (sort_outs_perm outs1) as [P1 S1].
  destruct (sort_outs_perm outs2) as [P2 S2].
  apply (IsSorted_perm_eq sortableOutputSlice_Less
           sortableOutputSlice_Less_ordering); try assumption.
  - intros x y _ _. apply sortableOutputSlice_Less_total.
  - now rewrite P1, P2.
Qed.

Lemma sort_ins_canonical (ins1 ins2 : list wire.TxIn) :
  NoDup (map wire.PreviousOutPoint ins1) ->
  Permutation ins1 ins2 ->
  sort_Sort _ sortableInputSlice_Less ins1 =
  sort_Sort _ sortableInputSlice_Less ins2.
Proof.
  intros HN HP.
  destruct (sort_ins_perm ins1) as [P1 S1].
  destruct (sort_ins_perm ins2) as [P2 S2].
  apply (IsSorted_perm_eq sortableInputSlice_Less
           sortableInputSlice_Less_ordering); try assumption.
  - intros x y Hx Hy. rewrite P1 in Hx, Hy. now apply (inputs_told_apart ins1).
  - now rewrite P1, P2.
Qed.

Lemma sort_outs_sorted_id (outs : list wire.TxOut) :
  GoSort.IsSorted sortableOutputSlice_Less outs = true ->
  sort_Sort _ sortableOutputSlice_Less outs = outs.
Proof.
  intros HS. destruct (sort_outs_perm outs) as [P1 S1].
  apply (IsSorted_perm_eq sortableOutputSlice_Less
           sortableOutputSlice_Less_ordering); try assumption.
  intros x y _ _. apply sortableOutputSlice_Less_total.
Qed.

Lemma sort_ins_sorted_id (ins : list wire.TxIn) :
  NoDup (map wire.PreviousOutPoint ins) ->
  GoSort.IsSorted sortableInputSlice_Less ins = true ->
  sort_Sort _ sortableInputSlice_Less ins = ins.
Proof.
  intros HN HS. destruct (sort_ins_perm ins) as [P1 S1].
  apply (IsSorted_perm_eq sortableInputSlice_Less
           sortableInputSlice_Less_ordering); try assumption.
  intros x y Hx Hy. rewrite P1 in Hx, Hy. now apply (inputs_told_apart ins).
Qed.

End Contract.

End txsort_heap.

(* ===================================================================== *)
(** ** The order of the inputs as an order of numbers *)

Module txsort_numeric.

Import txsort txsort_props txsort_order.

(** The number a hash stands for, read as a little-endian integer: byte 0
    is the least significant one. *)
Definition le_value (h : list Byte.byte) : Z :=
  fold_right (fun b acc => Z.of_N (Byte.to_N b) + 256 * acc) 0 h.

Definition Z_of_comparison (c : comparison) : Z :=
  match c with
  | Lt => -1
  | Eq => 0
  | Gt => 1
  end.

Lemma bytes_Compare_app (a b c d : list Byte.byte) :
  length a = length b ->
  bytes_Compare (a ++ c) (b ++ d) =
  if bytes_Compare a b =? 0 then bytes_Compare c d else bytes_Compare a b.
Proof.
  revert b. induction a as [|x a IH]; intros [|y b] H; cbn in *;
    try discriminate; [reflexivity|].
  destruct (Byte.to_N x ?= Byte.to_N y)%N; try reflexivity.
  apply IH. lia.
Qed.

Lemma byte_range (x : Byte.byte) : 0 <= Z.of_N (Byte.to_N x) <= 255.
Proof. pose proof (Byte.to_N_bounded x). lia. Qed.

Lemma bytes_Compare_rev_value (a b : list Byte.byte) :
  length a = length b ->
  bytes_Compare (rev a) (rev b) = Z_of_comparison (le_value a ?= le_value b).
Proof.
  revert b. induction a as [|x a IH]; intros [|y b] H; cbn in H;
    try discriminate; [reflexivity|].
  cbn [rev]. rewrite bytes_Compare_app by (rewrite !length_rev; lia).
  rewrite IH by lia.
  change (le_value (x :: a)) with (Z.of_N (Byte.to_N x) + 256 * le_value a).
  change (le_value (y :: b)) with (Z.of_N (Byte.to_N y) + 256 * le_value b).
  pose proof (byte_range x). pose proof (byte_range y).
  cbn [bytes_Compare].
  destruct (Z.compare_spec (le_value a) (le_value b)) as [E|L|L];
    cbn [Z_of_comparison Z.eqb];
    destruct (Z.compare_spec (Z.of_N (Byte.to_N x) + 256 * le_value a)
                (Z.of_N (Byte.to_N y) + 256 * le_value b)) as [E'|L'|L'];
    cbn [Z_of_comparison]; try lia;
    destruct (N.compare_spec (Byte.to_N x) (Byte.to_N y)) as [E''|L''|L''];
    try reflexivity; lia.
Qed.

End txsort_numeric.

(* ===================================================================== *)
(** ** Further properties of the transaction sort *)

Module txsort_properties.

Import txsort txsort_props txsort_order txsort_sorted txsort_heap txsort_numeric.

(** A transaction with three inputs and three outputs, out of order, and
    the same transaction in BIP 69 order. *)
Definition hash_of (b : Byte.byte) : list Byte.byte := b :: repeat Byte.x00 31.

Definition input_at (b : Byte.byte) (i : Z) : wire.TxIn :=
  {| wire.PreviousOutPoint := {| wire.Hash := hash_of b; wire.Index := i |};
     wire.SignatureScript := []; wire.Witness := []; wire.Sequence := 0 |}.

Definition output_of (v : Z) (script : list Byte.byte) : wire.TxOut :=
  {| wire.Value := v; wire.PkScript := script |}.

Definition sample_ins : list wire.TxIn :=
  [input_at Byte.x02 0; input_at Byte.x01 1; input_at Byte.x01 0].

Definition sample_outs : list wire.TxOut :=
  [output_of 5 [Byte.x01]; output_of 3 []; output_of 5 []].

Definition sorted_ins : list wire.TxIn :=
  [input_at Byte.x01 0; input_at Byte.x01 1; input_at Byte.x02 0].

Definition sorted_outs : list wire.TxOut :=
  [output_of 3 []; output_of 5 []; output_of 5 [Byte.x01]].

Definition sample_tx : MsgTx.t :=
  {| MsgTx.Version := 2; MsgTx.TxIn := 1%positive;
     MsgTx.TxOut := 1%positive; MsgTx.LockTime := 0 |}.

Definition heap_of (ins : list wire.TxIn) (outs : list wire.TxOut) : heap :=
  {| txins := {[ 1%positive := ins ]};
     txouts := {[ 1%positive := outs ]};
     ctxouts := ∅ |}.

Lemma heap_of_allocated ins outs : allocated (heap_of ins outs) sample_tx ins outs.
Proof. split; reflexivity. Defined.

Ltac distinct :=
  repeat (apply NoDup_cons; split;
          [let H := fresh in
           intros H;
           repeat (apply elem_of_cons in H as [H|H]; [discriminate H|]);
           now apply elem_of_nil in H|]);
  apply NoDup_nil; exact I.

(** X13: [sortableInputSlice.Less] is a transitive ordering, as [sort.Sort]
    asks for, and it leaves unordered only inputs that spend the same
    outpoint. *)
Theorem input_Less_is_total_order :
  ordering sortableInputSlice_Less /\
  forall a b : wire.TxIn,
    sortableInputSlice_Less a b = false ->
    sortableInputSlice_Less b a = false ->
    wire.PreviousOutPoint a = wire.PreviousOutPoint b.
Proof.
  split; [exact sortableInputSlice_Less_ordering|].
  exact sortableInputSlice_Less_total.
Qed.

(** X14: [sortableOutputSlice.Less] is a transitive ordering, and two outputs
    it leaves unordered have the same value and the same script. *)
Theorem output_Less_is_total_order :
  ordering sortableOutputSlice_Less /\
  forall a b : wire.TxOut,
    sortableOutputSlice_Less a b = false ->
    sortableOutputSlice_Less b a = false ->
    wire.Value a = wire.Value b /\ wire.PkScript a = wire.PkScript b.
Proof.
  split; [exact sortableOutputSlice_Less_ordering|].
  intros a b H1 H2.
  now rewrite (sortableOutputSlice_Less_total a b H1 H2).
Qed.

(** X15: [sortableOutputContextSlice.Less] is a transitive ordering, and two
    elements it leaves unordered have the same value, script and
    context. *)
Theorem context_Less_is_total_order :
  ordering sortableOutputContextSlice_Less /\
  forall a b : txOutWithContext,
    sortableOutputContextSlice_Less a b = false ->
    sortableOutputContextSlice_Less b a = false ->
    wire.Value (TxOut a) = wire.Value (TxOut b) /\
    wire.PkScript (TxOut a) = wire.PkScript (TxOut b) /\
    Context a = Context b.
Proof.
  split; [exact sortableOutputContextSlice_Less_ordering|].
  intros a b H1 H2.
  now rewrite (sortableOutputContextSlice_Less_total a b H1 H2).
Qed.

(** X16: The context is a tie breaker only: between outputs that differ in
    value or script, [sortableOutputContextSlice.Less] is
    [sortableOutputSlice.Less]; between equal outputs it compares the
    contexts. *)
Theorem context_breaks_ties_only (a b : txOutWithContext) :
  sortableOutputContextSlice_Less a b =
  (if bool_decide (TxOut a = TxOut b)
   then bytes_Compare (Context a) (Context b) =? -1
   else sortableOutputSlice_Less (TxOut a) (TxOut b)) /\
  (sortableOutputSlice_Less (TxOut a) (TxOut b) = true ->
   sortableOutputContextSlice_Less a b = true).
Proof.
  split; [apply sortableOutputContextSlice_Less_cases|].
  apply sortableOutputSlice_Less_context.
Qed.

(** X17: After [InPlaceSort] the transaction holds a permutation of its inputs
    and a permutation of its outputs, and [IsSorted] accepts it. *)
Theorem InPlaceSort_then_IsSorted
  (sort_Sort : forall A : Type, (A -> A -> bool) -> list A -> list A)
  (Hsort : sort_contract sort_Sort)
  (h : heap) (tx : MsgTx.t) (ins : list wire.TxIn) (outs : list wire.TxOut)
  (Halloc : allocated h tx ins outs) :
  exists ins' outs' h',
    InPlaceSort sort_Sort tx h = Ok (tt, h') /\
    allocated h' tx ins' outs' /\
    Permutation ins' ins /\ Permutation outs' outs /\
    IsSorted tx h' = Ok (true, h').
Proof.
  destruct (sort_ins_perm sort_Sort Hsort ins) as [Pi Si].
  destruct (sort_outs_perm sort_Sort Hsort outs) as [Po So].
  rewrite (InPlaceSort_spec sort_Sort _ _ _ _ Halloc).
  eexists _, _, _. split; [reflexivity|].
  assert (Ha : allocated
            {| txins := <[MsgTx.TxIn tx :=
                            sort_Sort _ sortableInputSlice_Less ins]> (txins h);
               txouts := <[MsgTx.TxOut tx :=
                            sort_Sort _ sortableOutputSlice_Less outs]> (txouts h);
               ctxouts := ctxouts h |} tx
            (sort_Sort _ sortableInputSlice_Less ins)
            (sort_Sort _ sortableOutputSlice_Less outs)).
  { split; cbn; apply lookup_insert_eq. }
  split; [exact Ha|]. split; [exact Pi|]. split; [exact Po|].
  rewrite (IsSorted_spec _ _ _ _ Ha). now rewrite Si, So.
Qed.

Lemma InPlaceSort_then_IsSorted_witness :
  exists ins' outs' h',
    InPlaceSort (@GoSort.insertionSort) sample_tx (heap_of sample_ins sample_outs)
      = Ok (tt, h') /\
    allocated h' sample_tx ins' outs' /\
    Permutation ins' sample_ins /\ Permutation outs' sample_outs /\
    IsSorted sample_tx h' = Ok (true, h').
Proof.
  exact (InPlaceSort_then_IsSorted (@GoSort.insertionSort) insertionSort_contract
           _ _ _ _ (heap_of_allocated sample_ins sample_outs)).
Defined.

(** X18: [Sort] returns a new transaction that [IsSorted] accepts, with a
    permutation of the inputs and of the outputs of its argument and the
    same version and lock time; every array that existed before the call,
    those of the argument included, is as it was. *)
Theorem Sort_returns_sorted_copy
  (sort_Sort : forall A : Type, (A -> A -> bool) -> list A -> list A)
  (Hsort : sort_contract sort_Sort)
  (h : heap) (tx : MsgTx.t) (ins : list wire.TxIn) (outs : list wire.TxOut)
  (Halloc : allocated h tx ins outs) :
  exists tx' h' ins' outs',
    Sort sort_Sort tx h = Ok (tx', h') /\
    preserved h h' /\ allocated h' tx ins outs /\
    allocated h' tx' ins' outs' /\
    Permutation ins' ins /\ Permutation outs' outs /\
    IsSorted tx' h' = Ok (true, h') /\
    MsgTx.Version tx' = MsgTx.Version tx /\
    MsgTx.LockTime tx' = MsgTx.LockTime tx.
Proof.
  destruct (sort_ins_perm sort_Sort Hsort ins) as [Pi Si].
  destruct (sort_outs_perm sort_Sort Hsort outs) as [Po So].
  destruct (Sort_spec sort_Sort _ _ _ _ Halloc)
    as (tx' & h' & HS & Hp & Ha & _ & _ & Hv & Hl).
  exists tx', h', (sort_Sort _ sortableInputSlice_Less ins),
    (sort_Sort _ sortableOutputSlice_Less outs).
  split; [exact HS|]. split; [exact Hp|].
  split; [eapply preserved_allocated; eassumption|].
  split; [exact Ha|]. split; [exact Pi|]. split; [exact Po|].
  split; [|split; assumption].
  rewrite (IsSorted_spec _ _ _ _ Ha). now rewrite Si, So.
Qed.

Lemma Sort_returns_sorted_copy_witness :
  exists tx' h' ins' outs',
    Sort (@GoSort.insertionSort) sample_tx (heap_of sample_ins sample_outs)
      = Ok (tx', h') /\
    preserved (heap_of sample_ins sample_outs) h' /\
    allocated h' sample_tx sample_ins sample_outs /\
    allocated h' tx' ins' outs' /\
    Permutation ins' sample_ins /\ Permutation outs' sample_outs /\
    IsSorted tx' h' = Ok (true, h') /\
    MsgTx.Version tx' = MsgTx.Version sample_tx /\
    MsgTx.LockTime tx' = MsgTx.LockTime sample_tx.
Proof.
  exact (Sort_returns_sorted_copy (@GoSort.insertionSort) insertionSort_contract
           _ _ _ _ (heap_of_allocated sample_ins sample_outs)).
Defined.

(** X19: The order [Sort] gives does not depend on the order it is given: two
    transactions with the same outputs and the same inputs, all spending
    distinct outpoints, in any order, are sorted to the same inputs and
    outputs. *)
Theorem Sort_canonical
  (sort_Sort : forall A : Type, (A -> A -> bool) -> list A -> list A)
  (Hsort : sort_contract sort_Sort)
  (h1 h2 : heap) (tx1 tx2 : MsgTx.t)
  (ins1 ins2 : list wire.TxIn) (outs1 outs2 : list wire.TxOut)
  (Halloc1 : allocated h1 tx1 ins1 outs1)
  (Halloc2 : allocated h2 tx2 ins2 outs2)
  (Hins : Permutation ins1 ins2) (Houts : Permutation outs1 outs2)
  (Hdistinct : NoDup (map wire.PreviousOutPoint ins1)) :
  exists tx1' h1' tx2' h2' ins' outs',
    Sort sort_Sort tx1 h1 = Ok (tx1', h1') /\
    Sort sort_Sort tx2 h2 = Ok (tx2', h2') /\
    allocated h1' tx1' ins' outs' /\
    allocated h2' tx2' ins' outs'.
Proof.
  destruct (Sort_spec sort_Sort _ _ _ _ Halloc1)
    as (tx1' & h1' & HS1 & _ & Ha1 & _).
  destruct (Sort_spec sort_Sort _ _ _ _ Halloc2)
    as (tx2' & h2' & HS2 & _ & Ha2 & _).
  exists tx1', h1', tx2', h2', (sort_Sort _ sortableInputSlice_Less ins1),
    (sort_Sort _ sortableOutputSlice_Less outs1).
  split; [exact HS1|]. split; [exact HS2|]. split; [exact Ha1|].
  rewrite (sort_ins_canonical sort_Sort Hsort ins1 ins2 Hdistinct Hins).
  now rewrite (sort_outs_canonical sort_Sort Hsort outs1 outs2 Houts).
Qed.

Lemma sample_ins_distinct : NoDup (map wire.PreviousOutPoint sample_ins).
Proof. cbn. distinct. Defined.

Lemma sample_ins_perm : Permutation sample_ins sorted_ins.
Proof.
  unfold sample_ins, sorted_ins.
  etransitivity; [apply perm_swap|]. etransitivity; [apply perm_skip, perm_swap|].
  apply perm_swap.
Defined.

Lemma sample_outs_perm : Permutation sample_outs sorted_outs.
Proof.
  unfold sample_outs, sorted_outs.
  etransitivity; [apply perm_swap|]. apply perm_skip, perm_swap.
Defined.

Lemma Sort_canonical_witness :
  exists tx1' h1' tx2' h2' ins' outs',
    Sort (@GoSort.insertionSort) sample_tx (heap_of sample_ins sample_outs)
      = Ok (tx1', h1') /\
    Sort (@GoSort.insertionSort) sample_tx (heap_of sorted_ins sorted_outs)
      = Ok (tx2', h2') /\
    allocated h1' tx1' ins' outs' /\
    allocated h2' tx2' ins' outs'.
Proof.
  exact (Sort_canonical (@GoSort.insertionSort) insertionSort_contract
           _ _ _ _ _ _ _ _
           (heap_of_allocated sample_ins sample_outs)
           (heap_of_allocated sorted_ins sorted_outs)
           sample_ins_perm sample_outs_perm sample_ins_distinct).
Defined.

(** X20: [InPlaceSort] leaves the store exactly as it was if and only if
    [IsSorted] accepts the transaction beforehand (for inputs that spend
    distinct outpoints): it mutates a transaction that is not sorted, and
    only such a transaction. *)
Theorem InPlaceSort_unchanged_iff_sorted
  (sort_Sort : forall A : Type, (A -> A -> bool) -> list A -> list A)
  (Hsort : sort_contract sort_Sort)
  (h : heap) (tx : MsgTx.t) (ins : list wire.TxIn) (outs : list wire.TxOut)
  (Halloc : allocated h tx ins outs)
  (Hdistinct : NoDup (map wire.PreviousOutPoint ins)) :
  InPlaceSort sort_Sort tx h = Ok (tt, h) <-> IsSorted tx h = Ok (true, h).
Proof.
  destruct (sort_ins_perm sort_Sort Hsort ins) as [Pi Si].
  destruct (sort_outs_perm sort_Sort Hsort outs) as [Po So].
  pose proof Halloc as [Hi Ho].
  rewrite (InPlaceSort_spec sort_Sort _ _ _ _ Halloc).
  rewrite (IsSorted_spec _ _ _ _ Halloc). split.
  - intros [= E].
    pose proof (f_equal txins E) as E1. pose proof (f_equal txouts E) as E2.
    cbn in E1, E2. rewrite <- E1 in Hi. rewrite <- E2 in Ho.
    rewrite lookup_insert_eq in Hi. rewrite lookup_insert_eq in Ho.
    injection Hi as Hi. injection Ho as Ho.
    rewrite Hi in Si. rewrite Ho in So. now rewrite Si, So.
  - intros [= E]. apply andb_true_iff in E as [E1 E2].
    rewrite (sort_ins_sorted_id sort_Sort Hsort ins Hdistinct E1).
    rewrite (sort_outs_sorted_id sort_Sort Hsort outs E2).
    rewrite !insert_id by assumption. now rewrite heap_eta.
Qed.

Lemma sorted_ins_distinct : NoDup (map wire.PreviousOutPoint sorted_ins).
Proof. cbn. distinct. Defined.

Lemma InPlaceSort_unchanged_iff_sorted_witness :
  InPlaceSort (@GoSort.insertionSort) sample_tx (heap_of sorted_ins sorted_outs)
    = Ok (tt, heap_of sorted_ins sorted_outs) <->
  IsSorted sample_tx (heap_of sorted_ins sorted_outs)
    = Ok (true, heap_of sorted_ins sorted_outs).
Proof.
  exact (InPlaceSort_unchanged_iff_sorted (@GoSort.insertionSort)
           insertionSort_contract _ _ _ _
           (heap_of_allocated sorted_ins sorted_outs) sorted_ins_distinct).
Defined.

(** X21: [IsSorted] changes nothing, and it accepts a transaction exactly when
    no input is less than an input anywhere before it, and no output less
    than an output anywhere before it: checking neighbours is enough. *)
Theorem IsSorted_iff_pairwise
  (h : heap) (tx : MsgTx.t) (ins : list wire.TxIn) (outs : list wire.TxOut)
  (Halloc : allocated h tx ins outs) :
  exists b : bool,
    IsSorted tx h = Ok (b, h) /\
    (b = true <->
     pairwise_sorted sortableInputSlice_Less ins /\
     pairwise_sorted sortableOutputSlice_Less outs).
Proof.
  rewrite (IsSorted_spec _ _ _ _ Halloc).
  eexists. split; [reflexivity|].
  rewrite andb_true_iff.
  rewrite (IsSorted_pairwise _ sortableInputSlice_Less_ordering).
  now rewrite (IsSorted_pairwise _ sortableOutputSlice_Less_ordering).
Qed.

Lemma IsSorted_iff_pairwise_witness :
  exists b : bool,
    IsSorted sample_tx (heap_of sample_ins sample_outs)
      = Ok (b, heap_of sample_ins sample_outs) /\
    (b = true <->
     pairwise_sorted sortableInputSlice_Less sample_ins /\
     pairwise_sorted sortableOutputSlice_Less sample_outs).
Proof.
  exact (IsSorted_iff_pairwise _ _ _ _ (heap_of_allocated sample_ins sample_outs)).
Defined.

(** X22: [InPlaceContextualSort] sorts the inputs in place and a temporary
    slice of outputs with contexts: the outputs of the transaction stay in
    the order they had, whatever [sort.Sort] does, and when they were not
    in BIP 69 order [IsContextualSorted] rejects the transaction after the
    call. *)
Theorem InPlaceContextualSort_keeps_outputs
  (sort_Sort : forall A : Type, (A -> A -> bool) -> list A -> list A)
  (h : heap) (tx : MsgTx.t) (ins : list wire.TxIn) (outs : list wire.TxOut)
  (ctxts : list (list Byte.byte))
  (Halloc : allocated h tx ins outs)
  (Hlen : length outs = length ctxts) :
  exists h',
    InPlaceContextualSort sort_Sort tx ctxts h = Ok (tt, h') /\
    txouts h' = txouts h /\
    allocated h' tx (sort_Sort _ sortableInputSlice_Less ins) outs /\
    (GoSort.IsSorted sortableOutputSlice_Less outs = false ->
     exists h'', IsContextualSorted tx ctxts h' = Ok (false, h'')).
Proof.
  pose proof Halloc as [Hi Ho].
  unfold InPlaceContextualSort, bind.
  rewrite (sort_ins_spec _ _ _ _ Hi).
  rewrite (makeSortableOutputContextSlice_ok _ _ outs) by assumption.
  rewrite (sort_ctx_spec _ _ _ (zip_with mkContext outs ctxts))
    by (cbn; apply lookup_insert_eq).
  eexists. split; [reflexivity|]. split; [reflexivity|].
  match goal with |- allocated ?h' _ _ _ /\ _ =>
    assert (Ha : allocated h' tx (sort_Sort _ sortableInputSlice_Less ins) outs)
  end.
  { split; cbn; [apply lookup_insert_eq|assumption]. }
  split; [exact Ha|]. intros Hu.
  destruct (IsContextualSorted_spec _ _ _ _ _ Ha Hlen) as (h'' & -> & _).
  exists h''. f_equal. f_equal.
  destruct (GoSort.IsSorted sortableOutputContextSlice_Less
              (zip_with mkContext outs ctxts)) eqn:E.
  - apply contextual_sorted_outputs in E; [congruence|exact Hlen].
  - apply andb_false_r.
Qed.

Lemma InPlaceContextualSort_keeps_outputs_witness :
  exists h',
    InPlaceContextualSort (@GoSort.insertionSort) sample_tx [[]; []; []]
      (heap_of sample_ins sample_outs) = Ok (tt, h') /\
    txouts h' = txouts (heap_of sample_ins sample_outs) /\
    allocated h' sample_tx
      (GoSort.insertionSort sortableInputSlice_Less sample_ins) sample_outs /\
    (GoSort.IsSorted sortableOutputSlice_Less sample_outs = false ->
     exists h'', IsContextualSorted sample_tx [[]; []; []] h' = Ok (false, h'')).
Proof.
  exact (InPlaceContextualSort_keeps_outputs (@GoSort.insertionSort)
           _ _ _ _ [[]; []; []]
           (heap_of_allocated sample_ins sample_outs) eq_refl).
Defined.

(** X23: The transaction [ContextualSort] returns has the outputs in the order
    of the argument: [IsContextualSorted] accepts it exactly when the
    outputs of the argument, with these contexts, were sorted already. *)
Theorem ContextualSort_sorted_iff_given_sorted
  (sort_Sort : forall A : Type, (A -> A -> bool) -> list A -> list A)
  (Hsort : sort_contract sort_Sort)
  (h : heap) (tx : MsgTx.t) (ins : list wire.TxIn) (outs : list wire.TxOut)
  (ctxts : list (list Byte.byte))
  (Halloc : allocated h tx ins outs)
  (Hlen : length outs = length ctxts) :
  exists tx' h' h'',
    ContextualSort sort_Sort tx ctxts h = Ok (tx', h') /\
    allocated h' tx' (sort_Sort _ sortableInputSlice_Less ins) outs /\
    IsContextualSorted tx' ctxts h' =
      Ok (GoSort.IsSorted sortableOutputContextSlice_Less
            (zip_with mkContext outs ctxts), h'').
Proof.
  destruct (ContextualSort_spec sort_Sort _ _ _ _ _ Halloc Hlen)
    as (tx' & h' & HS & _ & Ha & _).
  destruct (IsContextualSorted_spec _ _ _ _ _ Ha Hlen) as (h'' & E & _).
  exists tx', h', h''. split; [exact HS|]. split; [exact Ha|].
  rewrite E. destruct (sort_ins_perm sort_Sort Hsort ins) as [_ ->].
  reflexivity.
Qed.

Lemma ContextualSort_sorted_iff_given_sorted_witness :
  exists tx' h' h'',
    ContextualSort (@GoSort.insertionSort) sample_tx [[]; []; []]
      (heap_of sample_ins sample_outs) = Ok (tx', h') /\
    allocated h' tx'
      (GoSort.insertionSort sortableInputSlice_Less sample_ins) sample_outs /\
    IsContextualSorted tx' [[]; []; []] h' =
      Ok (GoSort.IsSorted sortableOutputContextSlice_Less
            (zip_with mkContext sample_outs [[]; []; []]), h'').
Proof.
  exact (ContextualSort_sorted_iff_given_sorted (@GoSort.insertionSort)
           insertionSort_contract _ _ _ _ [[]; []; []]
           (heap_of_allocated sample_ins sample_outs) eq_refl).
Defined.

(** X24: A transaction that [IsContextualSorted] accepts, with any contexts,
    is accepted by [IsSorted]. *)
Theorem IsContextualSorted_implies_IsSorted
  (h h' : heap) (tx : MsgTx.t) (ins : list wire.TxIn) (outs : list wire.TxOut)
  (ctxts : list (list Byte.byte))
  (Halloc : allocated h tx ins outs)
  (Hctx : IsContextualSorted tx ctxts h = Ok (true, h')) :
  IsSorted tx h = Ok (true, h).
Proof.
  rewrite (IsSorted_spec _ _ _ _ Halloc).
  destruct (Nat.eq_dec (length outs) (length ctxts)) as [Hlen|Hne].
  - destruct (IsContextualSorted_spec _ _ _ _ _ Halloc Hlen) as (h'' & E & _).
    rewrite E in Hctx. injection Hctx as Hb _.
    apply andb_true_iff in Hb as [H1 H2].
    now rewrite H1, (contextual_sorted_outputs outs ctxts Hlen H2).
  - destruct (GoSort.IsSorted sortableInputSlice_Less ins) eqn:Hs.
    + rewrite (IsContextualSorted_panic _ _ _ _ _ Halloc Hs Hne) in Hctx.
      discriminate.
    + destruct Halloc as [Hi _].
      rewrite (IsContextualSorted_unsorted_inputs _ _ _ _ Hi Hs) in Hctx.
      discriminate.
Qed.

Lemma IsContextualSorted_implies_IsSorted_witness :
  IsSorted sample_tx (heap_of sorted_ins sorted_outs)
    = Ok (true, heap_of sorted_ins sorted_outs).
Proof.
  refine (IsContextualSorted_implies_IsSorted _ _ _ _ _
            [[Byte.x07]; []; [Byte.x03]]
            (heap_of_allocated sorted_ins sorted_outs) _).
  vm_compute. reflexivity.
Defined.

(** X25: With the same context for every output, [IsContextualSorted] returns
    what [IsSorted] returns. *)
Theorem IsContextualSorted_same_context
  (h : heap) (tx : MsgTx.t) (ins : list wire.TxIn) (outs : list wire.TxOut)
  (c : list Byte.byte)
  (Halloc : allocated h tx ins outs) :
  exists (b : bool) (h' : heap),
    IsContextualSorted tx (replicate (length outs) c) h = Ok (b, h') /\
    IsSorted tx h = Ok (b, h).
Proof.
  destruct (IsContextualSorted_spec h tx ins outs (replicate (length outs) c)
              Halloc) as (h' & E & _); [now rewrite length_replicate|].
  eexists _, h'. split; [exact E|].
  rewrite (IsSorted_spec _ _ _ _ Halloc). now rewrite same_context_sorted.
Qed.

Lemma IsContextualSorted_same_context_witness :
  exists (b : bool) (h' : heap),
    IsContextualSorted sample_tx (replicate (length sorted_outs) [Byte.x09])
      (heap_of sorted_ins sorted_outs) = Ok (b, h') /\
    IsSorted sample_tx (heap_of sorted_ins sorted_outs)
      = Ok (b, heap_of sorted_ins sorted_outs).
Proof.
  exact (IsContextualSorted_same_context _ _ _ _ [Byte.x09]
           (heap_of_allocated sorted_ins sorted_outs)).
Defined.

(** X26: [makeSortableOutputContextSlice] either panics on the length check
    (or on a slice that does not exist), or returns a new array that
    pairs output [i] with context [i] and leaves every array that existed
    as it was; the index into the contexts is never out of range. *)
Theorem makeSortableOutputContextSlice_result
  (h : heap) (l : loc) (ctxts : list (list Byte.byte)) :
  match makeSortableOutputContextSlice l ctxts h with
  | Ok (s, h') =>
      exists outs,
        txouts h !! l = Some outs /\ length outs = length ctxts /\
        ctxouts h !! s = None /\
        ctxouts h' = <[s := zip_with mkContext outs ctxts]> (ctxouts h) /\
        txins h' = txins h /\ txouts h' = txouts h
  | Panic msg =>
      (msg = "length of txouts and contexts must be equal"%string /\
       exists outs, txouts h !! l = Some outs /\ length outs <> length ctxts) \/
      (msg = "invalid memory address"%string /\ txouts h !! l = None)
  end.
Proof.
  destruct (txouts h !! l) as [outs|] eqn:Ho.
  - destruct (Nat.eq_dec (length outs) (length ctxts)) as [Hlen|Hne].
    + rewrite (makeSortableOutputContextSlice_ok _ _ outs _ Ho Hlen).
      exists outs. cbn. split; [reflexivity|]. split; [exact Hlen|].
      split; [apply fresh_lookup|]. repeat split.
    + rewrite (makeSortableOutputContextSlice_panic _ _ outs _ Ho Hne).
      left. split; [reflexivity|]. now exists outs.
  - unfold makeSortableOutputContextSlice, bind, load_outs. rewrite Ho.
    right. now split.
Qed.

(** X27: [sortableInputSlice.Less] orders the inputs by the hash of the
    outpoint they spend, read as a little-endian number (the order of the
    byte-reversed hashes), and inputs with the same hash by index. *)
Theorem input_Less_numeric (a b : wire.TxIn)
  (Ha : length (wire.Hash (wire.PreviousOutPoint a)) = 32%nat)
  (Hb : length (wire.Hash (wire.PreviousOutPoint b)) = 32%nat) :
  sortableInputSlice_Less a b = true <->
  le_value (wire.Hash (wire.PreviousOutPoint a))
    < le_value (wire.Hash (wire.PreviousOutPoint b)) \/
  (le_value (wire.Hash (wire.PreviousOutPoint a))
     = le_value (wire.Hash (wire.PreviousOutPoint b)) /\
   wire.Index (wire.PreviousOutPoint a) < wire.Index (wire.PreviousOutPoint b)).
Proof.
  rewrite sortableInputSlice_Less_lt. unfold input_lt. cbv zeta.
  pose proof (bytes_Compare_rev_value (wire.Hash (wire.PreviousOutPoint a))
                (wire.Hash (wire.PreviousOutPoint b)) ltac:(lia)) as HC.
  assert (HE : rev (wire.Hash (wire.PreviousOutPoint a)) =
               rev (wire.Hash (wire.PreviousOutPoint b)) <->
               le_value (wire.Hash (wire.PreviousOutPoint a)) =
               le_value (wire.Hash (wire.PreviousOutPoint b))).
  { rewrite <- bytes_Compare_eq, HC.
    destruct (Z.compare_spec (le_value (wire.Hash (wire.PreviousOutPoint a)))
                (le_value (wire.Hash (wire.PreviousOutPoint b))));
      cbn; split; lia. }
  rewrite HE, HC.
  destruct (Z.compare_spec (le_value (wire.Hash (wire.PreviousOutPoint a)))
              (le_value (wire.Hash (wire.PreviousOutPoint b))));
    cbn; split; lia.
Qed.

Lemma input_Less_numeric_witness :
  sortableInputSlice_Less (input_at Byte.x01 7) (input_at Byte.x02 0) = true <->
  le_value (hash_of Byte.x01) < le_value (hash_of Byte.x02) \/
  (le_value (hash_of Byte.x01) = le_value (hash_of Byte.x02) /\ 7 < 0).
Proof.
  exact (input_Less_numeric (input_at Byte.x01 7) (input_at Byte.x02 0)
           eq_refl eq_refl).
Defined.

End txsort_properties.
